(** * Resource allocation and deadlock algorithms: a shallow embedding

    The development embeds the algorithms of
    [src/concepts/deadlock/algorithms.py] and
    [src/concepts/resource_allocation/algorithms.py]:
    Banker's safety check, the transactional single request, the wait-for-graph
    cycle detector and the batch allocation policies.

    Python integers are unbounded, hence [Z].  Python lists indexed by
    position are Rocq lists with stdpp's lookup [l !! i] and update
    [<[i:=x]> l]; an index out of range raises [IndexError] in Python, which
    the embedding makes explicit.  Python sets are [gset string].  Process and
    resource objects are records; every process owns its own vectors (the
    callers build each [Process] from fresh lists), so the list of processes
    is updated by position. *)

From Stdlib Require Import ZArith Lia.
From stdpp Require Import base tactics option list strings gmap sets pretty.

Set Warnings "-clear-no-such-hyp".

Open Scope string_scope.
Open Scope list_scope.
Open Scope Z_scope.

(** ** Outcomes of running Python code *)

Inductive exception : Type :=
| IndexError
| KeyError
| ValueError
| AttributeError
| RecursionError.

(** [Ret a]: the call returned [a].  [Exn e]: it raised [e].  [Fuel]: the
    loop did not finish within the iterations granted to the model. *)
Inductive result (A : Type) : Type :=
| Ret (a : A)
| Exn (e : exception)
| Fuel.
Arguments Ret {A} a.
Arguments Exn {A} e.
Arguments Fuel {A}.

Global Instance result_bind : MBind result := λ A B k m,
  match m with
  | Ret a => k a
  | Exn e => Exn e
  | Fuel => Fuel
  end.

(** ** Python list idioms shared by both modules *)

(** [all(need <= work[j] for j, need in enumerate(needs))], the generator
    being consumed from position [j]: [all] stops at the first false item,
    and [work[j]] raises when [j] is past the end of [work]. *)
Fixpoint all_need_le_work (j : nat) (needs work : list Z) : result bool :=
  match needs with
  | [] => Ret true
  | need :: rest =>
      match work !! j with
      | None => Exn IndexError
      | Some w =>
          if bool_decide (need ≤ w) then all_need_le_work (S j) rest work
          else Ret false
      end
  end.

(** [for j in range(len(work)): work[j] += allocated[j]], with [k] iterations
    left and [j] the current index. *)
Fixpoint add_allocated (k j : nat) (allocated work : list Z) : result (list Z) :=
  match k with
  | O => Ret work
  | S k' =>
      match allocated !! j, work !! j with
      | Some a, Some w => add_allocated k' (S j) allocated (<[j := w + a]> work)
      | _, _ => Exn IndexError
      end
  end.

(** [any(req > x for req, x in zip(request, xs))]. *)
Definition any_gt (request xs : list Z) : bool :=
  existsb (λ '(req, x), bool_decide (req > x)) (zip request xs).

(** [all(req <= avail for req, avail in zip(request, avails))]. *)
Definition all_le (request avails : list Z) : bool :=
  forallb (λ '(req, avail), bool_decide (req ≤ avail)) (zip request avails).

(** The dictionaries returned by the safety check and by the admission
    operations. *)
Record SafetyResult : Type := mkSafety {
  safe : bool;
  safe_sequence : option (list string);
  safety_message : string
}.

Record AdmissionResult : Type := mkAdmission {
  granted : bool;
  message : string
}.

Definition unsafe_result : SafetyResult :=
  mkSafety false None "System is not in safe state - potential deadlock".
Definition safe_result (sequence : list string) : SafetyResult :=
  mkSafety true (Some sequence) "System is in safe state".

(** The loop state of [bankers_algorithm]: its three local variables. *)
Record BankerState : Type := mkBanker {
  work : list Z;
  finish : list bool;
  sequence : list string
}.

(** ** [src/concepts/deadlock/algorithms.py] *)
Module Deadlock.

Record Process : Type := mkProcess {
  pid : string;
  max_resources : list Z;
  allocated_resources : list Z;
  need_resources : list Z
}.

Record Resource : Type := mkResource {
  rid : string;
  total_instances : Z;
  available_instances : Z
}.

(** [Process.__init__]: [allocated_resources or [0] * len(max_resources)]
    takes the default when the argument is [None] or the empty list; [zip]
    stops at the shorter vector. *)
Definition new_process (pid : string) (max_resources : list Z)
    (allocated : option (list Z)) : Process :=
  let alloc :=
    match allocated with
    | None | Some [] => replicate (length max_resources) 0
    | Some l => l
    end in
  mkProcess pid max_resources alloc
    ((λ '(max_r, a), max_r - a) <$> zip max_resources alloc).

(** [Resource.__init__]. *)
Definition new_resource (rid : string) (total : Z) : Resource :=
  mkResource rid total total.

Definition Ledger : Type := list Process * list Resource.

(** The [for i, process in enumerate(processes)] loop of the safety check,
    from index [i] on.  It returns the flag [found] and the loop state. *)
Fixpoint scan (i : nat) (rest : list Process) (st : BankerState)
    : result (bool * BankerState) :=
  match rest with
  | [] => Ret (false, st)
  | process :: rest' =>
      match finish st !! i with
      | None => Exn IndexError
      | Some true => scan (S i) rest' st
      | Some false =>
          ok ← all_need_le_work 0 (need_resources process) (work st) ;
          if ok : bool then
            work' ← add_allocated (length (work st)) 0
                      (allocated_resources process) (work st) ;
            Ret (true, mkBanker work' (<[i := true]> (finish st))
                                (sequence st ++ [pid process]))
          else scan (S i) rest' st
      end
  end.

(** The [while len(safe_sequence) < len(processes)] loop. *)
Fixpoint bankers_while (fuel : nat) (processes : list Process)
    (st : BankerState) : result SafetyResult :=
  match fuel with
  | O => Fuel
  | S fuel' =>
      if bool_decide (length (sequence st) < length processes)%nat then
        '(found, st') ← scan 0 processes st ;
        if found : bool then bankers_while fuel' processes st'
        else Ret unsafe_result
      else Ret (safe_result (sequence st))
  end.

Definition initial (processes : list Process) (resources : list Resource)
    : BankerState :=
  mkBanker (available_instances <$> resources)
           (replicate (length processes) false) [].

(** Every pass of the loop that does not return appends one pid, so
    [len(processes)] passes and the final test are all the loop can do. *)
Definition bankers_algorithm (processes : list Process)
    (resources : list Resource) : result SafetyResult :=
  bankers_while (S (length processes)) processes (initial processes resources).

(** *** The transactional single request *)

Definition set_allocated (p : Process) (v : list Z) : Process :=
  mkProcess (pid p) (max_resources p) v (need_resources p).
Definition set_need (p : Process) (v : list Z) : Process :=
  mkProcess (pid p) (max_resources p) (allocated_resources p) v.
Definition set_available (r : Resource) (a : Z) : Resource :=
  mkResource (rid r) (total_instances r) a.

(** One pass of the allocation loop body, on the process at position [k]:
<<
    process.allocated_resources[i] += req
    process.need_resources[i] -= req
    resources[i].available_instances -= req
>>
    Each of the three subscripts can raise; what was written before the
    raise stays written. *)
Definition allocate_item (k i : nat) (req : Z) (L : Ledger)
    : Ledger * result unit :=
  let '(processes, resources) := L in
  match processes !! k with
  | None => (L, Exn IndexError)
  | Some p =>
      match allocated_resources p !! i with
      | None => (L, Exn IndexError)
      | Some a =>
          let p1 := set_allocated p (<[i := a + req]> (allocated_resources p)) in
          match need_resources p1 !! i with
          | None => ((<[k := p1]> processes, resources), Exn IndexError)
          | Some n =>
              let p2 := set_need p1 (<[i := n - req]> (need_resources p1)) in
              match resources !! i with
              | None => ((<[k := p2]> processes, resources), Exn IndexError)
              | Some r =>
                  ((<[k := p2]> processes,
                    <[i := set_available r (available_instances r - req)]> resources),
                   Ret ())
              end
          end
      end
  end.

(** [for i, req in enumerate(request): ...], from index [i] on. *)
Fixpoint allocate_loop (k i : nat) (request : list Z) (L : Ledger)
    : Ledger * result unit :=
  match request with
  | [] => (L, Ret ())
  | req :: rest =>
      match allocate_item k i req L with
      | (L', Ret _) => allocate_loop k (S i) rest L'
      | (L', Exn e) => (L', Exn e)
      | (L', Fuel) => (L', Fuel)
      end
  end.

(** [simulate_request]: the ledger after the call and what the call
    returned.  [copy.deepcopy] gives the loop on [temp_processes] and
    [temp_resources] its own ledger, so that loop starts from [L] and leaves
    [L] alone; the second loop runs on the live ledger. *)
Definition simulate_request (L : Ledger) (process_id : string)
    (request : list Z) : Ledger * result AdmissionResult :=
  let '(processes, resources) := L in
  match list_find (λ p, pid p = process_id) processes with
  | None =>
      (L, Ret (mkAdmission false ("Process " +:+ process_id +:+ " not found")))
  | Some (k, process) =>
      if any_gt request (need_resources process) then
        (L, Ret (mkAdmission false "Request exceeds maximum claim"))
      else if any_gt request (available_instances <$> resources) then
        (L, Ret (mkAdmission false "Request exceeds available resources"))
      else
        match allocate_loop k 0 request L with
        | (_, Exn e) => (L, Exn e)
        | (_, Fuel) => (L, Fuel)
        | ((temp_processes, temp_resources), Ret _) =>
            match bankers_algorithm temp_processes temp_resources with
            | Exn e => (L, Exn e)
            | Fuel => (L, Fuel)
            | Ret result =>
                if safe result then
                  match allocate_loop k 0 request L with
                  | (L', Ret _) => (L', Ret (mkAdmission true "Request granted"))
                  | (L', Exn e) => (L', Exn e)
                  | (L', Fuel) => (L', Fuel)
                  end
                else
                  (L, Ret (mkAdmission false "Request would lead to unsafe state"))
            end
        end
  end.

(** *** Wait-for-graph cycle detection *)

(** The dictionary [{process: [processes it waits for]}], in insertion
    order.  The keys of a dictionary are distinct; the list is read at the
    first entry of a key. *)
Definition WaitForGraph : Type := list (string * list string).

(** [wait_for_graph.get(node, [])]. *)
Definition graph_get (g : WaitForGraph) (node : string) : list string :=
  match list_find (λ kv, kv.1 = node) g with
  | Some (_, (_, waits_for)) => waits_for
  | None => []
  end.

(** The two sets the search shares between all its calls. *)
Record DfsState : Type := mkDfs {
  visited : gset string;
  rec_stack : gset string
}.

(** [for neighbor in wait_for_graph.get(node, [])], where [has_cycle] is the
    recursive call. *)
Fixpoint for_neighbors
    (has_cycle : string → DfsState → result (bool * DfsState))
    (neighbors : list string) (st : DfsState) : result (bool * DfsState) :=
  match neighbors with
  | [] => Ret (false, st)
  | neighbor :: rest =>
      if bool_decide (neighbor ∉ visited st) then
        '(cyc, st') ← has_cycle neighbor st ;
        if cyc : bool then Ret (true, st')
        else for_neighbors has_cycle rest st'
      else if bool_decide (neighbor ∈ rec_stack st) then Ret (true, st)
      else for_neighbors has_cycle rest st
  end.

(** The nested function [has_cycle(node, visited, rec_stack)].  It calls
    itself once for every node of the path it follows, and the interpreter
    raises [RecursionError] when calls nest deeper than its recursion limit:
    [limit] is the number of nested calls of [has_cycle] the interpreter
    still allows.  Nothing catches the exception.  [set.remove] raises
    [KeyError] on a missing element. *)
Fixpoint has_cycle (limit : nat) (g : WaitForGraph) (node : string)
    (st : DfsState) : result (bool * DfsState) :=
  match limit with
  | O => Exn RecursionError
  | S limit' =>
      let st1 := mkDfs ({[node]} ∪ visited st) ({[node]} ∪ rec_stack st) in
      '(cyc, st2) ← for_neighbors (has_cycle limit' g) (graph_get g node) st1 ;
      if cyc : bool then Ret (true, st2)
      else if bool_decide (node ∈ rec_stack st2) then
        Ret (false, mkDfs (visited st2) (rec_stack st2 ∖ {[node]}))
      else Exn KeyError
  end.

(** [for process in wait_for_graph: ...]: the value of
    [deadlocked_processes] when the loop is left. *)
Fixpoint for_processes (limit : nat) (g : WaitForGraph) (keys : list string)
    (st : DfsState) : result (list string) :=
  match keys with
  | [] => Ret []
  | process :: rest =>
      if bool_decide (process ∉ visited st) then
        '(cyc, st') ← has_cycle limit g process st ;
        if cyc : bool then Ret (elements (rec_stack st'))
        else for_processes limit g rest st'
      else for_processes limit g rest st
  end.

(** The returned dictionary without its [message], which only renders
    [deadlocked_processes]. *)
Record DeadlockResult : Type := mkDeadlock {
  deadlock_detected : bool;
  deadlocked_processes : list string
}.

(** [detect_deadlock_wait_for_graph], entered when the interpreter allows
    [limit] more nested calls.  [list(rec_stack)] lists a set in an order
    Python does not specify; [elements] fixes one. *)
Definition detect_deadlock_wait_for_graph (limit : nat) (g : WaitForGraph)
    : result DeadlockResult :=
  deadlocked ← for_processes limit g g.*1 (mkDfs ∅ ∅) ;
  Ret (mkDeadlock (bool_decide (0 < length deadlocked)%nat) deadlocked).

(** *** The need-versus-availability scan *)

(** [for process in processes: if any(need > avail for ...): ...append(pid)],
    [available] being the list of [available_instances]. *)
Fixpoint scan_needs (available : list Z) (processes : list Process)
    : list string :=
  match processes with
  | [] => []
  | process :: rest =>
      if any_gt (need_resources process) available
      then pid process :: scan_needs available rest
      else scan_needs available rest
  end.

(** [detect_deadlock_resource_allocation], the [message] left out as for the
    wait-for graph. *)
Definition detect_deadlock_resource_allocation (processes : list Process)
    (resources : list Resource) : DeadlockResult :=
  let deadlocked := scan_needs (available_instances <$> resources) processes in
  mkDeadlock (bool_decide (0 < length deadlocked)%nat) deadlocked.

End Deadlock.

(** ** [src/concepts/resource_allocation/algorithms.py] *)
Module ResourceAllocation.

Record Process : Type := mkProcess {
  pid : string;
  max_resources : list Z;
  allocated_resources : list Z;
  need_resources : list Z;
  priority : Z;
  arrival_time : Z;
  wait_time : Z;
  finish_time : option Z
}.

Record Resource : Type := mkResource {
  rid : string;
  total_instances : Z;
  available_instances : Z
}.

(** [Process.__init__]. *)
Definition new_process (pid : string) (max_resources : list Z)
    (allocated : option (list Z)) (priority arrival_time : Z) : Process :=
  let alloc :=
    match allocated with
    | None | Some [] => replicate (length max_resources) 0
    | Some l => l
    end in
  mkProcess pid max_resources alloc
    ((λ '(max_r, a), max_r - a) <$> zip max_resources alloc)
    priority arrival_time 0 None.

(** [Resource.__init__]. *)
Definition new_resource (rid : string) (total : Z) : Resource :=
  mkResource rid total total.

Definition Ledger : Type := list Process * list Resource.

(** *** Banker's algorithm *)

Fixpoint scan (i : nat) (rest : list Process) (st : BankerState)
    : result (bool * BankerState) :=
  match rest with
  | [] => Ret (false, st)
  | process :: rest' =>
      match finish st !! i with
      | None => Exn IndexError
      | Some true => scan (S i) rest' st
      | Some false =>
          ok ← all_need_le_work 0 (need_resources process) (work st) ;
          if ok : bool then
            work' ← add_allocated (length (work st)) 0
                      (allocated_resources process) (work st) ;
            Ret (true, mkBanker work' (<[i := true]> (finish st))
                                (sequence st ++ [pid process]))
          else scan (S i) rest' st
      end
  end.

Fixpoint bankers_while (fuel : nat) (processes : list Process)
    (st : BankerState) : result SafetyResult :=
  match fuel with
  | O => Fuel
  | S fuel' =>
      if bool_decide (length (sequence st) < length processes)%nat then
        '(found, st') ← scan 0 processes st ;
        if found : bool then bankers_while fuel' processes st'
        else Ret unsafe_result
      else Ret (safe_result (sequence st))
  end.

Definition initial (processes : list Process) (resources : list Resource)
    : BankerState :=
  mkBanker (available_instances <$> resources)
           (replicate (length processes) false) [].

Definition bankers_algorithm (processes : list Process)
    (resources : list Resource) : result SafetyResult :=
  bankers_while (S (length processes)) processes (initial processes resources).

(** *** Writes to the ledger *)

Definition set_allocated (p : Process) (v : list Z) : Process :=
  mkProcess (pid p) (max_resources p) v (need_resources p)
    (priority p) (arrival_time p) (wait_time p) (finish_time p).
Definition set_need (p : Process) (v : list Z) : Process :=
  mkProcess (pid p) (max_resources p) (allocated_resources p) v
    (priority p) (arrival_time p) (wait_time p) (finish_time p).
Definition set_available (r : Resource) (a : Z) : Resource :=
  mkResource (rid r) (total_instances r) a.

(** The body shared by the allocation loops of [simulate_request_bankers],
    [fcfs_allocation], [priority_allocation] and [round_robin_allocation],
    on the process at position [k]:
<<
    process.allocated_resources[i] += amount
    process.need_resources[i] -= amount
    resources[i].available_instances -= amount
>> *)
Definition allocate_item (k i : nat) (amount : Z) (L : Ledger)
    : Ledger * result unit :=
  let '(processes, resources) := L in
  match processes !! k with
  | None => (L, Exn IndexError)
  | Some p =>
      match allocated_resources p !! i with
      | None => (L, Exn IndexError)
      | Some a =>
          let p1 := set_allocated p (<[i := a + amount]> (allocated_resources p)) in
          match need_resources p1 !! i with
          | None => ((<[k := p1]> processes, resources), Exn IndexError)
          | Some n =>
              let p2 := set_need p1 (<[i := n - amount]> (need_resources p1)) in
              match resources !! i with
              | None => ((<[k := p2]> processes, resources), Exn IndexError)
              | Some r =>
                  ((<[k := p2]> processes,
                    <[i := set_available r (available_instances r - amount)]> resources),
                   Ret ())
              end
          end
      end
  end.

Fixpoint allocate_loop (k i : nat) (request : list Z) (L : Ledger)
    : Ledger * result unit :=
  match request with
  | [] => (L, Ret ())
  | req :: rest =>
      match allocate_item k i req L with
      | (L', Ret _) => allocate_loop k (S i) rest L'
      | (L', Exn e) => (L', Exn e)
      | (L', Fuel) => (L', Fuel)
      end
  end.

(** *** [simulate_request_bankers] *)
Definition simulate_request_bankers (L : Ledger) (process_id : string)
    (request : list Z) : Ledger * result AdmissionResult :=
  let '(processes, resources) := L in
  match list_find (λ p, pid p = process_id) processes with
  | None =>
      (L, Ret (mkAdmission false ("Process " +:+ process_id +:+ " not found")))
  | Some (k, process) =>
      if any_gt request (need_resources process) then
        (L, Ret (mkAdmission false "Request exceeds maximum claim"))
      else if any_gt request (available_instances <$> resources) then
        (L, Ret (mkAdmission false "Request exceeds available resources"))
      else
        match allocate_loop k 0 request L with
        | (_, Exn e) => (L, Exn e)
        | (_, Fuel) => (L, Fuel)
        | ((temp_processes, temp_resources), Ret _) =>
            match bankers_algorithm temp_processes temp_resources with
            | Exn e => (L, Exn e)
            | Fuel => (L, Fuel)
            | Ret result =>
                if safe result then
                  match allocate_loop k 0 request L with
                  | (L', Ret _) => (L', Ret (mkAdmission true "Request granted"))
                  | (L', Exn e) => (L', Exn e)
                  | (L', Fuel) => (L', Fuel)
                  end
                else
                  (L, Ret (mkAdmission false "Request would lead to unsafe state"))
            end
        end
  end.

(** *** First come first served *)

(** [sorted(processes, key=lambda p: p.arrival_time)] is a stable sort.
    The sorted list holds the same objects as [processes]; the embedding
    keeps each one's position in [processes] next to it. *)
Fixpoint insert_by_arrival (x : nat * Process) (sorted : list (nat * Process))
    : list (nat * Process) :=
  match sorted with
  | [] => [x]
  | y :: rest =>
      if bool_decide (arrival_time x.2 ≤ arrival_time y.2) then x :: y :: rest
      else y :: insert_by_arrival x rest
  end.

Definition sorted_by_arrival (processes : list Process) : list (nat * Process) :=
  foldr insert_by_arrival [] (imap (λ i p, (i, p)) processes).

(** [next((p for p in sorted_processes if p.pid == pid), None)], as the
    position of [p] in [processes]. *)
Definition find_sorted (sorted_processes : list (nat * Process)) (pid_ : string)
    : option nat :=
  match list_find (λ ip, pid ip.2 = pid_) sorted_processes with
  | Some (_, (k, _)) => Some k
  | None => None
  end.

Definition Request : Type := string * list Z.

(** [for pid, request in requests: ...]. *)
Fixpoint fcfs_loop (sorted_processes : list (nat * Process))
    (requests : list Request) (L : Ledger) (results : list AdmissionResult)
    : Ledger * result (list AdmissionResult) :=
  match requests with
  | [] => (L, Ret results)
  | (pid_, request) :: rest =>
      match find_sorted sorted_processes pid_ with
      | None =>
          fcfs_loop sorted_processes rest L
            (results ++ [mkAdmission false ("Process " +:+ pid_ +:+ " not found")])
      | Some k =>
          let can_grant := all_le request (available_instances <$> L.2) in
          if can_grant then
            match allocate_loop k 0 request L with
            | (L', Ret _) =>
                fcfs_loop sorted_processes rest L'
                  (results ++ [mkAdmission true ("Request by " +:+ pid_ +:+ " granted")])
            | (L', Exn e) => (L', Exn e)
            | (L', Fuel) => (L', Fuel)
            end
          else
            fcfs_loop sorted_processes rest L
              (results ++ [mkAdmission false
                 ("Request by " +:+ pid_ +:+ " denied - insufficient resources")])
      end
  end.

Definition fcfs_allocation (L : Ledger) (requests : list Request)
    : Ledger * result (list AdmissionResult) :=
  fcfs_loop (sorted_by_arrival L.1) requests L [].

(** *** Priority *)

(** Python's order on lists of integers and on the tuples
    [(priority, pid, request)]; strings are compared by code point, which
    is the byte order of their UTF-8 encoding. *)
Fixpoint list_lt (a b : list Z) : bool :=
  match a, b with
  | _, [] => false
  | [], _ :: _ => true
  | x :: a', y :: b' =>
      if bool_decide (x < y) then true
      else if bool_decide (y < x) then false
      else list_lt a' b'
  end.

Definition PriorityRequest : Type := Z * string * list Z.

Definition tuple_lt (a b : PriorityRequest) : bool :=
  let '(pa, ida, ra) := a in
  let '(pb, idb, rb) := b in
  if bool_decide (pa < pb) then true
  else if bool_decide (pb < pa) then false
  else if String.ltb ida idb then true
  else if String.ltb idb ida then false
  else list_lt ra rb.

(** [priority_requests.sort(reverse=True)]: tuples that compare equal are
    equal, so the descending order fixes the list. *)
Fixpoint insert_desc (x : PriorityRequest) (sorted : list PriorityRequest)
    : list PriorityRequest :=
  match sorted with
  | [] => [x]
  | y :: rest =>
      if tuple_lt x y then y :: insert_desc x rest else x :: y :: rest
  end.

Definition sort_desc (l : list PriorityRequest) : list PriorityRequest :=
  foldr insert_desc [] l.

(** The first loop: requests of unknown processes are left out. *)
Fixpoint priority_requests (processes : list Process) (requests : list Request)
    : list PriorityRequest :=
  match requests with
  | [] => []
  | (pid_, request) :: rest =>
      match list_find (λ p, pid p = pid_) processes with
      | Some (_, process) =>
          (priority process, pid_, request) :: priority_requests processes rest
      | None => priority_requests processes rest
      end
  end.

(** The second loop.  [process] is [None] when no process has the pid, and
    an attribute of [None] cannot be read; the first loop rules that out. *)
Fixpoint priority_loop (queue : list PriorityRequest) (L : Ledger)
    (results : list AdmissionResult) : Ledger * result (list AdmissionResult) :=
  match queue with
  | [] => (L, Ret results)
  | (_, pid_, request) :: rest =>
      match list_find (λ p, pid p = pid_) L.1 with
      | None => (L, Exn AttributeError)
      | Some (k, process) =>
          let can_grant := all_le request (available_instances <$> L.2) in
          if can_grant then
            match allocate_loop k 0 request L with
            | (L', Ret _) =>
                priority_loop rest L'
                  (results ++ [mkAdmission true
                     ("Request by " +:+ pid_ +:+ " (priority "
                        +:+ pretty (priority process) +:+ ") granted")])
            | (L', Exn e) => (L', Exn e)
            | (L', Fuel) => (L', Fuel)
            end
          else
            priority_loop rest L
              (results ++ [mkAdmission false
                 ("Request by " +:+ pid_ +:+ " (priority "
                    +:+ pretty (priority process)
                    +:+ ") denied - insufficient resources")])
      end
  end.

Definition priority_allocation (L : Ledger) (requests : list Request)
    : Ledger * result (list AdmissionResult) :=
  priority_loop (sort_desc (priority_requests L.1 requests)) L [].

(** *** Round robin *)

(** [max(request)]; the built-in raises [ValueError] on an empty list. *)
Definition list_max (l : list Z) : result Z :=
  match l with
  | [] => Exn ValueError
  | x :: rest => Ret (foldl Z.max x rest)
  end.

(** [while queue: ...]; [fuel] counts the passes the model may make. *)
Fixpoint round_robin_while (fuel : nat) (time_quantum : Z)
    (queue : list Request) (L : Ledger) (results : list AdmissionResult)
    : Ledger * result (list AdmissionResult) :=
  match queue with
  | [] => (L, Ret results)
  | (pid_, request) :: queue' =>
      match fuel with
      | O => (L, Fuel)
      | S fuel' =>
          match list_find (λ p, pid p = pid_) L.1 with
          | None =>
              round_robin_while fuel' time_quantum queue' L
                (results ++ [mkAdmission false ("Process " +:+ pid_ +:+ " not found")])
          | Some (k, _) =>
              let can_grant := all_le request (available_instances <$> L.2) in
              if can_grant then
                match list_max request with
                | Exn e => (L, Exn e)
                | Fuel => (L, Fuel)
                | Ret largest =>
                    let allocated_time := Z.min time_quantum largest in
                    match allocate_loop k 0
                            ((λ req, Z.min req allocated_time) <$> request) L with
                    | (L', Ret _) =>
                        match L'.1 !! k with
                        | None => (L', Exn IndexError)
                        | Some process =>
                            if forallb (λ need, bool_decide (need = 0))
                                 (need_resources process) then
                              round_robin_while fuel' time_quantum queue' L'
                                (results ++ [mkAdmission true
                                   ("Request by " +:+ pid_ +:+ " completed")])
                            else
                              let remaining_request :=
                                Z.max 0 <$> need_resources process in
                              round_robin_while fuel' time_quantum
                                (queue' ++ [(pid_, remaining_request)]) L'
                                (results ++ [mkAdmission true
                                   ("Request by " +:+ pid_
                                      +:+ " partially granted, re-queued")])
                        end
                    | (L', Exn e) => (L', Exn e)
                    | (L', Fuel) => (L', Fuel)
                    end
                end
              else
                round_robin_while fuel' time_quantum
                  (queue' ++ [(pid_, request)]) L
                  (results ++ [mkAdmission false
                     ("Request by " +:+ pid_ +:+ " denied, re-queued")])
          end
      end
  end.

Definition round_robin_allocation (fuel : nat) (L : Ledger)
    (requests : list Request) (time_quantum : Z)
    : Ledger * result (list AdmissionResult) :=
  round_robin_while fuel time_quantum requests L [].

(** *** Fair share *)

Record FairShareResult : Type := mkFairShare {
  allocations : gmap string (list Z);
  fair_message : string
}.

Definition FairState : Type := Ledger * gmap string (list Z).

(** The body of the inner loop, for resource [i] and the process at
    position [j]. *)
Definition fair_item (i j : nat) (fair_share remainder : Z)
    (resource_count : nat) (st : FairState) : FairState * result unit :=
  let '((processes, resources), allocs) := st in
  match processes !! j, resources !! i with
  | Some process, Some resource =>
      let alloc :=
        fair_share + (if bool_decide (Z.of_nat j < remainder) then 1 else 0) in
      match max_resources process !! i with
      | None => (st, Exn IndexError)
      | Some max_i =>
          let alloc := Z.min alloc max_i in
          let row :=
            default (replicate resource_count 0) (allocs !! pid process) in
          let allocs' := <[pid process := <[i := alloc]> row]> allocs in
          if bool_decide (i < length (allocated_resources process))%nat then
            let p1 :=
              set_allocated process (<[i := alloc]> (allocated_resources process)) in
            if bool_decide (i < length (need_resources p1))%nat then
              let p2 :=
                set_need p1 (<[i := max_i - alloc]> (need_resources p1)) in
              ((<[j := p2]> processes,
                <[i := set_available resource
                         (available_instances resource - alloc)]> resources,
                allocs'),
               Ret ())
            else ((<[j := p1]> processes, resources, allocs'), Exn IndexError)
          else ((processes, resources, allocs'), Exn IndexError)
      end
  | _, _ => (st, Exn IndexError)
  end.

(** [for j, process in enumerate(processes)], with [todo] processes left. *)
Fixpoint fair_processes (todo i j : nat) (fair_share remainder : Z)
    (resource_count : nat) (st : FairState) : FairState * result unit :=
  match todo with
  | O => (st, Ret ())
  | S todo' =>
      match fair_item i j fair_share remainder resource_count st with
      | (st', Ret _) =>
          fair_processes todo' i (S j) fair_share remainder resource_count st'
      | (st', Exn e) => (st', Exn e)
      | (st', Fuel) => (st', Fuel)
      end
  end.

(** [for i, resource in enumerate(resources)], with [todo] resources left.
    [//] and [%] round towards minus infinity, as [Z.div] and [Z.modulo]
    do. *)
Fixpoint fair_resources (todo i : nat) (num_processes : nat)
    (st : FairState) : FairState * result unit :=
  match todo with
  | O => (st, Ret ())
  | S todo' =>
      match st.1.2 !! i with
      | None => (st, Exn IndexError)
      | Some resource =>
          let fair_share := total_instances resource `div` Z.of_nat num_processes in
          let remainder := total_instances resource `mod` Z.of_nat num_processes in
          match fair_processes num_processes i 0 fair_share remainder
                  (length st.1.2) st with
          | (st', Ret _) => fair_resources todo' (S i) num_processes st'
          | (st', Exn e) => (st', Exn e)
          | (st', Fuel) => (st', Fuel)
          end
      end
  end.

Definition fair_share_allocation (L : Ledger) : Ledger * result FairShareResult :=
  match L.1 with
  | [] => (L, Ret (mkFairShare ∅ "No processes"))
  | _ :: _ =>
      let num_processes := length L.1 in
      match fair_resources (length L.2) 0 num_processes (L, ∅) with
      | ((L', allocs), Ret _) =>
          (L', Ret (mkFairShare allocs
                 ("Fair share allocation completed for "
                    +:+ pretty num_processes +:+ " processes")))
      | ((L', _), Exn e) => (L', Exn e)
      | ((L', _), Fuel) => (L', Fuel)
      end
  end.

(** *** Release *)

Record ReleaseResult : Type := mkRelease {
  success : bool;
  release_message : string
}.

(** The body of the release loop:
<<
    process.allocated_resources[i] -= rel
    process.need_resources[i] += rel
    resources[i].available_instances += rel
>> *)
Definition release_item (k i : nat) (rel : Z) (L : Ledger)
    : Ledger * result unit :=
  let '(processes, resources) := L in
  match processes !! k with
  | None => (L, Exn IndexError)
  | Some p =>
      match allocated_resources p !! i with
      | None => (L, Exn IndexError)
      | Some a =>
          let p1 := set_allocated p (<[i := a - rel]> (allocated_resources p)) in
          match need_resources p1 !! i with
          | None => ((<[k := p1]> processes, resources), Exn IndexError)
          | Some n =>
              let p2 := set_need p1 (<[i := n + rel]> (need_resources p1)) in
              match resources !! i with
              | None => ((<[k := p2]> processes, resources), Exn IndexError)
              | Some r =>
                  ((<[k := p2]> processes,
                    <[i := set_available r (available_instances r + rel)]> resources),
                   Ret ())
              end
          end
      end
  end.

Fixpoint release_loop (k i : nat) (release : list Z) (L : Ledger)
    : Ledger * result unit :=
  match release with
  | [] => (L, Ret ())
  | rel :: rest =>
      match release_item k i rel L with
      | (L', Ret _) => release_loop k (S i) rest L'
      | (L', Exn e) => (L', Exn e)
      | (L', Fuel) => (L', Fuel)
      end
  end.

Definition deallocate_resources (L : Ledger) (process_id : string)
    (release : list Z) : Ledger * result ReleaseResult :=
  match list_find (λ p, pid p = process_id) L.1 with
  | None =>
      (L, Ret (mkRelease false ("Process " +:+ process_id +:+ " not found")))
  | Some (k, process) =>
      if any_gt release (allocated_resources process) then
        (L, Ret (mkRelease false "Cannot release more than allocated"))
      else
        match release_loop k 0 release L with
        | (L', Ret _) =>
            (L', Ret (mkRelease true ("Resources released from " +:+ process_id)))
        | (L', Exn e) => (L', Exn e)
        | (L', Fuel) => (L', Fuel)
        end
  end.

(** *** Starvation *)

(** [check_starvation(processes, time_threshold)]. *)
Fixpoint check_starvation (processes : list Process) (time_threshold : Z)
    : list string :=
  match processes with
  | [] => []
  | process :: rest =>
      if bool_decide (wait_time process > time_threshold)
         && existsb (λ need, bool_decide (need > 0)) (need_resources process)
      then pid process :: check_starvation rest time_threshold
      else check_starvation rest time_threshold
  end.

End ResourceAllocation.

(** ** The scan contract of the safety check, as the specification words it *)
Module Contract.
Import Deadlock.

Inductive verdict : Type :=
| Safe (order : list string)
| Unsafe.

Definition verdict_result (v : verdict) : SafetyResult :=
  match v with
  | Safe order => safe_result order
  | Unsafe => unsafe_result
  end.

(** [need[i] ≤ working[i]] for every resource [i]. *)
Definition eligible (st : BankerState) (p : Process) : Prop :=
  Forall2 Z.le (need_resources p) (work st).

Definition unfinished (st : BankerState) (i : nat) : Prop :=
  finish st !! i = Some false.

(** The process at position [i] is the first, in the order supplied, that
    is unfinished and eligible. *)
Definition selects (processes : list Process) (st : BankerState)
    (i : nat) (p : Process) : Prop :=
  processes !! i = Some p ∧ unfinished st i ∧ eligible st p ∧
  ∀ j q, (j < i)%nat → processes !! j = Some q →
         ¬ (unfinished st j ∧ eligible st q).

(** Add its allocated vector to working, mark it finished, append its
    pid. *)
Definition grant (st : BankerState) (i : nat) (p : Process) : BankerState :=
  mkBanker (zip_with Z.add (work st) (allocated_resources p))
           (<[i := true]> (finish st))
           (sequence st ++ [pid p]).

(** Repeat from the beginning after each grant; stop [Safe] when every
    process is finished and [Unsafe] when a full scan selects nothing. *)
Inductive runs (processes : list Process) : BankerState → verdict → Prop :=
| runs_safe st :
    Forall (λ f, f = true) (finish st) →
    runs processes st (Safe (sequence st))
| runs_unsafe st :
    (∃ i, unfinished st i) →
    (∀ i p, ¬ selects processes st i p) →
    runs processes st Unsafe
| runs_grant st i p v :
    selects processes st i p →
    runs processes (grant st i p) v →
    runs processes st v.

(** Before the first scan: the working vector is the available vector, no
    process is finished and the order is empty. *)
Definition start (processes : list Process) (resources : list Resource)
    : BankerState :=
  mkBanker (available_instances <$> resources)
           (replicate (length processes) false) [].

(** Every vector of every process has one entry per resource. *)
Definition well_shaped (processes : list Process) (resources : list Resource)
    : Prop :=
  Forall (λ p, length (need_resources p) = length resources ∧
               length (allocated_resources p) = length resources) processes.

End Contract.

(** ** The two modules side by side *)

Module D := Deadlock.
Module R := ResourceAllocation.

(** A process of the resource-allocation module seen as one of the deadlock
    module: the same pid and vectors, the scheduling fields forgotten. *)
Definition erase_process (p : ResourceAllocation.Process) : Deadlock.Process :=
  Deadlock.mkProcess
    (ResourceAllocation.pid p) (ResourceAllocation.max_resources p)
    (ResourceAllocation.allocated_resources p)
    (ResourceAllocation.need_resources p).

Definition erase_resource (r : ResourceAllocation.Resource) : Deadlock.Resource :=
  Deadlock.mkResource
    (ResourceAllocation.rid r) (ResourceAllocation.total_instances r)
    (ResourceAllocation.available_instances r).

Definition erase_ledger (L : ResourceAllocation.Ledger) : Deadlock.Ledger :=
  (erase_process <$> L.1, erase_resource <$> L.2).

(** The scheduling fields of a process, which no algorithm writes. *)
Definition scheduling_fields (p : ResourceAllocation.Process)
    : Z * Z * Z * option Z :=
  (ResourceAllocation.priority p, ResourceAllocation.arrival_time p,
   ResourceAllocation.wait_time p, ResourceAllocation.finish_time p).

(** ** Scenario A: the five-process, three-resource example *)

Definition scenario_A_processes : list Deadlock.Process :=
  [ Deadlock.new_process "P0" [7; 5; 3] (Some [0; 1; 0]);
    Deadlock.new_process "P1" [3; 2; 2] (Some [2; 0; 0]);
    Deadlock.new_process "P2" [9; 0; 2] (Some [3; 0; 2]);
    Deadlock.new_process "P3" [2; 2; 2] (Some [2; 1; 1]);
    Deadlock.new_process "P4" [4; 3; 3] (Some [0; 0; 2]) ].

(** Totals [10, 5, 7]; the allocations above add up to [7, 2, 5], which
    leaves [3, 3, 2] available. *)
Definition scenario_A_resources : list Deadlock.Resource :=
  [ Deadlock.mkResource "R0" 10 3;
    Deadlock.mkResource "R1" 5 3;
    Deadlock.mkResource "R2" 7 2 ].

Definition scenario_A : Deadlock.Ledger :=
  (scenario_A_processes, scenario_A_resources).

(** The same resources as [Resource.__init__] leaves them, every instance
    available. *)
Definition scenario_A_untouched_resources : list Deadlock.Resource :=
  [ Deadlock.new_resource "R0" 10;
    Deadlock.new_resource "R1" 5;
    Deadlock.new_resource "R2" 7 ].

(** The processes of scenario A in the order of the specification, under
    any five pids. *)
Definition scenario_A_named (p1 p2 p3 p4 p5 : string)
    : list Deadlock.Process :=
  [ Deadlock.new_process p1 [7; 5; 3] (Some [0; 1; 0]);
    Deadlock.new_process p2 [3; 2; 2] (Some [2; 0; 0]);
    Deadlock.new_process p3 [9; 0; 2] (Some [3; 0; 2]);
    Deadlock.new_process p4 [2; 2; 2] (Some [2; 1; 1]);
    Deadlock.new_process p5 [4; 3; 3] (Some [0; 0; 2]) ].

(** The resources of scenario A, totals [10, 5, 7], with [a0], [a1] and [a2]
    instances available. *)
Definition scenario_A_available (a0 a1 a2 : Z) : list Deadlock.Resource :=
  [ Deadlock.mkResource "R0" 10 a0;
    Deadlock.mkResource "R1" 5 a1;
    Deadlock.mkResource "R2" 7 a2 ].

(** What the processes hold of each of three resources. *)
Definition held (processes : list Deadlock.Process) : list Z :=
  foldr (zip_with Z.add) [0; 0; 0] (Deadlock.allocated_resources <$> processes).

(** ** Small ledgers of the resource-allocation module *)

(** Two processes and one resource with a single free instance; ["late"]
    arrives at time 5 and ["early"] at time 0. *)
Definition two_arrivals : ResourceAllocation.Ledger :=
  ([ ResourceAllocation.new_process "late" [1] None 0 5;
     ResourceAllocation.new_process "early" [1] None 0 0 ],
   [ ResourceAllocation.new_resource "R0" 1 ]).

(** One process that may claim one instance of a resource that has none
    free. *)
Definition exhausted : ResourceAllocation.Ledger :=
  ([ ResourceAllocation.new_process "A" [1] None 0 0 ],
   [ ResourceAllocation.mkResource "R0" 0 0 ]).

(** One process that holds two of five instances, three being free. *)
Definition holding_two : ResourceAllocation.Ledger :=
  ([ ResourceAllocation.new_process "A" [5] (Some [2]) 0 0 ],
   [ ResourceAllocation.mkResource "R0" 5 3 ]).

(** One process that may claim one of five free instances. *)
Definition modest_claim : ResourceAllocation.Ledger :=
  ([ ResourceAllocation.new_process "A" [1] None 0 0 ],
   [ ResourceAllocation.new_resource "R0" 5 ]).

(** One process that may claim two of five free instances. *)
Definition two_passes : ResourceAllocation.Ledger :=
  ([ ResourceAllocation.new_process "A" [2] None 0 0 ],
   [ ResourceAllocation.new_resource "R0" 5 ]).

(** The requests of a batch that name a process of the ledger. *)
Definition known_requests (processes : list ResourceAllocation.Process)
    (requests : list ResourceAllocation.Request)
    : list ResourceAllocation.Request :=
  filter (λ rq, rq.1 ∈ ResourceAllocation.pid <$> processes) requests.

(** A request is stuck in a ledger when its process exists and some
    component exceeds what is available. *)
Definition stuck (L : ResourceAllocation.Ledger)
    (rq : ResourceAllocation.Request) : Prop :=
  rq.1 ∈ ResourceAllocation.pid <$> L.1 ∧
  all_le rq.2 (ResourceAllocation.available_instances <$> L.2) = false.

(** ** The ledger invariants of the specification *)

(** Every vector of every process has one entry per resource. *)
Definition shaped (L : ResourceAllocation.Ledger) : Prop :=
  ∀ k p, L.1 !! k = Some p →
    length (ResourceAllocation.max_resources p) = length L.2 ∧
    length (ResourceAllocation.allocated_resources p) = length L.2 ∧
    length (ResourceAllocation.need_resources p) = length L.2.

(** [need[i] = max_demand[i] - allocated[i]]. *)
Definition need_consistent (L : ResourceAllocation.Ledger) : Prop :=
  ∀ k p i m a n, L.1 !! k = Some p →
    ResourceAllocation.max_resources p !! i = Some m →
    ResourceAllocation.allocated_resources p !! i = Some a →
    ResourceAllocation.need_resources p !! i = Some n →
    n = m - a.

(** [need[i] ≥ 0]. *)
Definition need_nonneg (L : ResourceAllocation.Ledger) : Prop :=
  ∀ k p i n, L.1 !! k = Some p →
    ResourceAllocation.need_resources p !! i = Some n → 0 ≤ n.

(** Need non-negativity as the specification states it: for every process
    and resource, [need[i] = max_demand[i] - allocated[i] ≥ 0], that is
    [allocated[i] ≤ max_demand[i]]. *)
Definition need_invariant (L : ResourceAllocation.Ledger) : Prop :=
  shaped L ∧ need_consistent L ∧ need_nonneg L.

(** The sum over all processes of [allocated[i]]. *)
Definition total_allocated (i : nat) (processes : list ResourceAllocation.Process)
    : Z :=
  foldr Z.add 0
    ((λ p, default 0 (ResourceAllocation.allocated_resources p !! i))
       <$> processes).

(** Conservation: for every resource [i],
    [available[i] + Σ allocated[i] = total_instances[i]]. *)
Definition conserved (L : ResourceAllocation.Ledger) : Prop :=
  ∀ i r, L.2 !! i = Some r →
    ResourceAllocation.available_instances r + total_allocated i L.1
    = ResourceAllocation.total_instances r.

(** What one pass of an allocation loop does to the ledger when none of its
    subscripts raises: [amount] moves from resource [i] to the process at
    position [k]. *)
Inductive moves (k i : nat) (amount : Z)
    : ResourceAllocation.Ledger → ResourceAllocation.Ledger → Prop :=
| moves_intro processes resources p a n r :
    processes !! k = Some p →
    ResourceAllocation.allocated_resources p !! i = Some a →
    ResourceAllocation.need_resources p !! i = Some n →
    resources !! i = Some r →
    moves k i amount (processes, resources)
      (<[k := ResourceAllocation.mkProcess
                (ResourceAllocation.pid p) (ResourceAllocation.max_resources p)
                (<[i := a + amount]> (ResourceAllocation.allocated_resources p))
                (<[i := n - amount]> (ResourceAllocation.need_resources p))
                (ResourceAllocation.priority p) (ResourceAllocation.arrival_time p)
                (ResourceAllocation.wait_time p) (ResourceAllocation.finish_time p)]>
         processes,
       <[i := ResourceAllocation.mkResource
                (ResourceAllocation.rid r) (ResourceAllocation.total_instances r)
                (ResourceAllocation.available_instances r - amount)]> resources).

(** A property of ledgers that no such move breaks. *)
Definition stable (P : ResourceAllocation.Ledger → Prop) : Prop :=
  ∀ k i amount L L', moves k i amount L L' → P L → P L'.

(** ** Wait-for graphs *)

(** [a] waits for [b]: the mapping has the key [a], and [b] is in the list
    under it; a node that is not a key waits for nothing. *)
Definition waits_for (g : Deadlock.WaitForGraph) (a b : string) : Prop :=
  ∃ waits, (a, waits) ∈ g ∧ b ∈ waits.

(** The graph contains a directed cycle. *)
Definition cyclic (g : Deadlock.WaitForGraph) : Prop :=
  ∃ a, tc (waits_for g) a a.

(** A recursion stack, deepest call first: every node was reached over an
    edge from the one below it. *)
Fixpoint linked (g : Deadlock.WaitForGraph) (stack : list string) : Prop :=
  match stack with
  | a :: (b :: _) as below => waits_for g b a ∧ linked g below
  | _ => True
  end.

(** The stack when a back edge is found: the node on top waits for a node
    that is itself on the stack. *)
Definition back_edge (g : Deadlock.WaitForGraph) (stack : list string) : Prop :=
  ∃ top back, head stack = Some top ∧ waits_for g top back ∧ back ∈ stack.

(** The recursion stack of a search started from a key of the mapping, at
    the moment a back edge is found. *)
Definition back_edge_stack (g : Deadlock.WaitForGraph) (stack : list string)
    : Prop :=
  NoDup stack ∧ linked g stack ∧ back_edge g stack ∧
  ∃ root, last stack = Some root ∧ root ∈ g.*1.

(** ** The depth-first search of the specification *)

Module Search.

(** How a search ends: with the recursion stack, deepest node first, at the
    moment a back edge is found, or without a back edge and with the set of
    the nodes it has visited. *)
Inductive outcome : Type :=
| Found (stack : list string)
| Clear (seen : gset string).

(** The processes [node] waits for, in the order the mapping lists them. *)
Definition neighbours (g : Deadlock.WaitForGraph) (node : string)
    (waits : list string) : Prop :=
  (node, waits) ∈ g ∨ (waits = [] ∧ node ∉ g.*1).

(** [explore g stack seen todo o]: the search looks at the nodes [todo] one
    after the other, [stack] being the recursion stack and [seen] the nodes
    visited so far.  A node on the stack is a back edge, and the search ends
    with the stack as it is; a node visited before is passed over; any
    other node is visited, pushed, and its own neighbours are looked at
    before the rest. *)
Inductive explore (g : Deadlock.WaitForGraph)
    : list string → gset string → list string → outcome → Prop :=
| explore_done stack seen :
    explore g stack seen [] (Clear seen)
| explore_back_edge stack seen node rest :
    node ∈ stack →
    explore g stack seen (node :: rest) (Found stack)
| explore_visited stack seen node rest o :
    node ∉ stack → node ∈ seen →
    explore g stack seen rest o →
    explore g stack seen (node :: rest) o
| explore_cycle_below stack seen node rest waits cycle :
    node ∉ stack → node ∉ seen →
    neighbours g node waits →
    explore g (node :: stack) ({[node]} ∪ seen) waits (Found cycle) →
    explore g stack seen (node :: rest) (Found cycle)
| explore_no_cycle_below stack seen node rest waits seen' o :
    node ∉ stack → node ∉ seen →
    neighbours g node waits →
    explore g (node :: stack) ({[node]} ∪ seen) waits (Clear seen') →
    explore g stack seen' rest o →
    explore g stack seen (node :: rest) o.

(** The whole search: the keys of the mapping in their order, from an empty
    stack, nothing being visited. *)
Definition search (g : Deadlock.WaitForGraph) (o : outcome) : Prop :=
  explore g [] ∅ g.*1 o.

End Search.

(** The answer [res] of the detector tells the outcome [o] of the search: a
    deadlock and the nodes of the stack, listed in the order of a set, when
    the search found a back edge, and no deadlock and no process
    otherwise. *)
Definition reports (o : Search.outcome) (res : Deadlock.DeadlockResult)
    : Prop :=
  match o with
  | Search.Found stack =>
      Deadlock.deadlock_detected res = true ∧
      Deadlock.deadlocked_processes res ≡ₚ stack
  | Search.Clear _ =>
      Deadlock.deadlock_detected res = false ∧
      Deadlock.deadlocked_processes res = []
  end.

(** A ring of [n] processes, each waiting for the next and the last for the
    first. *)
Definition ring (n : nat) : list (string * list string) :=
  (λ i : nat, (pretty i, [pretty (S i `mod` n)%nat])) <$> seq 0 n.

(** A wait-for graph with a tail: A waits for B, and B and C wait for each
    other. *)
Definition tailed_cycle : Deadlock.WaitForGraph :=
  [("A", ["B"]); ("B", ["C"]); ("C", ["B"])].

(** Two separate cycles: A and B, C and D. *)
Definition two_cycles : Deadlock.WaitForGraph :=
  [("A", ["B"]); ("B", ["A"]); ("C", ["D"]); ("D", ["C"])].

(** ** Vocabulary of the proofs *)

(** Every node of the graph: the keys and the members of the values. *)
Definition nodes (g : Deadlock.WaitForGraph) : gset string :=
  list_to_set (g.*1 ++ mjoin g.*2).

(** The nodes whose call has returned: visited and off the stack. *)
Definition finished_node (st : Deadlock.DfsState) (b : string) : Prop :=
  b ∈ Deadlock.visited st ∧ b ∉ Deadlock.rec_stack st.

(** What the search keeps true between two steps, [stack] being the calls in
    progress: a finished node waits for finished nodes only and is on no
    cycle. *)
Definition dfs_inv (g : Deadlock.WaitForGraph) (st : Deadlock.DfsState)
    (stack : list string) : Prop :=
  Deadlock.rec_stack st = list_to_set stack ∧
  NoDup stack ∧
  linked g stack ∧
  Deadlock.rec_stack st ⊆ Deadlock.visited st ∧
  ∀ b, finished_node st b →
       (∀ c, waits_for g b c → finished_node st c) ∧ ¬ tc (waits_for g) b b.

(** The state in which a call returns [True]. *)
Definition found (g : Deadlock.WaitForGraph) (st : Deadlock.DfsState)
    (stack : list string) : Prop :=
  Deadlock.rec_stack st = list_to_set stack ∧
  NoDup stack ∧ linked g stack ∧ back_edge g stack.

(** What a call on [node] establishes, the stack of its caller being
    [stack]. *)
Definition returns (g : Deadlock.WaitForGraph) (node : string)
    (st : Deadlock.DfsState) (stack : list string)
    (cyc : bool) (st' : Deadlock.DfsState) : Prop :=
  Deadlock.visited st ⊆ Deadlock.visited st' ∧
  if cyc then ∃ deeper, found g st' (deeper ++ node :: stack)
  else dfs_inv g st' stack ∧ node ∈ Deadlock.visited st'.

(** A function behaves as [has_cycle] does whenever fewer than [bound] nodes
    are still to be visited. *)
Definition searches (g : Deadlock.WaitForGraph)
    (call : string → Deadlock.DfsState → result (bool * Deadlock.DfsState))
    (bound : nat) : Prop :=
  ∀ node st stack,
    dfs_inv g st stack →
    node ∉ Deadlock.visited st →
    node ∈ nodes g →
    linked g (node :: stack) →
    (size (nodes g ∖ Deadlock.visited st) ≤ bound)%nat →
    ∃ cyc st', call node st = Ret (cyc, st') ∧ returns g node st stack cyc st'.

(** The two sets of the code hold what the search of the specification
    holds: the nodes of [stack] are on the recursion stack, and they are
    visited. *)
Definition agrees (st : Deadlock.DfsState) (stack : list string) : Prop :=
  Deadlock.rec_stack st = list_to_set stack ∧
  Deadlock.rec_stack st ⊆ Deadlock.visited st.

(** A call that returned [cyc] and left the state [st'] ended as the search
    [o] did, [stack] being the stack of the caller. *)
Definition ends (o : Search.outcome) (cyc : bool) (st' : Deadlock.DfsState)
    (stack : list string) : Prop :=
  match o with
  | Search.Found cycle =>
      cyc = true ∧ Deadlock.rec_stack st' = list_to_set cycle
  | Search.Clear seen =>
      cyc = false ∧ Deadlock.visited st' = seen ∧ agrees st' stack
  end.

(** Whenever [call] returns, it has done what the search does on entering a
    node that was not visited. *)
Definition explores (g : Deadlock.WaitForGraph)
    (call : string → Deadlock.DfsState → result (bool * Deadlock.DfsState))
    : Prop :=
  ∀ node st stack cyc st',
    call node st = Ret (cyc, st') →
    agrees st stack →
    node ∉ Deadlock.visited st →
    ∃ o, Search.explore g (node :: stack) ({[node]} ∪ Deadlock.visited st)
           (Deadlock.graph_get g node) o ∧
         ends o cyc st' stack.

(** The node [n] can be looked at from [stack]: it is a key when the stack is
    empty, and the top of the stack waits for it otherwise. *)
Definition follows (g : Deadlock.WaitForGraph) (stack : list string)
    (n : string) : Prop :=
  match stack with
  | [] => n ∈ g.*1
  | top :: _ => waits_for g top n
  end.

(** How many processes the safety check has marked finished. *)
Definition count_finished (flags : list bool) : nat :=
  length (filter (λ f, f = true) flags).

(** What the loop of the safety check keeps true of its three variables,
    for [n] processes and [m] resources. *)
Definition banker_inv (n m : nat) (st : BankerState) : Prop :=
  length (finish st) = n ∧
  length (work st) = m ∧
  length (sequence st) = count_finished (finish st).

(** ** The ledger after an allocation loop *)

(** [f q] applied to the entries [i], [i + 1], ... of [l], [q] running over
    [amounts]. *)
Fixpoint alters {A : Type} (f : Z → A → A) (i : nat) (amounts : list Z)
    (l : list A) : list A :=
  match amounts with
  | [] => l
  | q :: rest => alters f (S i) rest (alter (f q) i l)
  end.

(** The process at position [k] receives [amounts], entry by entry from
    index [i] on, out of the resources. *)
Definition applied (k i : nat) (amounts : list Z) (L : ResourceAllocation.Ledger)
    : ResourceAllocation.Ledger :=
  (alter (λ p, ResourceAllocation.mkProcess
                 (ResourceAllocation.pid p) (ResourceAllocation.max_resources p)
                 (alters (λ q a, a + q) i amounts
                    (ResourceAllocation.allocated_resources p))
                 (alters (λ q n, n - q) i amounts
                    (ResourceAllocation.need_resources p))
                 (ResourceAllocation.priority p)
                 (ResourceAllocation.arrival_time p)
                 (ResourceAllocation.wait_time p)
                 (ResourceAllocation.finish_time p)) k L.1,
   alters (λ q r, ResourceAllocation.mkResource
                    (ResourceAllocation.rid r)
                    (ResourceAllocation.total_instances r)
                    (ResourceAllocation.available_instances r - q)) i amounts L.2).

(** Between [L] and [L'] the process at position [k] has received [amounts]:
    its [allocated[i]] is raised and its [need[i]] lowered by [amounts[i]],
    [available_instances] of resource [i] is lowered by [amounts[i]], and
    nothing else differs. *)
Definition receives (k : nat) (amounts : list Z)
    (L L' : ResourceAllocation.Ledger) : Prop :=
  ∃ p p',
    L.1 !! k = Some p ∧ L'.1 !! k = Some p' ∧
    ResourceAllocation.pid p' = ResourceAllocation.pid p ∧
    ResourceAllocation.max_resources p' = ResourceAllocation.max_resources p ∧
    scheduling_fields p' = scheduling_fields p ∧
    (∀ i, ResourceAllocation.allocated_resources p' !! i
          = (λ x, x + default 0 (amounts !! i))
            <$> ResourceAllocation.allocated_resources p !! i) ∧
    (∀ i, ResourceAllocation.need_resources p' !! i
          = (λ x, x - default 0 (amounts !! i))
            <$> ResourceAllocation.need_resources p !! i) ∧
    (∀ k', k' ≠ k → L'.1 !! k' = L.1 !! k') ∧
    (∀ i, (ResourceAllocation.available_instances <$> L'.2) !! i
          = (λ x, x - default 0 (amounts !! i))
            <$> (ResourceAllocation.available_instances <$> L.2) !! i) ∧
    ResourceAllocation.total_instances <$> L'.2
    = ResourceAllocation.total_instances <$> L.2 ∧
    ResourceAllocation.rid <$> L'.2 = ResourceAllocation.rid <$> L.2.

(** The process at position [k] exists and its vectors, like the list of
    resources, have at least [n] entries. *)
Definition fits (k n : nat) (L : ResourceAllocation.Ledger) : Prop :=
  ∃ p, L.1 !! k = Some p ∧
       (n ≤ length (ResourceAllocation.allocated_resources p))%nat ∧
       (n ≤ length (ResourceAllocation.need_resources p))%nat ∧
       (n ≤ length L.2)%nat.

(** A call is a grant when it returns a record with [granted = True]. *)
Definition was_granted (r : result AdmissionResult) : Prop :=
  ∃ a, r = Ret a ∧ granted a = true.

(** [available[i] ≥ 0] and [allocated[i] ≥ 0]. *)
Definition available_nonneg (L : ResourceAllocation.Ledger) : Prop :=
  ∀ i r, L.2 !! i = Some r → 0 ≤ ResourceAllocation.available_instances r.

Definition allocated_nonneg (L : ResourceAllocation.Ledger) : Prop :=
  ∀ k p i a, L.1 !! k = Some p →
    ResourceAllocation.allocated_resources p !! i = Some a → 0 ≤ a.

(** A property of ledgers kept by every allocation loop that runs after the
    availability test on a vector that dominates its amounts. *)
Definition guarded (P : ResourceAllocation.Ledger → Prop) : Prop :=
  ∀ k request amounts L L',
    ResourceAllocation.allocate_loop k 0 amounts L = (L', Ret ()) →
    all_le request (ResourceAllocation.available_instances <$> L.2) = true →
    Forall2 Z.le amounts request →
    P L → P L'.

(** ** Safe states *)

(** The processes at the positions [order] can finish one after the other:
    each finds its need covered by what is available when its turn comes,
    and gives back what it holds when it is done. *)
Fixpoint replays (processes : list Deadlock.Process) (available : list Z)
    (order : list nat) : Prop :=
  match order with
  | [] => True
  | i :: rest =>
      ∃ p, processes !! i = Some p ∧
           Forall2 Z.le (Deadlock.need_resources p) available ∧
           replays processes
             (zip_with Z.add available (Deadlock.allocated_resources p)) rest
  end.

(** A state is safe when some order of all the processes replays. *)
Definition safe_state (processes : list Deadlock.Process)
    (resources : list Deadlock.Resource) : Prop :=
  ∃ order, order ≡ₚ seq 0 (length processes) ∧
           replays processes (Deadlock.available_instances <$> resources) order.

(** The pids of the processes at the positions [order]. *)
Definition pids_at (processes : list Deadlock.Process) (order : list nat)
    : list string :=
  omap (λ i, Deadlock.pid <$> processes !! i) order.

(** No process holds a negative amount. *)
Definition holds_nonneg (processes : list Deadlock.Process) : Prop :=
  Forall (λ p, Forall (Z.le 0) (Deadlock.allocated_resources p)) processes.

(** The positions the safety check has not marked finished. *)
Definition unfinished_positions (flags : list bool) : list nat :=
  filter (λ i, flags !! i = Some false) (seq 0 (length flags)).

(** What the processes of [order] that are marked finished hold of resource
    [r]. *)
Fixpoint released (processes : list Deadlock.Process) (flags : list bool)
    (r : nat) (order : list nat) : Z :=
  match order with
  | [] => 0
  | i :: rest =>
      (if decide (flags !! i = Some true)
       then default 0 (processes !! i ≫= λ p, Deadlock.allocated_resources p !! r)
       else 0)
      + released processes flags r rest
  end.

(** The safety check has granted, out of [available], what the processes of
    [order] it marked finished were holding. *)
Definition work_accounts (processes : list Deadlock.Process)
    (available : list Z) (order : list nat) (st : BankerState) : Prop :=
  ∀ r x a, work st !! r = Some x → available !! r = Some a →
           x = a + released processes (finish st) r order.

(** The process at position [i] could be granted now. *)
Definition grantable (processes : list Deadlock.Process) (st : BankerState)
    (i : nat) : Prop :=
  match processes !! i with
  | Some p => Contract.unfinished st i ∧ Contract.eligible st p
  | None => False
  end.

(** Two processes and one instance: P0 needs nothing and holds minus one,
    P1 needs the instance and holds nothing. *)
Definition negative_holding : Deadlock.Ledger :=
  ([ Deadlock.mkProcess "P0" [-1] [-1] [0];
     Deadlock.mkProcess "P1" [1] [0] [1] ],
   [ Deadlock.mkResource "R0" 0 1 ]).

(** A process on a cycle of the wait-for graph can be reached from [x]. *)
Definition waits_into_cycle (g : Deadlock.WaitForGraph) (x : string) : Prop :=
  ∃ c, rtc (waits_for g) x c ∧ tc (waits_for g) c c.

(** ** Fair shares *)

(** The share of the process at position [k] out of [total] instances
    divided among [n] processes, capped at [cap]. *)
Definition fair_amount (total : Z) (n k : nat) (cap : Z) : Z :=
  Z.min (total `div` Z.of_nat n
         + (if bool_decide (Z.of_nat k < total `mod` Z.of_nat n) then 1 else 0))
        cap.

(** The loops of [fair_share_allocation] have reached resource [i0] and
    process [j0]: the pair of resource [i] and process [k] has been served. *)
Definition served (i0 j0 i k : nat) : Prop :=
  (i < i0 ∨ (i = i0 ∧ k < j0))%nat.

(** The processes already served for resource [i]. *)
Definition served_processes (i0 j0 i : nat)
    (processes : list ResourceAllocation.Process)
    : list ResourceAllocation.Process :=
  if decide (i < i0)%nat then processes
  else if decide (i = i0) then take j0 processes else [].

(** What [fair_share_allocation] has established when its loops have
    reached resource [i0] and process [j0], having started from [L0]. *)
Definition fair_progress (L0 : ResourceAllocation.Ledger) (i0 j0 : nat)
    (st : ResourceAllocation.FairState) : Prop :=
  shaped st.1 ∧
  length st.1.1 = length L0.1 ∧ length st.1.2 = length L0.2 ∧
  (∀ k p0, L0.1 !! k = Some p0 →
     ∃ p, st.1.1 !! k = Some p ∧
          ResourceAllocation.pid p = ResourceAllocation.pid p0 ∧
          ResourceAllocation.max_resources p
          = ResourceAllocation.max_resources p0 ∧
          scheduling_fields p = scheduling_fields p0 ∧
          ∀ i r0 cap,
            served i0 j0 i k →
            L0.2 !! i = Some r0 →
            ResourceAllocation.max_resources p0 !! i = Some cap →
            let share :=
              fair_amount (ResourceAllocation.total_instances r0)
                (length L0.1) k cap in
            ResourceAllocation.allocated_resources p !! i = Some share ∧
            ResourceAllocation.need_resources p !! i = Some (cap - share) ∧
            (NoDup (ResourceAllocation.pid <$> L0.1) →
             ∃ row, st.2 !! ResourceAllocation.pid p0 = Some row ∧
                    row !! i = Some share)) ∧
  (∀ i r0, L0.2 !! i = Some r0 →
     ∃ r, st.1.2 !! i = Some r ∧
          ResourceAllocation.rid r = ResourceAllocation.rid r0 ∧
          ResourceAllocation.total_instances r
          = ResourceAllocation.total_instances r0 ∧
          ResourceAllocation.available_instances r
          + total_allocated i (served_processes i0 j0 i st.1.1)
          = ResourceAllocation.available_instances r0) ∧
  (∀ pid_ row, st.2 !! pid_ = Some row → length row = length L0.2).

(** The process found under [pid_] has nothing left to claim. *)
Definition claim_met (L : ResourceAllocation.Ledger) (pid_ : string) : Prop :=
  ∀ k p,
    list_find (λ p, ResourceAllocation.pid p = pid_) L.1 = Some (k, p) →
    Forall (λ need, need = 0) (ResourceAllocation.need_resources p).

(** One operation of a session under the Banker's policy: a request
    through [simulate_request_bankers], or a release of a non-negative
    vector through [deallocate_resources] that returns. *)
Inductive banker_step : ResourceAllocation.Ledger → ResourceAllocation.Ledger → Prop :=
| step_request L process_id request :
    banker_step L (ResourceAllocation.simulate_request_bankers L process_id request).1
| step_release L process_id release L' res :
    Forall (Z.le 0) release →
    ResourceAllocation.deallocate_resources L process_id release = (L', Ret res) →
    banker_step L L'.

(** * Proofs *)

(** ** Vector idioms *)

Lemma all_need_le_work_spec needs work j :
  (j + length needs = length work)%nat →
  all_need_le_work j needs work
  = Ret (bool_decide (Forall2 Z.le needs (drop j work))).
Proof.
  revert j. induction needs as [|need rest IH]; intros j Hlen; simpl in *.
  - rewrite drop_ge by lia. by rewrite bool_decide_eq_true_2.
  - destruct (work !! j) as [w|] eqn:Hw.
    2: { apply lookup_ge_None in Hw. lia. }
    rewrite (drop_S _ _ _ Hw).
    case_bool_decide as Hle.
    + rewrite IH by lia. f_equal. apply bool_decide_ext.
      split; [by constructor | by inversion 1].
    + symmetry. f_equal. apply bool_decide_eq_false_2. by inversion 1.
Qed.

Lemma add_allocated_spec k j allocated work :
  (j + k = length work)%nat → length allocated = length work →
  add_allocated k j allocated work
  = Ret (take j work ++ zip_with Z.add (drop j work) (drop j allocated)).
Proof.
  revert j work. induction k as [|k IH]; intros j work Hk Hlen; simpl.
  - rewrite !drop_ge by lia. rewrite take_ge by lia. by rewrite app_nil_r.
  - destruct (allocated !! j) as [a|] eqn:Ha.
    2: { apply lookup_ge_None in Ha. lia. }
    destruct (work !! j) as [w|] eqn:Hw.
    2: { apply lookup_ge_None in Hw. lia. }
    rewrite IH; rewrite ?length_insert; try lia. f_equal.
    rewrite (drop_S work _ _ Hw), (drop_S _ _ _ Ha). simpl.
    assert (Hj : (j < length work)%nat) by (by eapply lookup_lt_Some).
    rewrite (take_S_r _ _ (w + a)) by (by rewrite list_lookup_insert_eq).
    rewrite take_insert_ge by lia.
    rewrite drop_insert_lt by lia.
    by rewrite <- app_assoc.
Qed.

Lemma count_finished_le flags : (count_finished flags ≤ length flags)%nat.
Proof. apply length_filter. Qed.

Lemma count_finished_insert flags i :
  flags !! i = Some false →
  count_finished (<[i := true]> flags) = S (count_finished flags).
Proof.
  unfold count_finished. revert i.
  induction flags as [|f flags IH]; intros [|i] Hi; simplify_eq/=.
  - by rewrite filter_cons_False.
  - destruct f.
    + rewrite !filter_cons_True by done. simpl. by rewrite IH.
    + rewrite !filter_cons_False by done. by rewrite IH.
Qed.

Lemma count_finished_all flags :
  count_finished flags = length flags → Forall (λ f, f = true) flags.
Proof.
  unfold count_finished.
  induction flags as [|f flags IH]; intros Hc; [constructor|].
  destruct f.
  - rewrite filter_cons_True in Hc by done. simpl in Hc.
    constructor; [done|]. apply IH. lia.
  - rewrite filter_cons_False in Hc by done. simpl in Hc.
    pose proof (length_filter (λ f, f = true) flags). lia.
Qed.

Lemma count_finished_some_unfinished flags :
  (count_finished flags < length flags)%nat → ∃ i, flags !! i = Some false.
Proof.
  unfold count_finished.
  induction flags as [|f flags IH]; simpl; intros Hc; [lia|].
  destruct f.
  - rewrite filter_cons_True in Hc by done. simpl in Hc.
    destruct IH as [i Hi]; [lia|]. by exists (S i).
  - by exists 0%nat.
Qed.

(** ** The scan contract determines its verdict *)

Lemma selects_functional processes st i p j q :
  Contract.selects processes st i p → Contract.selects processes st j q →
  i = j ∧ p = q.
Proof.
  intros (Hp & Hu & He & Hfirst) (Hq & Hu' & He' & Hfirst').
  destruct (lt_eq_lt_dec i j) as [[Hij| ->]|Hji].
  - by destruct (Hfirst' i p).
  - by simplify_eq.
  - by destruct (Hfirst j q).
Qed.

Lemma runs_deterministic processes st v v' :
  Contract.runs processes st v → Contract.runs processes st v' → v = v'.
Proof.
  intros Hv. revert v'.
  induction Hv as [st Hall|st Hsome Hno|st i p v Hsel Hv IH]; intros v' Hv'.
  - inversion Hv' as [|? [j Hj] _|? j q ? (_ & Hj & _)]; subst; [done|..];
      eapply Forall_lookup_1 in Hall; eauto; done.
  - inversion Hv' as [? Hall| |? j q ? Hsel]; subst; [|done|].
    + destruct Hsome as [j Hj]. by eapply Forall_lookup_1 in Hall; eauto.
    + by destruct (Hno j q).
  - inversion Hv' as [? Hall|? _ Hno|? j q ? Hsel']; subst.
    + destruct Hsel as (_ & Hj & _).
      by eapply Forall_lookup_1 in Hall; eauto.
    + by destruct (Hno i p).
    + destruct (selects_functional _ _ _ _ _ _ Hsel Hsel') as [-> ->].
      by apply IH.
Qed.

(** ** The safety check of the deadlock module *)
Section bankers.
Import Deadlock Contract.
Variable processes : list Process.
Variable resources : list Resource.
Hypothesis shaped : well_shaped processes resources.

Local Abbreviation inv := (banker_inv (length processes) (length resources)).

Lemma initial_inv : inv (initial processes resources).
Proof.
  unfold banker_inv, initial; simpl.
  rewrite length_replicate, length_fmap. split_and!; try done.
  unfold count_finished.
  induction (length processes) as [|n IH]; simpl; [done|].
  by rewrite filter_cons_False.
Qed.

Lemma grant_inv st i p :
  inv st → selects processes st i p → inv (grant st i p).
Proof.
  intros (Hf & Hw & Hs) (Hp & Hu & _ & _). unfold banker_inv, grant; simpl.
  apply list_elem_of_lookup_2 in Hp as Hin.
  pose proof (proj1 (Forall_forall _ _) shaped _ Hin) as [_ Ha].
  rewrite length_insert, length_zip_with, length_app; simpl.
  rewrite count_finished_insert by done. lia.
Qed.

Lemma scan_spec pre rest st :
  processes = pre ++ rest →
  inv st →
  (∀ j q, (j < length pre)%nat → processes !! j = Some q →
          ¬ (unfinished st j ∧ eligible st q)) →
  (∃ i p, selects processes st i p ∧
          scan (length pre) rest st = Ret (true, grant st i p))
  ∨ ((∀ i p, ¬ selects processes st i p) ∧
     scan (length pre) rest st = Ret (false, st)).
Proof.
  intros Hps Hinv. revert pre Hps.
  induction rest as [|p rest IH]; intros pre Hps Hbefore.
  - right. split; [|done]. intros i q (Hq & Hu & He & _).
    apply (Hbefore i q); [|done..].
    apply lookup_lt_Some in Hq. rewrite Hps, app_nil_r in Hq. done.
  - destruct Hinv as (Hf & Hw & Hs).
    assert (Hp : processes !! length pre = Some p).
    { rewrite Hps. by rewrite list_lookup_middle. }
    assert (Hnext : processes = (pre ++ [p]) ++ rest).
    { by rewrite <- app_assoc. }
    assert (Hlen : length (pre ++ [p]) = S (length pre)).
    { rewrite length_app; simpl; lia. }
    simpl. destruct (finish st !! length pre) as [f|] eqn:Hfin.
    2: { apply lookup_ge_None in Hfin. apply lookup_lt_Some in Hp. lia. }
    destruct f.
    + specialize (IH (pre ++ [p]) Hnext). rewrite Hlen in IH. apply IH.
      intros j q Hj Hq [Hu He].
      destruct (decide (j = length pre)) as [->|Hne].
      * unfold unfinished in Hu. congruence.
      * apply (Hbefore j q); [lia|done|by split].
    + apply list_elem_of_lookup_2 in Hp as Hin.
      pose proof (proj1 (Forall_forall _ _) shaped _ Hin) as [Hn Ha].
      rewrite all_need_le_work_spec by (simpl; lia). simpl.
      rewrite drop_0. case_bool_decide as Hel.
      * rewrite add_allocated_spec by lia. simpl.
        rewrite !drop_0. left. exists (length pre), p. split; [|done].
        by split_and!.
      * specialize (IH (pre ++ [p]) Hnext). rewrite Hlen in IH. apply IH.
        intros j q Hj Hq [Hu He].
        destruct (decide (j = length pre)) as [->|Hne].
        -- by simplify_eq.
        -- apply (Hbefore j q); [lia|done|by split].
Qed.

Lemma bankers_while_spec fuel st :
  inv st →
  (length processes - length (sequence st) < fuel)%nat →
  ∃ v, runs processes st v ∧
       bankers_while fuel processes st = Ret (verdict_result v).
Proof.
  revert st. induction fuel as [|fuel IH]; intros st Hinv Hfuel; [lia|].
  simpl. case_bool_decide as Hlt.
  - destruct (scan_spec [] processes st)
      as [(i & p & Hsel & Hscan)|[Hno Hscan]];
      [done|done|simpl; lia|..]; simpl in Hscan; rewrite Hscan; simpl.
    + destruct (IH (grant st i p)) as (v & Hruns & ->).
      * by apply grant_inv.
      * simpl. rewrite length_app. simpl. lia.
      * exists v. split; [|done]. by eapply runs_grant.
    + exists Unsafe. split; [|done]. apply runs_unsafe; [|done].
      destruct Hinv as (Hf & _ & Hs).
      apply count_finished_some_unfinished. lia.
  - exists (Safe (sequence st)). split; [|done]. apply runs_safe.
    destruct Hinv as (Hf & _ & Hs). apply count_finished_all.
    pose proof (count_finished_le (finish st)). lia.
Qed.

(** The loop never needs more passes than the model grants it. *)
Lemma bankers_while_fuel fuel :
  (length processes < fuel)%nat →
  bankers_while fuel processes (initial processes resources)
  = bankers_algorithm processes resources.
Proof.
  intros Hfuel. unfold bankers_algorithm.
  destruct (bankers_while_spec fuel (initial processes resources))
    as (v & Hv & ->); [apply initial_inv|simpl; lia|].
  destruct (bankers_while_spec (S (length processes))
              (initial processes resources))
    as (v' & Hv' & ->); [apply initial_inv|simpl; lia|].
  by rewrite (runs_deterministic _ _ _ _ Hv Hv').
Qed.

End bankers.

(** ** The two modules compute the same *)
Section erase.

Lemma scan_erase i ps st :
  R.scan i ps st = D.scan i (erase_process <$> ps) st.
Proof.
  revert i. induction ps as [|p ps IH]; intros i; simpl; [done|].
  rewrite !IH. done.
Qed.

Lemma bankers_while_erase fuel ps st :
  R.bankers_while fuel ps st = D.bankers_while fuel (erase_process <$> ps) st.
Proof.
  revert st. induction fuel as [|fuel IH]; intros st; simpl; [done|].
  rewrite length_fmap, scan_erase.
  case_bool_decide; [|done].
  destruct (D.scan 0 (erase_process <$> ps) st) as [[[] st']| |]; simpl;
    by rewrite ?IH.
Qed.

Lemma bankers_algorithm_erase ps rs :
  R.bankers_algorithm ps rs
  = D.bankers_algorithm (erase_process <$> ps) (erase_resource <$> rs).
Proof.
  unfold R.bankers_algorithm, D.bankers_algorithm, R.initial, D.initial.
  rewrite bankers_while_erase, !length_fmap. do 3 f_equal.
  rewrite <- list_fmap_compose. by apply list_fmap_ext.
Qed.

Lemma allocate_item_erase k i req L :
  D.allocate_item k i req (erase_ledger L)
  = (erase_ledger (R.allocate_item k i req L).1,
     (R.allocate_item k i req L).2).
Proof.
  destruct L as [ps rs]. unfold erase_ledger; simpl.
  rewrite !list_lookup_fmap.
  destruct (ps !! k) as [p|]; simpl; [|done].
  destruct (R.allocated_resources p !! i) as [a|]; simpl; [|done].
  destruct (R.need_resources p !! i) as [n|]; simpl.
  2: { by rewrite list_fmap_insert. }
  destruct (rs !! i) as [r|]; simpl.
  2: { by rewrite list_fmap_insert. }
  by rewrite !list_fmap_insert.
Qed.

Lemma allocate_loop_erase k i request L :
  D.allocate_loop k i request (erase_ledger L)
  = (erase_ledger (R.allocate_loop k i request L).1,
     (R.allocate_loop k i request L).2).
Proof.
  revert i L. induction request as [|req rest IH]; intros i L;
    cbn [D.allocate_loop R.allocate_loop]; [done|].
  rewrite allocate_item_erase.
  destruct (R.allocate_item k i req L) as [L' [[]|e|]]; cbn [fst snd];
    [|done..].
  apply IH.
Qed.

Lemma list_find_erase ps process_id :
  list_find (λ p, D.pid p = process_id) (erase_process <$> ps)
  = prod_map id erase_process <$> list_find (λ p, R.pid p = process_id) ps.
Proof. by rewrite list_find_fmap. Qed.

Lemma simulate_request_erase L process_id request :
  D.simulate_request (erase_ledger L) process_id request
  = (erase_ledger (R.simulate_request_bankers L process_id request).1,
     (R.simulate_request_bankers L process_id request).2).
Proof.
  destruct L as [ps rs].
  unfold D.simulate_request, R.simulate_request_bankers, erase_ledger at 1.
  cbn [fst snd]. rewrite list_find_erase.
  destruct (list_find _ ps) as [[k p]|]; simpl; [|done].
  destruct (any_gt request (R.need_resources p)); [done|].
  rewrite <- list_fmap_compose.
  replace (D.available_instances ∘ erase_resource) with R.available_instances
    by done.
  destruct (any_gt request (R.available_instances <$> rs)); [done|].
  rewrite (allocate_loop_erase k 0 request (ps, rs)).
  destruct (R.allocate_loop k 0 request (ps, rs)) as [[tps trs] [[]|e|]];
    cbn [fst snd erase_ledger]; [|done..].
  rewrite bankers_algorithm_erase.
  destruct (D.bankers_algorithm _ _) as [res|e|]; [|done..].
  by destruct (safe res).
Qed.

End erase.

(** ** The safety check follows the scan contract *)



(** Scenario A is safe, and the scan returns P1, P3, P0, P2, P4. *)
Example scenario_A_safe :
  D.bankers_algorithm scenario_A_processes scenario_A_resources
  = Ret (safe_result ["P1"; "P3"; "P0"; "P2"; "P4"]).
Proof. reflexivity. Qed.

(** The copy in the resource-allocation module follows the same contract. *)
Corollary resource_allocation_scan_contract processes resources v :
  Contract.well_shaped (erase_process <$> processes)
                       (erase_resource <$> resources) →
  Contract.runs (erase_process <$> processes)
    (Contract.start (erase_process <$> processes) (erase_resource <$> resources))
    v ↔
  R.bankers_algorithm processes resources = Ret (Contract.verdict_result v).
Proof.
  intros Hshape. rewrite bankers_algorithm_erase.
  set (ps := erase_process <$> processes).
  set (rs := erase_resource <$> resources).
  change (Contract.start ps rs) with (D.initial ps rs).
  destruct (bankers_while_spec ps rs Hshape (S (length ps)) (D.initial ps rs))
    as (v' & Hv' & Heq); [apply initial_inv|simpl; lia|].
  unfold D.bankers_algorithm. rewrite Heq. split.
  - intros Hv. by rewrite (runs_deterministic _ _ _ _ Hv Hv').
  - intros Hr. assert (v' = v) as <-; [|done].
    destruct v', v; simplify_eq/=; done.
Qed.

(** ** The single request is transactional *)

Lemma simulate_request_cases L process_id request :
  let run := D.simulate_request L process_id request in
  match run.2 with
  | Ret a =>
      if granted a then
        ∃ k p, list_find (λ p, D.pid p = process_id) L.1 = Some (k, p) ∧
               D.allocate_loop k 0 request L = (run.1, Ret ())
      else
        run.1 = L ∧
        (message a = "Process " +:+ process_id +:+ " not found" ∨
         message a = "Request exceeds maximum claim" ∨
         message a = "Request exceeds available resources" ∨
         message a = "Request would lead to unsafe state")
  | Exn _ | Fuel => run.1 = L
  end.
Proof.
  destruct L as [ps rs]. unfold D.simulate_request. cbn [fst snd].
  destruct (list_find _ ps) as [[k p]|]; [|simpl; auto].
  destruct (any_gt request (D.need_resources p)); [simpl; auto|].
  destruct (any_gt request (D.available_instances <$> rs)); [simpl; auto 6|].
  destruct (D.allocate_loop k 0 request (ps, rs)) as [[tps trs] [[]|e|]]
    eqn:Hloop; [|done..].
  destruct (D.bankers_algorithm tps trs) as [res|e|]; [|done..].
  destruct (safe res); simpl; [by exists k, p|auto 6].
Qed.

Lemma simulate_request_bankers_cases L process_id request :
  let run := R.simulate_request_bankers L process_id request in
  match run.2 with
  | Ret a =>
      if granted a then
        ∃ k p, list_find (λ p, R.pid p = process_id) L.1 = Some (k, p) ∧
               R.allocate_loop k 0 request L = (run.1, Ret ())
      else
        run.1 = L ∧
        (message a = "Process " +:+ process_id +:+ " not found" ∨
         message a = "Request exceeds maximum claim" ∨
         message a = "Request exceeds available resources" ∨
         message a = "Request would lead to unsafe state")
  | Exn _ | Fuel => run.1 = L
  end.
Proof.
  destruct L as [ps rs]. unfold R.simulate_request_bankers. cbn [fst snd].
  destruct (list_find _ ps) as [[k p]|]; [|simpl; auto].
  destruct (any_gt request (R.need_resources p)); [simpl; auto|].
  destruct (any_gt request (R.available_instances <$> rs)); [simpl; auto 6|].
  destruct (R.allocate_loop k 0 request (ps, rs)) as [[tps trs] [[]|e|]]
    eqn:Hloop; [|done..].
  destruct (R.bankers_algorithm tps trs) as [res|e|]; [|done..].
  destruct (safe res); simpl; [by exists k, p|auto 6].
Qed.

(** C2.  Whatever the ledger, the process id and the request vector, a call
    of [simulate_request] (and of its copy [simulate_request_bankers]) that
    does not return [granted = True] (the four denials: process not found,
    request above need, request above available, unsafe state; or a raise)
    leaves processes and resources exactly as they were; when it returns
    [granted = True], the live ledger is the one the allocation loop produces
    from the request vector. *)
Theorem simulate_request_transactional process_id request :
  (∀ L,
    let run := D.simulate_request L process_id request in
    match run.2 with
    | Ret a =>
        if granted a then
          ∃ k p, list_find (λ p, D.pid p = process_id) L.1 = Some (k, p) ∧
                 D.allocate_loop k 0 request L = (run.1, Ret ())
        else
          run.1 = L ∧
          (message a = "Process " +:+ process_id +:+ " not found" ∨
           message a = "Request exceeds maximum claim" ∨
           message a = "Request exceeds available resources" ∨
           message a = "Request would lead to unsafe state")
    | Exn _ | Fuel => run.1 = L
    end) ∧
  (∀ L,
    let run := R.simulate_request_bankers L process_id request in
    match run.2 with
    | Ret a =>
        if granted a then
          ∃ k p, list_find (λ p, R.pid p = process_id) L.1 = Some (k, p) ∧
                 R.allocate_loop k 0 request L = (run.1, Ret ())
        else
          run.1 = L ∧
          (message a = "Process " +:+ process_id +:+ " not found" ∨
           message a = "Request exceeds maximum claim" ∨
           message a = "Request exceeds available resources" ∨
           message a = "Request would lead to unsafe state")
    | Exn _ | Fuel => run.1 = L
    end).
Proof.
  split; intros L;
    [apply simulate_request_cases|apply simulate_request_bankers_cases].
Qed.

(** ** The duplicated implementations agree *)

Lemma allocate_item_scheduling k i amount L :
  scheduling_fields <$> (R.allocate_item k i amount L).1.1
  = scheduling_fields <$> L.1.
Proof.
  destruct L as [ps rs]. unfold R.allocate_item.
  destruct (ps !! k) as [p|] eqn:Hp; [|done].
  destruct (R.allocated_resources p !! i) as [a|]; [|done].
  cbn [R.need_resources R.set_allocated].
  destruct (R.need_resources p !! i) as [n|];
    [destruct (rs !! i) as [r|]|]; cbn [fst snd];
    rewrite list_fmap_insert; apply list_insert_id;
    by rewrite list_lookup_fmap, Hp.
Qed.

Lemma allocate_loop_scheduling k i request L :
  scheduling_fields <$> (R.allocate_loop k i request L).1.1
  = scheduling_fields <$> L.1.
Proof.
  revert i L. induction request as [|req rest IH]; intros i L;
    cbn [R.allocate_loop]; [done|].
  pose proof (allocate_item_scheduling k i req L) as Hitem.
  destruct (R.allocate_item k i req L) as [L' [[]|e|]]; cbn [fst snd] in *;
    [|done..].
  by rewrite IH.
Qed.

(** C10.  Seen through [erase_ledger], which keeps pid, vectors and resource
    counts, the two copies of Banker's algorithm return the same result on
    every ledger, and the two copies of the single request return the same
    result and leave the same ledger behind, for every process id and request
    vector; the fields only the resource-allocation module has are not
    written. *)
Theorem duplicated_implementations_agree L process_id request :
  R.bankers_algorithm L.1 L.2
  = D.bankers_algorithm (erase_ledger L).1 (erase_ledger L).2 ∧
  (let run := R.simulate_request_bankers L process_id request in
   D.simulate_request (erase_ledger L) process_id request
   = (erase_ledger run.1, run.2) ∧
   scheduling_fields <$> run.1.1 = scheduling_fields <$> L.1).
Proof.
  split; [apply bankers_algorithm_erase|].
  split; [apply simulate_request_erase|].
  pose proof (simulate_request_bankers_cases L process_id request) as Hc.
  cbn zeta in Hc.
  destruct (R.simulate_request_bankers L process_id request) as [L' [a|e|]];
    cbn [fst snd] in *; [|by subst..].
  destruct (granted a); [|by destruct Hc as [-> _]].
  destruct Hc as (k & p & _ & Hloop).
  pose proof (allocate_loop_scheduling k 0 request L) as Hs.
  by rewrite Hloop in Hs.
Qed.

(** ** Scenario B *)

(** C5.  Process 1 is the first process of the list, whatever the pids are.
    In the state of scenario A the processes hold [7, 2, 5] of the totals
    [10, 5, 7], so [3, 3, 2] is available.  The request [1, 0, 2] of the
    first process (maximum [7, 5, 3], holding [0, 1, 0]) is within its need
    and within what is available, but granting it would leave an unsafe
    state: it is denied as such and the ledger is left as it was.  With an
    availability that falls short of the request in some component, the same
    request is denied for insufficient resources. *)
Theorem scenario_B_denied p1 p2 p3 p4 p5 :
  let processes := scenario_A_named p1 p2 p3 p4 p5 in
  held processes = [7; 2; 5] ∧
  zip_with Z.sub (D.total_instances <$> scenario_A_resources) (held processes)
  = D.available_instances <$> scenario_A_resources ∧
  D.available_instances <$> scenario_A_resources = [3; 3; 2] ∧
  D.simulate_request (processes, scenario_A_resources) p1 [1; 0; 2]
  = ((processes, scenario_A_resources),
     Ret (mkAdmission false "Request would lead to unsafe state")) ∧
  ∀ a0 a1 a2,
    a0 < 1 ∨ a1 < 0 ∨ a2 < 2 →
    D.simulate_request (processes, scenario_A_available a0 a1 a2) p1 [1; 0; 2]
    = ((processes, scenario_A_available a0 a1 a2),
       Ret (mkAdmission false "Request exceeds available resources")).
Proof.
  intros processes.
  assert (Hfind : list_find (λ p, D.pid p = p1) processes
                  = Some (0%nat, D.new_process p1 [7; 5; 3] (Some [0; 1; 0]))).
  { apply list_find_Some. split_and!; [done..|]. intros j y _ Hj. lia. }
  split_and!; [done..| |].
  - unfold D.simulate_request. rewrite Hfind. reflexivity.
  - intros a0 a1 a2 Hshort. unfold D.simulate_request. rewrite Hfind.
    cbn [D.need_resources D.new_process]. 
    replace (any_gt [1; 0; 2] _) with false by reflexivity.
    replace (any_gt [1; 0; 2] (D.available_instances <$> _)) with true; [done|].
    symmetry. unfold any_gt, scenario_A_available. simpl.
    repeat case_bool_decide; try done; lia.
Qed.

(** With the pids P0 to P4 of the textbook example, the process named P1 is
    the second of the list; its request [1, 0, 2] is granted, and leaves
    [2, 3, 0] available. *)
Example scenario_B_second_process :
  (D.simulate_request scenario_A "P1" [1; 0; 2]).2
  = Ret (mkAdmission true "Request granted") ∧
  D.available_instances <$> (D.simulate_request scenario_A "P1" [1; 0; 2]).1.2
  = [2; 3; 0] ∧
  scenario_A = (scenario_A_named "P0" "P1" "P2" "P3" "P4", scenario_A_resources).
Proof. by vm_compute. Qed.

(** ** First come first served *)

(** C6 at the failing input: "late" arrived at time 5 and "early" at time 0,
    one instance is free and the batch lists the request of "late" first.
    The loop runs over the batch as given, so "late" is served and "early"
    is refused, although "early" arrived first. *)
Theorem fcfs_serves_in_batch_order :
  (R.fcfs_allocation two_arrivals [("late", [1]); ("early", [1])]).2
  = Ret [ mkAdmission true "Request by late granted";
          mkAdmission false "Request by early denied - insufficient resources" ] ∧
  R.pid ∘ snd <$> R.sorted_by_arrival two_arrivals.1 = ["early"; "late"].
Proof. by vm_compute. Qed.

(** ** Round robin *)

Lemma list_find_pid_elem_of (processes : list R.Process) pid_ :
  pid_ ∈ R.pid <$> processes →
  ∃ k p, list_find (λ p, R.pid p = pid_) processes = Some (k, p).
Proof.
  intros (p & Hp & Hin)%list_elem_of_fmap.
  destruct (list_find_elem_of (λ p, R.pid p = pid_) processes p)
    as [[k q] Hq]; [done..|]. by exists k, q.
Qed.

(** A pass over a stuck request changes nothing but the position of the
    request in the queue. *)
Lemma round_robin_stuck_pass fuel time_quantum rq queue L results :
  stuck L rq →
  ∃ denial,
    R.round_robin_while (S fuel) time_quantum (rq :: queue) L results
    = R.round_robin_while fuel time_quantum (queue ++ [rq]) L
        (results ++ [denial]).
Proof.
  destruct rq as [pid_ request]. intros [Hknown Hle]; simpl in *.
  destruct (list_find_pid_elem_of _ _ Hknown) as (k & p & ->).
  rewrite Hle. by eexists.
Qed.

Lemma round_robin_while_stuck fuel time_quantum queue L results :
  queue ≠ [] →
  Forall (stuck L) queue →
  R.round_robin_while fuel time_quantum queue L results = (L, Fuel).
Proof.
  revert queue results.
  induction fuel as [|fuel IH]; intros requests results Hne Hall.
  - destruct requests as [|[pid_ request] queue]; done.
  - destruct requests as [|rq queue]; [done|].
    apply Forall_cons in Hall as [Hrq Hqueue].
    destruct (round_robin_stuck_pass fuel time_quantum rq queue L results Hrq)
      as [denial ->].
    apply IH; [by destruct queue|].
    apply Forall_app. split; [done|by constructor].
Qed.

Lemma exhausted_stuck : Forall (stuck exhausted) [("A", [1])].
Proof.
  constructor; [|constructor]. split; [|done]. by apply list_elem_of_here.
Qed.

(** C7, amended.  [round_robin_allocation] has no bound on its passes and no
    starvation report.  When the batch is not empty and every request in it
    is stuck (its process exists and it asks for more than is available),
    each pass re-enqueues its request and leaves the ledger as it was, so the
    loop is still running after any number of passes. *)
Theorem round_robin_never_returns fuel L requests time_quantum :
  requests ≠ [] →
  Forall (stuck L) requests →
  R.round_robin_allocation fuel L requests time_quantum = (L, Fuel).
Proof. apply round_robin_while_stuck. Qed.

Lemma round_robin_never_returns_exhausted :
  [("A", [1])] ≠ [] ∧ Forall (stuck exhausted) [("A", [1])] ∧
  R.round_robin_allocation 1000 exhausted [("A", [1])] 1 = (exhausted, Fuel).
Proof.
  assert (Hne : [("A", [1])] ≠ @nil R.Request) by done.
  pose proof exhausted_stuck as Hall.
  split_and!; [done..|].
  exact (round_robin_never_returns 1000 exhausted [("A", [1])] 1 Hne Hall).
Defined.

(** The claim of C7 fails on the ledger with nothing free: no number of
    passes is enough for the loop to return or to raise. *)
Lemma round_robin_does_not_terminate :
  ¬ ∃ fuel, (R.round_robin_allocation fuel exhausted [("A", [1])] 1).2 ≠ Fuel.
Proof.
  intros [fuel Hfuel]. apply Hfuel. unfold R.round_robin_allocation.
  by rewrite round_robin_while_stuck; [|done|apply exhausted_stuck].
Qed.

(** ** Moves of the allocation loops *)

Lemma allocate_item_Ret k i amount L L' :
  R.allocate_item k i amount L = (L', Ret ()) ↔ moves k i amount L L'.
Proof.
  destruct L as [ps rs]. unfold R.allocate_item. split.
  - destruct (ps !! k) as [p|] eqn:Hp; [|done].
    destruct (R.allocated_resources p !! i) as [a|] eqn:Ha; [|done].
    cbn [R.need_resources R.set_allocated].
    destruct (R.need_resources p !! i) as [n|] eqn:Hn; [|done].
    destruct (rs !! i) as [r|] eqn:Hr; [|done].
    intros [= <-]. exact (moves_intro k i amount ps rs p a n r Hp Ha Hn Hr).
  - inversion 1 as [? ? p a n r Hp Ha Hn Hr]; subst.
    rewrite Hp, Ha. cbn [R.need_resources R.set_allocated]. by rewrite Hn, Hr.
Qed.

Lemma allocate_item_total k i amount L :
  shaped L → (k < length L.1)%nat → (i < length L.2)%nat →
  ∃ L', R.allocate_item k i amount L = (L', Ret ()).
Proof.
  destruct L as [ps rs]. intros Hshape Hk Hi. cbn [fst snd] in *.
  destruct (lookup_lt_is_Some_2 ps k Hk) as [p Hp].
  destruct (Hshape k p Hp) as (_ & Hla & Hln). cbn [fst snd] in *.
  destruct (lookup_lt_is_Some_2 (R.allocated_resources p) i) as [a Ha]; [lia|].
  destruct (lookup_lt_is_Some_2 (R.need_resources p) i) as [n Hn]; [lia|].
  destruct (lookup_lt_is_Some_2 rs i Hi) as [r Hr].
  eexists. apply allocate_item_Ret.
  exact (moves_intro k i amount ps rs p a n r Hp Ha Hn Hr).
Qed.

Lemma moves_length k i amount L L' :
  moves k i amount L L' →
  length L'.1 = length L.1 ∧ length L'.2 = length L.2.
Proof. inversion 1; subst; cbn [fst snd]. by rewrite !length_insert. Qed.

Lemma moves_pids k i amount L L' :
  moves k i amount L L' → R.pid <$> L'.1 = R.pid <$> L.1.
Proof.
  inversion 1 as [ps rs p a n r Hp]; subst; cbn [fst snd].
  rewrite list_fmap_insert. apply list_insert_id.
  by rewrite list_lookup_fmap, Hp.
Qed.

Lemma shaped_stable : stable shaped.
Proof.
  intros k i amount L L' Hm Hshape. inversion Hm as [ps rs p a n r Hp]; subst.
  intros k' p' Hp'. cbn [fst snd] in *. rewrite length_insert.
  apply list_lookup_insert_Some in Hp' as [(-> & <- & _)|[_ Hp']].
  - cbn. rewrite !length_insert. by apply (Hshape k' p).
  - by apply (Hshape k' p').
Qed.

Lemma need_consistent_stable : stable need_consistent.
Proof.
  intros k i amount L L' Hm Hcons. inversion Hm as [ps rs p a n r Hp Ha Hn]; subst.
  intros k' p' j m' a' n' Hp'. cbn [fst snd] in *.
  apply list_lookup_insert_Some in Hp' as [(-> & <- & _)|[_ Hp']].
  - cbn. intros Hm' Ha' Hn'.
    destruct (decide (i = j)) as [->|Hne].
    + rewrite list_lookup_insert_eq in Ha' by (by eapply lookup_lt_Some).
      rewrite list_lookup_insert_eq in Hn' by (by eapply lookup_lt_Some).
      simplify_eq. pose proof (Hcons k' p j m' a n Hp Hm' Ha Hn). lia.
    + rewrite list_lookup_insert_ne in Ha', Hn' by done.
      by apply (Hcons k' p j).
  - by apply (Hcons k' p' j).
Qed.

Lemma total_allocated_insert i k p p' processes :
  processes !! k = Some p →
  total_allocated i (<[k := p']> processes)
  = total_allocated i processes
    - default 0 (R.allocated_resources p !! i)
    + default 0 (R.allocated_resources p' !! i).
Proof.
  unfold total_allocated. revert k.
  induction processes as [|q ps IH]; intros [|k] Hk; simplify_eq/=; [lia|].
  rewrite (IH k Hk). lia.
Qed.

Lemma conserved_stable : stable conserved.
Proof.
  intros k i amount L L' Hm Hcons.
  inversion Hm as [ps rs p a n r Hp Ha Hn Hr]; subst.
  intros j r' Hr'. cbn [fst snd] in *.
  rewrite (total_allocated_insert j k p) by done. cbn.
  apply list_lookup_insert_Some in Hr' as [(-> & <- & _)|[Hne Hr']].
  - rewrite Ha. rewrite list_lookup_insert_eq by (by eapply lookup_lt_Some).
    cbn. pose proof (Hcons j r Hr) as Hc. cbn [fst snd] in Hc. lia.
  - rewrite list_lookup_insert_ne by done.
    pose proof (Hcons j r' Hr') as Hc. cbn [fst snd] in Hc. lia.
Qed.

(** The properties that the loops carry along with any stable one. *)
Lemma allocate_loop_Ret P k i request L L' :
  stable P →
  R.allocate_loop k i request L = (L', Ret ()) →
  P L → P L'.
Proof.
  intros HP. revert i L.
  induction request as [|req rest IH]; intros i L; cbn [R.allocate_loop].
  - by intros [= <-].
  - destruct (R.allocate_item k i req L) as [L1 [[]|e|]] eqn:Hitem; [|done..].
    intros Hloop HL. apply (IH _ _ Hloop).
    apply allocate_item_Ret in Hitem. by eapply HP.
Qed.

Lemma lengths_stable n m :
  stable (λ L, length L.1 = n ∧ length L.2 = m).
Proof.
  intros k i amount L L' Hm [<- <-]. by apply moves_length in Hm.
Qed.

Lemma pids_stable ids : stable (λ L, R.pid <$> L.1 = ids).
Proof. intros k i amount L L' Hm <-. by eapply moves_pids. Qed.

Lemma stable_and P Q : stable P → stable Q → stable (λ L, P L ∧ Q L).
Proof.
  intros HP HQ k i amount L L' Hm [HPL HQL].
  split; [by eapply HP|by eapply HQ].
Qed.

Lemma allocate_loop_total k i request L :
  shaped L → (k < length L.1)%nat → (i + length request ≤ length L.2)%nat →
  ∃ L', R.allocate_loop k i request L = (L', Ret ()).
Proof.
  revert i L. induction request as [|req rest IH]; intros i L Hshape Hk Hi;
    cbn [R.allocate_loop]; [by eexists|].
  simpl in Hi.
  destruct (allocate_item_total k i req L) as [L1 Hitem]; [done|done|lia|].
  rewrite Hitem. apply allocate_item_Ret in Hitem.
  destruct (moves_length _ _ _ _ _ Hitem) as [Hl1 Hl2].
  apply IH; [by eapply shaped_stable|lia|lia].
Qed.

(** ** The batch policies *)

Lemma elem_of_insert_by_arrival x y sorted :
  y ∈ R.insert_by_arrival x sorted ↔ y = x ∨ y ∈ sorted.
Proof.
  induction sorted as [|z sorted IH]; simpl.
  - rewrite list_elem_of_singleton, elem_of_nil. tauto.
  - case_bool_decide; [by rewrite !elem_of_cons|].
    rewrite !elem_of_cons, IH. tauto.
Qed.

Lemma elem_of_sorted_by_arrival k p processes :
  (k, p) ∈ R.sorted_by_arrival processes → processes !! k = Some p.
Proof.
  unfold R.sorted_by_arrival.
  assert (Hfold : ∀ l, (k, p) ∈ foldr R.insert_by_arrival [] l → (k, p) ∈ l).
  { induction l as [|x l IH]; simpl; [done|].
    rewrite elem_of_insert_by_arrival, elem_of_cons. tauto. }
  intros Hin%Hfold.
  apply (elem_of_lookup_imap (λ i p, (i, p))) in Hin as (i & q & Heq & Hq).
  by simplify_eq.
Qed.

Lemma find_sorted_lookup processes pid_ k :
  R.find_sorted (R.sorted_by_arrival processes) pid_ = Some k →
  ∃ p, processes !! k = Some p ∧ R.pid p = pid_.
Proof.
  unfold R.find_sorted.
  destruct (list_find _ _) as [[j [k' p]]|] eqn:Hfind; [|done].
  intros [= ->]. apply list_find_Some in Hfind as (Hj & Hpid & _).
  exists p. split; [|done].
  apply elem_of_sorted_by_arrival. by eapply list_elem_of_lookup_2.
Qed.

Lemma fcfs_loop_Ret P sorted requests L results L' results' :
  stable P →
  R.fcfs_loop sorted requests L results = (L', Ret results') →
  P L →
  P L' ∧ length results' = (length results + length requests)%nat.
Proof.
  intros HP. revert L results.
  induction requests as [|[pid_ request] rest IH]; intros L results;
    cbn [R.fcfs_loop].
  - intros [= <- <-] HL. split; [done|simpl; lia].
  - destruct (R.find_sorted sorted pid_) as [k|].
    2: { intros Hloop HL. destruct (IH _ _ Hloop HL) as [? ->].
         rewrite length_app. simpl. split; [done|lia]. }
    destruct (all_le request _).
    2: { intros Hloop HL. destruct (IH _ _ Hloop HL) as [? ->].
         rewrite length_app. simpl. split; [done|lia]. }
    destruct (R.allocate_loop k 0 request L) as [L1 [[]|e|]] eqn:Halloc;
      [|done..].
    intros Hloop HL.
    destruct (IH _ _ Hloop) as [? ->]; [by eapply allocate_loop_Ret|].
    rewrite length_app. simpl. split; [done|lia].
Qed.

Lemma fcfs_loop_total sorted requests L results :
  shaped L →
  (∀ pid_ k, R.find_sorted sorted pid_ = Some k → (k < length L.1)%nat) →
  Forall (λ rq : R.Request, (length rq.2 ≤ length L.2)%nat) requests →
  ∃ L' results', R.fcfs_loop sorted requests L results = (L', Ret results').
Proof.
  revert L results.
  induction requests as [|[pid_ request] rest IH];
    intros L results Hshape Hsorted Hlen; cbn [R.fcfs_loop]; [by eauto|].
  apply Forall_cons in Hlen as [Hreq Hrest]. cbn [snd] in Hreq.
  destruct (R.find_sorted sorted pid_) as [k|] eqn:Hfind; [|by apply IH].
  destruct (all_le request _); [|by apply IH].
  destruct (allocate_loop_total k 0 request L) as [L1 Halloc];
    [done|by eapply Hsorted|simpl; lia|].
  rewrite Halloc.
  pose proof (allocate_loop_Ret _ _ _ _ _ _
    (stable_and _ _ shaped_stable (lengths_stable (length L.1) (length L.2)))
    Halloc (conj Hshape (conj eq_refl eq_refl))) as (Hshape1 & Hl1 & Hl2).
  apply IH; [done|by rewrite Hl1|by rewrite Hl2].
Qed.

Lemma list_find_pid_None (processes : list R.Process) pid_ :
  list_find (λ p, R.pid p = pid_) processes = None ↔
  pid_ ∉ R.pid <$> processes.
Proof.
  rewrite list_find_None, Forall_forall, list_elem_of_fmap. split.
  - intros Hall (p & -> & Hin). by apply (Hall p).
  - intros Hnot p Hin Hp. apply Hnot. by exists p.
Qed.

Lemma list_find_pid_lt (processes : list R.Process) pid_ k p :
  list_find (λ p, R.pid p = pid_) processes = Some (k, p) →
  (k < length processes)%nat.
Proof. intros (Hk & _)%list_find_Some. by eapply lookup_lt_Some. Qed.

Lemma length_priority_requests processes requests :
  length (R.priority_requests processes requests)
  = length (known_requests processes requests).
Proof.
  unfold known_requests.
  induction requests as [|[pid_ request] rest IH]; simpl; [done|].
  destruct (list_find _ processes) as [[k p]|] eqn:Hfind.
  - rewrite filter_cons_True; [simpl; by rewrite IH|].
    apply list_find_Some in Hfind as (Hk & <- & _). simpl.
    apply list_elem_of_fmap. exists p. split; [done|].
    by eapply list_elem_of_lookup_2.
  - rewrite filter_cons_False; [done|]. simpl.
    by apply list_find_pid_None.
Qed.

Lemma Forall_priority_requests processes requests m :
  Forall (λ rq : R.Request, (length rq.2 ≤ m)%nat) requests →
  Forall (λ t : R.PriorityRequest,
            t.1.2 ∈ R.pid <$> processes ∧ (length t.2 ≤ m)%nat)
         (R.priority_requests processes requests).
Proof.
  induction 1 as [|[pid_ request] rest Hreq Hrest IH]; simpl; [constructor|].
  destruct (list_find _ processes) as [[k p]|] eqn:Hfind; [|done].
  constructor; [|done]. split; [|done]. simpl.
  destruct (decide (pid_ ∈ R.pid <$> processes)) as [|Hnot]; [done|].
  apply list_find_pid_None in Hnot. congruence.
Qed.

Lemma sort_desc_Forall (P : R.PriorityRequest → Prop) l :
  Forall P l → Forall P (R.sort_desc l).
Proof.
  assert (Hins : ∀ x s, P x → Forall P s → Forall P (R.insert_desc x s)).
  { intros x s Hx. induction 1 as [|y s Hy Hs IH]; simpl.
    - by repeat constructor.
    - destruct (R.tuple_lt x y); by repeat constructor. }
  induction 1; simpl; [constructor|by apply Hins].
Qed.

Lemma length_sort_desc l : length (R.sort_desc l) = length l.
Proof.
  assert (Hins : ∀ x s, length (R.insert_desc x s) = S (length s)).
  { intros x s. induction s as [|y s IH]; simpl; [done|].
    destruct (R.tuple_lt x y); simpl; by rewrite ?IH. }
  induction l as [|x l IH]; simpl; [done|]. by rewrite Hins, IH.
Qed.

Lemma priority_loop_Ret P queue L results L' results' :
  stable P →
  R.priority_loop queue L results = (L', Ret results') →
  P L →
  P L' ∧ length results' = (length results + length queue)%nat.
Proof.
  intros HP. revert L results.
  induction queue as [|[[prio pid_] request] rest IH]; intros L results;
    cbn [R.priority_loop].
  - intros [= <- <-] HL. split; [done|simpl; lia].
  - destruct (list_find _ L.1) as [[k p]|]; [|done].
    destruct (all_le request _).
    2: { intros Hloop HL. destruct (IH _ _ Hloop HL) as [? ->].
         rewrite length_app. simpl. split; [done|lia]. }
    destruct (R.allocate_loop k 0 request L) as [L1 [[]|e|]] eqn:Halloc;
      [|done..].
    intros Hloop HL.
    destruct (IH _ _ Hloop) as [? ->]; [by eapply allocate_loop_Ret|].
    rewrite length_app. simpl. split; [done|lia].
Qed.

Lemma priority_loop_total queue L results :
  shaped L →
  Forall (λ t : R.PriorityRequest,
            t.1.2 ∈ R.pid <$> L.1 ∧ (length t.2 ≤ length L.2)%nat) queue →
  ∃ L' results', R.priority_loop queue L results = (L', Ret results').
Proof.
  revert L results.
  induction queue as [|[[prio pid_] request] rest IH];
    intros L results Hshape Hq; cbn [R.priority_loop]; [by eauto|].
  apply Forall_cons in Hq as [[Hknown Hreq] Hrest]. cbn [fst snd] in *.
  destruct (list_find_pid_elem_of _ _ Hknown) as (k & p & Hfind).
  rewrite Hfind.
  destruct (all_le request _); [|by apply IH].
  destruct (allocate_loop_total k 0 request L) as [L1 Halloc];
    [done|by eapply list_find_pid_lt|simpl; lia|].
  rewrite Halloc.
  pose proof (allocate_loop_Ret _ _ _ _ _ _
    (stable_and _ _ shaped_stable
       (stable_and _ _ (lengths_stable (length L.1) (length L.2))
          (pids_stable (R.pid <$> L.1))))
    Halloc (conj Hshape (conj (conj eq_refl eq_refl) eq_refl)))
    as (Hshape1 & (Hl1 & Hl2) & Hpids).
  apply IH; [done|]. by rewrite Hpids, Hl2.
Qed.

Lemma round_robin_while_Ret P fuel time_quantum queue L results L' results' :
  stable P →
  R.round_robin_while fuel time_quantum queue L results = (L', Ret results') →
  P L →
  P L' ∧ (length results + length queue ≤ length results')%nat.
Proof.
  intros HP. revert queue L results.
  induction fuel as [|fuel IH]; intros [|[pid_ request] queue] L results;
    cbn [R.round_robin_while]; try done.
  - intros [= <- <-] HL. split; [done|simpl; lia].
  - intros [= <- <-] HL. split; [done|simpl; lia].
  - destruct (list_find _ L.1) as [[k p]|].
    2: { intros Hloop HL. destruct (IH _ _ _ Hloop HL) as [? Hlen].
         rewrite length_app in Hlen. simpl in *. split; [done|lia]. }
    destruct (all_le request _).
    2: { intros Hloop HL. destruct (IH _ _ _ Hloop HL) as [? Hlen].
         rewrite !length_app in Hlen. simpl in *. split; [done|lia]. }
    destruct (R.list_max request) as [largest|e|]; [|done..].
    destruct (R.allocate_loop k 0 _ L) as [L1 [[]|e|]] eqn:Halloc; [|done..].
    destruct (L1.1 !! k) as [q|]; [|done].
    assert (HL1 : P L → P L1) by (by eapply allocate_loop_Ret).
    destruct (forallb _ _); intros Hloop HL;
      destruct (IH _ _ _ Hloop (HL1 HL)) as [? Hlen];
      rewrite !length_app in Hlen; simpl in *; (split; [done|lia]).
Qed.

Lemma release_item_allocate_item k i rel L :
  R.release_item k i rel L = R.allocate_item k i (- rel) L.
Proof.
  destruct L as [ps rs]. unfold R.release_item, R.allocate_item.
  destruct (ps !! k) as [p|]; [|done].
  destruct (R.allocated_resources p !! i) as [a|]; [|done].
  replace (a + - rel) with (a - rel) by lia.
  destruct (R.need_resources _ !! i) as [n|]; [|done].
  replace (n - - rel) with (n + rel) by lia.
  destruct (rs !! i) as [r|]; [|done].
  by replace (R.available_instances r - - rel)
    with (R.available_instances r + rel) by lia.
Qed.

Lemma release_loop_Ret P k i release L L' :
  stable P →
  R.release_loop k i release L = (L', Ret ()) →
  P L → P L'.
Proof.
  intros HP. revert i L.
  induction release as [|rel rest IH]; intros i L; cbn [R.release_loop].
  - by intros [= <-].
  - rewrite release_item_allocate_item.
    destruct (R.allocate_item k i (- rel) L) as [L1 [[]|e|]] eqn:Hitem;
      [|done..].
    intros Hloop HL. apply (IH _ _ Hloop).
    apply allocate_item_Ret in Hitem. by eapply HP.
Qed.

(** Whatever no move breaks, no returning run of the allocation-loop
    operations breaks. *)
Lemma operations_keep_stable P L :
  stable P → P L →
  (∀ requests L' results,
     R.fcfs_allocation L requests = (L', Ret results) → P L') ∧
  (∀ requests L' results,
     R.priority_allocation L requests = (L', Ret results) → P L') ∧
  (∀ fuel requests time_quantum L' results,
     R.round_robin_allocation fuel L requests time_quantum = (L', Ret results) →
     P L') ∧
  (∀ process_id request, P (R.simulate_request_bankers L process_id request).1) ∧
  (∀ process_id release L' res,
     R.deallocate_resources L process_id release = (L', Ret res) → P L').
Proof.
  intros HP HL. split_and!.
  - intros requests L' results Hrun.
    by destruct (fcfs_loop_Ret P _ _ _ _ _ _ HP Hrun HL).
  - intros requests L' results Hrun.
    by destruct (priority_loop_Ret P _ _ _ _ _ HP Hrun HL).
  - intros fuel requests time_quantum L' results Hrun.
    by destruct (round_robin_while_Ret P _ _ _ _ _ _ _ HP Hrun HL).
  - intros process_id request.
    pose proof (simulate_request_bankers_cases L process_id request) as Hc.
    cbn zeta in Hc.
    destruct (R.simulate_request_bankers L process_id request) as [L' [a|e|]];
      cbn [fst snd] in *; [|by subst..].
    destruct (granted a); [|by destruct Hc as [-> _]].
    destruct Hc as (k & p & _ & Hloop). by eapply allocate_loop_Ret.
  - intros process_id release L' res. unfold R.deallocate_resources.
    destruct (list_find _ L.1) as [[k p]|]; [|by intros [= <- _]].
    destruct (any_gt release _); [by intros [= <- _]|].
    destruct (R.release_loop k 0 release L) as [L1 [[]|e|]] eqn:Hloop;
      [|done..].
    intros [= <- _]. by eapply release_loop_Ret.
Qed.

(** ** One result per request *)

(** The claim of C8 fails for two of its three policies: the priority policy
    returns no record for a request whose process is unknown, and round robin
    returns one record for every pass over a request. *)
Lemma batch_result_lengths_differ :
  (∃ L' results,
     R.priority_allocation modest_claim [("ghost", [1])] = (L', Ret results) ∧
     length results ≠ length [("ghost", [1])]) ∧
  (∃ L' results,
     R.round_robin_allocation 3 two_passes [("A", [2])] 1 = (L', Ret results) ∧
     length results ≠ length [("A", [2])]).
Proof. split; do 2 eexists; (split; [by vm_compute|done]). Qed.

(** C8, amended.  On a ledger whose vectors have one entry per resource and
    for a batch whose request vectors have at most that many entries:
    [fcfs_allocation] returns exactly one record per request, unknown
    process ids included; [priority_allocation] returns exactly one record
    per request of a known process and none for the others; and whenever
    [round_robin_allocation] returns, it returns at least one record per
    request, one for every pass over it. *)
Theorem batch_result_shape L requests :
  shaped L →
  Forall (λ rq : R.Request, (length rq.2 ≤ length L.2)%nat) requests →
  (∃ L' results,
     R.fcfs_allocation L requests = (L', Ret results) ∧
     length results = length requests) ∧
  (∃ L' results,
     R.priority_allocation L requests = (L', Ret results) ∧
     length results = length (known_requests L.1 requests)) ∧
  (∀ fuel time_quantum L' results,
     R.round_robin_allocation fuel L requests time_quantum = (L', Ret results) →
     (length requests ≤ length results)%nat).
Proof.
  intros Hshape Hlen. split_and!.
  - destruct (fcfs_loop_total (R.sorted_by_arrival L.1) requests L [])
      as (L' & results & Hrun); [done| |done|].
    { intros pid_ k (p & Hp & _)%find_sorted_lookup. by eapply lookup_lt_Some. }
    exists L', results. split; [done|].
    by destruct (fcfs_loop_Ret (λ _, True) _ _ _ _ _ _ (λ _ _ _ _ _ _ _, I) Hrun I).
  - destruct (priority_loop_total
                (R.sort_desc (R.priority_requests L.1 requests)) L [])
      as (L' & results & Hrun); [done| |].
    { by apply sort_desc_Forall, Forall_priority_requests. }
    exists L', results. split; [done|].
    destruct (priority_loop_Ret (λ _, True) _ _ _ _ _ (λ _ _ _ _ _ _ _, I) Hrun I)
      as [_ ->].
    by rewrite length_sort_desc, length_priority_requests.
  - intros fuel time_quantum L' results Hrun.
    by destruct (round_robin_while_Ret (λ _, True) _ _ _ _ _ _ _
                   (λ _ _ _ _ _ _ _, I) Hrun I).
Qed.

Lemma modest_claim_shaped : shaped modest_claim.
Proof. intros [|k] p Hp; cbv in Hp; by simplify_eq. Qed.

Lemma batch_result_shape_modest_claim :
  shaped modest_claim ∧
  Forall (λ rq : R.Request, (length rq.2 ≤ length modest_claim.2)%nat)
    [("A", [1]); ("ghost", [1])] ∧
  (∃ L' results,
     R.fcfs_allocation modest_claim [("A", [1]); ("ghost", [1])]
     = (L', Ret results) ∧
     length results = length [("A", [1]); ("ghost", [1])]).
Proof.
  pose proof modest_claim_shaped as Hshape.
  assert (Hlen : Forall (λ rq : R.Request,
                           (length rq.2 ≤ length modest_claim.2)%nat)
                   [("A", [1]); ("ghost", [1])]).
  { repeat constructor. }
  split_and!; [done..|].
  exact (proj1 (batch_result_shape modest_claim [("A", [1]); ("ghost", [1])]
                  Hshape Hlen)).
Defined.

(** ** Conservation *)

Lemma holding_two_conserved : conserved holding_two.
Proof. intros [|i] r Hr; cbv in Hr; by simplify_eq. Qed.

(** C3 at the failing input: one process holds two of five instances and
    three are free, so conservation holds.  [fair_share_allocation]
    overwrites the allocation with the share of five but subtracts the share
    from the three that were free: the process then holds five, minus two
    are available, and conservation is broken. *)
Theorem fair_share_breaks_conservation :
  conserved holding_two ∧
  (∃ res, (R.fair_share_allocation holding_two).2 = Ret res) ∧
  R.allocated_resources <$> (R.fair_share_allocation holding_two).1.1 = [[5]] ∧
  R.available_instances <$> (R.fair_share_allocation holding_two).1.2 = [-2] ∧
  ¬ conserved (R.fair_share_allocation holding_two).1.
Proof.
  split_and!; [apply holding_two_conserved|by eexists|done|done|].
  intros Hc. by specialize (Hc 0%nat _ eq_refl).
Qed.

(** The operations built on the allocation loop do conserve: every run of
    them that returns leaves [available[i] + Σ allocated[i]] equal to
    [total_instances[i]] when it was so before. *)
Lemma allocation_loops_conserve L :
  conserved L →
  (∀ requests L' results,
     R.fcfs_allocation L requests = (L', Ret results) → conserved L') ∧
  (∀ requests L' results,
     R.priority_allocation L requests = (L', Ret results) → conserved L') ∧
  (∀ fuel requests time_quantum L' results,
     R.round_robin_allocation fuel L requests time_quantum = (L', Ret results) →
     conserved L') ∧
  (∀ process_id request,
     conserved (R.simulate_request_bankers L process_id request).1) ∧
  (∀ process_id release L' res,
     R.deallocate_resources L process_id release = (L', Ret res) →
     conserved L').
Proof. apply operations_keep_stable, conserved_stable. Qed.

(** ** Need non-negativity *)

Lemma any_gt_false request xs i q x :
  any_gt request xs = false →
  request !! i = Some q → xs !! i = Some x → q ≤ x.
Proof.
  unfold any_gt. revert xs i.
  induction request as [|q0 rest IH]; intros [|x0 xs] [|i] Hany Hq Hx;
    simplify_eq/=.
  - apply orb_false_elim in Hany as [Hle _].
    apply bool_decide_eq_false in Hle. lia.
  - apply orb_false_elim in Hany as [_ Hrest]. by eapply IH.
Qed.

Lemma allocate_loop_nonneg k i request L L' p :
  R.allocate_loop k i request L = (L', Ret ()) →
  L.1 !! k = Some p →
  (∀ j q n, request !! j = Some q →
            R.need_resources p !! (i + j)%nat = Some n → q ≤ n) →
  need_nonneg L → need_nonneg L'.
Proof.
  revert i L p.
  induction request as [|req rest IH]; intros i L p; cbn [R.allocate_loop].
  - by intros [= <-].
  - destruct (R.allocate_item k i req L) as [L1 [[]|e|]] eqn:Hitem; [|done..].
    apply allocate_item_Ret in Hitem. intros Hloop Hp Hreq Hnn.
    inversion Hitem as [ps rs p0 a n r Hp0 Ha Hn Hr]; subst.
    cbn [fst snd] in *. assert (p0 = p) as -> by congruence. clear Hp0.
    assert (Hi : (i < length (R.need_resources p))%nat)
      by (by eapply lookup_lt_Some).
    eapply (IH _ _ _ Hloop).
    + cbn [fst]. apply list_lookup_insert_eq. by eapply lookup_lt_Some.
    + intros j q n' Hq. cbn [R.need_resources].
      rewrite list_lookup_insert_ne by lia.
      replace (S i + j)%nat with (i + S j)%nat by lia.
      by apply Hreq.
    + intros k' p' j n' Hp'. cbn [fst] in Hp'.
      apply list_lookup_insert_Some in Hp' as [(-> & <- & _)|[_ Hp']].
      * cbn [R.need_resources]. intros Hn'.
        apply list_lookup_insert_Some in Hn' as [(-> & <- & _)|[_ Hn']].
        -- specialize (Hreq 0%nat req n eq_refl).
           rewrite Nat.add_0_r in Hreq. specialize (Hreq Hn). lia.
        -- by eapply (Hnn k' p).
      * by eapply (Hnn k' p').
Qed.

Lemma simulate_request_bankers_need_invariant L process_id request :
  need_invariant L →
  need_invariant (R.simulate_request_bankers L process_id request).1.
Proof.
  intros (Hshape & Hcons & Hnn).
  pose proof (simulate_request_bankers_cases L process_id request) as Hc.
  cbn zeta in Hc.
  assert (Hguard :
    ∀ k p, list_find (λ p, R.pid p = process_id) L.1 = Some (k, p) →
           (R.simulate_request_bankers L process_id request).2
           = Ret (mkAdmission true "Request granted") →
           any_gt request (R.need_resources p) = false).
  { intros k p Hfind. destruct L as [ps rs].
    unfold R.simulate_request_bankers. cbn [fst] in Hfind. rewrite Hfind.
    by destruct (any_gt request (R.need_resources p)). }
  destruct (R.simulate_request_bankers L process_id request) as [L' [a|e|]]
    eqn:Hrun; cbn [fst snd] in *; [|by subst..].
  destruct a as [[] msg]; cbn [granted] in Hc; [|by destruct Hc as [-> _]].
  destruct Hc as (k & p & Hfind & Hloop).
  assert (msg = "Request granted") as ->.
  { clear -Hrun. destruct L as [ps rs]. unfold R.simulate_request_bankers in Hrun.
    repeat (case_match; simplify_eq; try done). }
  specialize (Hguard k p Hfind eq_refl).
  split_and!.
  - by eapply allocate_loop_Ret; [apply shaped_stable|..].
  - by eapply allocate_loop_Ret; [apply need_consistent_stable|..].
  - apply list_find_Some in Hfind as (Hp & _).
    eapply allocate_loop_nonneg; [done..| |done].
    intros j q n Hq Hn. by eapply any_gt_false.
Qed.

Lemma modest_claim_need_invariant : need_invariant modest_claim.
Proof.
  split_and!; [apply modest_claim_shaped|..].
  - intros [|k] p [|i] m a n Hp Hm Ha Hn; cbv in Hp; simplify_eq;
      cbv in Hm, Ha, Hn; by simplify_eq.
  - intros [|k] p [|i] n Hp Hn; cbv in Hp; simplify_eq;
      cbv in Hn; by simplify_eq.
Qed.

(** The claim of C4 fails after a grant of [fcfs_allocation] and of
    [priority_allocation]: with five instances free, a process whose maximum
    is one asks for three and gets them, which leaves its need at minus
    two. *)
Lemma fcfs_priority_grant_above_claim :
  need_invariant modest_claim ∧
  (∃ L', R.fcfs_allocation modest_claim [("A", [3])]
         = (L', Ret [mkAdmission true "Request by A granted"]) ∧
         ¬ need_invariant L') ∧
  (∃ L', R.priority_allocation modest_claim [("A", [3])]
         = (L', Ret [mkAdmission true "Request by A (priority 0) granted"]) ∧
         ¬ need_invariant L').
Proof.
  split; [apply modest_claim_need_invariant|].
  split; eexists; (split; [by vm_compute|]);
    intros (_ & _ & Hnn); by specialize (Hnn 0%nat _ 0%nat _ eq_refl eq_refl).
Qed.

(** C4, amended.  On a ledger that satisfies need non-negativity (vectors of
    one entry per resource, [need[i] = max_demand[i] - allocated[i] ≥ 0]),
    [simulate_request_bankers], which refuses a request above the need, keeps
    it.  [fcfs_allocation] and [priority_allocation], which compare a request
    with the available vector only, return on every batch whose vectors have
    at most one entry per resource and keep
    [need[i] = max_demand[i] - allocated[i]], the sign of the need left
    aside. *)
Theorem need_invariant_admission L :
  need_invariant L →
  (∀ process_id request,
     need_invariant (R.simulate_request_bankers L process_id request).1) ∧
  (∀ requests,
     Forall (λ rq : R.Request, (length rq.2 ≤ length L.2)%nat) requests →
     (∃ L' results, R.fcfs_allocation L requests = (L', Ret results) ∧
                    shaped L' ∧ need_consistent L') ∧
     (∃ L' results, R.priority_allocation L requests = (L', Ret results) ∧
                    shaped L' ∧ need_consistent L')).
Proof.
  intros Hinv. split.
  { intros process_id request. by apply simulate_request_bankers_need_invariant. }
  destruct Hinv as (Hshape & Hcons & _). intros requests Hlen.
  pose proof (stable_and _ _ shaped_stable need_consistent_stable) as Hstable.
  destruct (operations_keep_stable _ L Hstable (conj Hshape Hcons))
    as (Hfcfs & Hprio & _).
  split.
  - destruct (fcfs_loop_total (R.sorted_by_arrival L.1) requests L [])
      as (L' & results & Hrun); [done| |done|].
    { intros pid_ k (p & Hp & _)%find_sorted_lookup. by eapply lookup_lt_Some. }
    exists L', results. split; [done|]. by eapply Hfcfs.
  - destruct (priority_loop_total
                (R.sort_desc (R.priority_requests L.1 requests)) L [])
      as (L' & results & Hrun); [done| |].
    { by apply sort_desc_Forall, Forall_priority_requests. }
    exists L', results. split; [done|]. by eapply Hprio.
Qed.

Lemma need_invariant_admission_modest_claim :
  need_invariant modest_claim ∧
  need_invariant (R.simulate_request_bankers modest_claim "A" [1]).1.
Proof.
  pose proof modest_claim_need_invariant as Hinv.
  split; [done|].
  exact (proj1 (need_invariant_admission modest_claim Hinv) "A" [1]).
Defined.

(** ** Cycle detection in the wait-for graph *)
Section wait_for_graph.
Import Deadlock.
Variable g : WaitForGraph.
Hypothesis Hkeys : NoDup g.*1.

Lemma graph_get_lookup a waits : (a, waits) ∈ g → graph_get g a = waits.
Proof.
  intros Hin. apply list_elem_of_lookup in Hin as [i Hi]. unfold graph_get.
  destruct (list_find (λ kv, kv.1 = a) g) as [[j [a' waits']]|] eqn:Hfind.
  - apply list_find_Some in Hfind as (Hj & Ha & _). simpl in Ha. subst a'.
    assert (i = j) as ->; [|congruence].
    apply (NoDup_lookup _ i j a Hkeys);
      rewrite list_lookup_fmap; [by rewrite Hi|by rewrite Hj].
  - apply list_find_None in Hfind.
    by destruct (Forall_lookup_1 _ _ _ _ Hfind Hi).
Qed.

Lemma graph_get_unknown a : a ∉ g.*1 → graph_get g a = [].
Proof.
  intros Hnot. unfold graph_get.
  destruct (list_find (λ kv, kv.1 = a) g) as [[j [a' waits']]|] eqn:Hfind;
    [|done].
  apply list_find_Some in Hfind as (Hj & Ha & _). simpl in Ha. subst a'.
  destruct Hnot. apply list_elem_of_fmap. exists (a, waits').
  split; [done|]. by eapply list_elem_of_lookup_2.
Qed.

Lemma graph_get_neighbours node : Search.neighbours g node (graph_get g node).
Proof.
  destruct (decide (node ∈ g.*1)) as [Hin|Hnot].
  - apply list_elem_of_fmap in Hin as ([a waits] & -> & Hin). simpl. left.
    by rewrite (graph_get_lookup _ _ Hin).
  - right. split; [by apply graph_get_unknown|done].
Qed.

Lemma neighbours_graph_get node waits :
  Search.neighbours g node waits → waits = graph_get g node.
Proof.
  intros [Hin|[-> Hnot]].
  - by rewrite (graph_get_lookup _ _ Hin).
  - by rewrite graph_get_unknown.
Qed.

Lemma graph_get_waits_for a b : b ∈ graph_get g a ↔ waits_for g a b.
Proof.
  split.
  - intros Hb. destruct (graph_get_neighbours a) as [Hin|[Hnil _]].
    + by exists (graph_get g a).
    + rewrite Hnil in Hb. by apply elem_of_nil in Hb.
  - intros (waits & Hin & Hb). by rewrite (graph_get_lookup _ _ Hin).
Qed.

Lemma waits_for_nodes a b : waits_for g a b → a ∈ nodes g ∧ b ∈ nodes g.
Proof.
  intros (waits & Hin & Hb). unfold nodes.
  rewrite !elem_of_list_to_set, !elem_of_app. split.
  - left. apply list_elem_of_fmap. by exists (a, waits).
  - right. apply list_elem_of_join. exists waits. split; [done|].
    apply list_elem_of_fmap. by exists (a, waits).
Qed.

Lemma waits_for_key a b : waits_for g a b → a ∈ g.*1.
Proof.
  intros (waits & Hin & _).
  apply list_elem_of_fmap. by exists (a, waits).
Qed.

Lemma visit_decreases (node : string) (seen : gset string) :
  node ∈ nodes g → node ∉ seen →
  (size (nodes g ∖ ({[node]} ∪ seen)) < size (nodes g ∖ seen))%nat.
Proof.
  intros Hin Hnot. apply subset_size. split; [set_solver|].
  intros Hsub. specialize (Hsub node). set_solver.
Qed.

Lemma visited_more_left_fewer (seen seen' : gset string) :
  seen ⊆ seen' → (size (nodes g ∖ seen') ≤ size (nodes g ∖ seen))%nat.
Proof. intros Hsub. apply subseteq_size. set_solver. Qed.

Lemma finished_closed st stack b c :
  dfs_inv g st stack → finished_node st b → rtc (waits_for g) b c →
  finished_node st c.
Proof.
  intros (_ & _ & _ & _ & Hfin) Hb Hbc.
  induction Hbc as [|x y z Hxy _ IH]; [done|].
  apply IH. by apply (Hfin x).
Qed.

Lemma linked_tail a stack : linked g (a :: stack) → linked g stack.
Proof. destruct stack; simpl; tauto. Qed.

Lemma linked_reaches stack top back :
  linked g stack → head stack = Some top → back ∈ stack →
  rtc (waits_for g) back top.
Proof.
  revert top. induction stack as [|a stack IH]; intros top Hl Hh Hin; [done|].
  simpl in Hh. simplify_eq.
  apply elem_of_cons in Hin as [->|Hin]; [done|].
  destruct stack as [|b stack]; [by apply elem_of_nil in Hin|].
  destruct Hl as [Hba Hl].
  eapply rtc_r; [|done]. by apply IH.
Qed.

Lemma back_edge_cyclic stack : linked g stack → back_edge g stack → cyclic g.
Proof.
  intros Hl (top & back & Hh & Hedge & Hin).
  exists back. eapply tc_rtc_l; [by eapply linked_reaches|by apply tc_once].
Qed.

(** *** The detector returns, and finds a cycle exactly when there is one *)

Lemma for_neighbors_spec call bound node stack neighbors st :
  searches g call bound →
  dfs_inv g st (node :: stack) →
  (∀ nb, nb ∈ neighbors → waits_for g node nb) →
  (size (nodes g ∖ visited st) ≤ bound)%nat →
  ∃ cyc st',
    for_neighbors call neighbors st = Ret (cyc, st') ∧
    visited st ⊆ visited st' ∧
    if cyc : bool then ∃ deeper, found g st' (deeper ++ node :: stack)
    else dfs_inv g st' (node :: stack) ∧
         ∀ nb, nb ∈ neighbors → finished_node st' nb.
Proof.
  intros Hcall. revert st.
  induction neighbors as [|nb rest IH]; intros st Hinv Hedges Hsize.
  { exists false, st. split_and!; [done..|]. by intros nb ?%elem_of_nil. }
  assert (Hrest : ∀ nb', nb' ∈ rest → waits_for g node nb').
  { intros nb' Hin. apply Hedges. by right. }
  assert (Hnb : waits_for g node nb) by (apply Hedges; by left).
  pose proof Hinv as (Hrec & Hnodup & Hlinked & Hsub & Hfin).
  cbn [for_neighbors]. case_bool_decide as Hvisited.
  - destruct (Hcall nb st (node :: stack)) as (cyc & st1 & Heq & Hvis1 & Hpost);
      [done|done|by eapply waits_for_nodes|by split|done|].
    rewrite Heq. cbn. destruct cyc.
    + exists true, st1. split_and!; [done..|].
      destruct Hpost as [deeper Hfound]. exists (deeper ++ [nb]).
      by rewrite <- app_assoc.
    + destruct Hpost as [Hinv1 Hnb1].
      destruct (IH st1) as (cyc & st2 & Heq2 & Hvis2 & Hpost2); [done|done|..].
      { eapply Nat.le_trans; [by apply visited_more_left_fewer|done]. }
      exists cyc, st2. split_and!; [done|set_solver|].
      destruct cyc; [done|]. destruct Hpost2 as [Hinv2 Hfin2].
      split; [done|]. intros nb' [->|Hin]%elem_of_cons; [|by apply Hfin2].
      destruct Hinv2 as (Hrec2 & _). split; [set_solver|].
      rewrite Hrec2, <- Hrec. set_solver.
  - case_bool_decide as Hstack.
    + exists true, st. split_and!; [done..|]. exists []. simpl.
      split_and!; [done..|]. exists node, nb. split_and!; [done..|].
      apply (elem_of_list_to_set (C:=gset string)). by rewrite <- Hrec.
    + destruct (IH st) as (cyc & st2 & Heq2 & Hvis2 & Hpost2); [done..|].
      exists cyc, st2. split_and!; [done..|].
      destruct cyc; [done|]. destruct Hpost2 as [Hinv2 Hfin2].
      split; [done|]. intros nb' [->|Hin]%elem_of_cons; [|by apply Hfin2].
      destruct Hinv2 as (Hrec2 & _). split; [set_solver|].
      by rewrite Hrec2, <- Hrec.
Qed.

Lemma enter_inv node st stack :
  dfs_inv g st stack → node ∉ visited st → linked g (node :: stack) →
  dfs_inv g (mkDfs ({[node]} ∪ visited st) ({[node]} ∪ rec_stack st))
    (node :: stack).
Proof.
  intros (Hrec & Hnodup & _ & Hsub & Hfin) Hnot Hlinked.
  split_and!; cbn [visited rec_stack].
  - by rewrite list_to_set_cons, Hrec.
  - apply NoDup_cons. split; [|done].
    intros Hin%(elem_of_list_to_set (C:=gset string)). set_solver.
  - done.
  - set_solver.
  - intros b [Hb Hb']. cbn [visited rec_stack] in *.
    destruct (Hfin b) as [Hsucc Hacyclic]; [split; set_solver|].
    split; [|done]. intros c Hc. destruct (Hsucc c Hc) as [Hc1 Hc2].
    split; cbn [visited rec_stack]; set_solver.
Qed.

Lemma leave_inv node st stack :
  dfs_inv g st (node :: stack) →
  (∀ nb, waits_for g node nb → finished_node st nb) →
  dfs_inv g (mkDfs (visited st) (rec_stack st ∖ {[node]})) stack.
Proof.
  intros Hinv Hsucc. pose proof Hinv as (Hrec & Hnodup & Hlinked & Hsub & Hfin).
  apply NoDup_cons in Hnodup as [Hfresh Hnodup].
  assert (Hon : node ∈ rec_stack st).
  { rewrite Hrec, list_to_set_cons. set_solver. }
  split_and!; cbn [visited rec_stack].
  - rewrite Hrec, list_to_set_cons.
    apply set_eq. intros x. rewrite elem_of_difference, elem_of_union,
      elem_of_singleton, elem_of_list_to_set. split; [|naive_solver].
    intros [[->|Hx] Hne]; [by destruct Hne|done].
  - done.
  - by eapply linked_tail.
  - set_solver.
  - intros b [Hb Hb']. cbn [visited rec_stack] in *.
    destruct (decide (b = node)) as [->|Hne].
    + split.
      * intros c Hc. destruct (Hsucc c Hc) as [Hc1 Hc2].
        split; cbn [visited rec_stack]; set_solver.
      * intros Hcycle.
        assert (∃ c, waits_for g node c ∧ rtc (waits_for g) c node)
          as (c & Hc & Hback).
        { inversion Hcycle as [? ? Hstep|? c ? Hstep Htc]; subst.
          - by exists node.
          - exists c. split; [done|]. by apply tc_rtc. }
        destruct (finished_closed st (node :: stack) c node Hinv
                    (Hsucc c Hc) Hback) as [_ Hoff].
        by destruct Hoff.
    + destruct (Hfin b) as [Hsucc' Hacyclic]; [split; set_solver|].
      split; [|done]. intros c Hc. destruct (Hsucc' c Hc) as [Hc1 Hc2].
      split; cbn [visited rec_stack]; set_solver.
Qed.

Lemma has_cycle_searches limit : searches g (has_cycle limit g) limit.
Proof.
  induction limit as [|limit IH];
    intros node st stack Hinv Hnot Hnode Hlinked Hsize.
  { pose proof (visit_decreases node (visited st) Hnode Hnot). lia. }
  cbn [has_cycle].
  pose proof (enter_inv node st stack Hinv Hnot Hlinked) as Hinv1.
  set (st1 := mkDfs ({[node]} ∪ visited st) ({[node]} ∪ rec_stack st)) in *.
  destruct (for_neighbors_spec (has_cycle limit g) limit node stack
              (graph_get g node) st1 IH Hinv1
              (λ nb Hnb, proj1 (graph_get_waits_for node nb) Hnb))
    as (cyc & st2 & Heq & Hvis & Hpost).
  { pose proof (visit_decreases node (visited st) Hnode Hnot). simpl. lia. }
  rewrite Heq. cbn. destruct cyc.
  - exists true, st2. split; [done|]. split; [|done]. subst st1. set_solver.
  - destruct Hpost as [Hinv2 Hfin2].
    pose proof Hinv2 as (Hrec2 & _).
    rewrite bool_decide_eq_true_2
      by (rewrite Hrec2, list_to_set_cons; set_solver).
    eexists false, _. split; [done|]. split; [subst st1; set_solver|].
    split; [|subst st1; set_solver].
    apply leave_inv; [done|]. intros nb Hnb. apply Hfin2.
    by apply graph_get_waits_for.
Qed.

Lemma for_processes_spec limit keys st :
  dfs_inv g st [] →
  (∀ k, k ∈ keys → k ∈ g.*1) →
  (size (nodes g ∖ visited st) ≤ limit)%nat →
  ∃ deadlocked,
    for_processes limit g keys st = Ret deadlocked ∧
    ((deadlocked = [] ∧
      ∃ st', dfs_inv g st' [] ∧ visited st ⊆ visited st' ∧
             ∀ k, k ∈ keys → k ∈ visited st')
     ∨ (∃ stack, back_edge_stack g stack ∧ deadlocked ≡ₚ stack)).
Proof.
  revert st. induction keys as [|k rest IH]; intros st Hinv Hin Hsize.
  { exists []. split; [done|]. left. split; [done|]. exists st.
    split_and!; [done..|]. by intros k ?%elem_of_nil. }
  assert (Hrest : ∀ k', k' ∈ rest → k' ∈ g.*1).
  { intros k' Hk'. apply Hin. by right. }
  assert (Hk : k ∈ g.*1) by (apply Hin; by left).
  cbn [for_processes]. case_bool_decide as Hvisited.
  - destruct (has_cycle_searches limit k st []) as (cyc & st1 & Heq & Hvis1 & Hpost);
      [done|done| |done|done|].
    { unfold nodes. rewrite elem_of_list_to_set, elem_of_app. by left. }
    rewrite Heq. cbn. destruct cyc.
    + destruct Hpost as (deeper & Hrec & Hnodup & Hlinked & Hback).
      eexists. split; [done|]. right. exists (deeper ++ [k]).
      split; [|by rewrite Hrec; apply elements_list_to_set].
      split_and!; [done..|]. exists k. by rewrite last_snoc.
    + destruct Hpost as [Hinv1 Hk1].
      destruct (IH st1) as (deadlocked & Heq1 & Hcases); [done|done|..].
      { eapply Nat.le_trans; [by apply visited_more_left_fewer|done]. }
      exists deadlocked. split; [done|].
      destruct Hcases as [(-> & st2 & Hinv2 & Hvis2 & Hall)|Hstack];
        [left|by right].
      split; [done|]. exists st2. split_and!; [done|set_solver|].
      intros k' [->|Hk']%elem_of_cons; [set_solver|by apply Hall].
  - destruct (IH st) as (deadlocked & Heq1 & Hcases); [done..|].
    exists deadlocked. split; [done|].
    destruct Hcases as [(-> & st2 & Hinv2 & Hvis2 & Hall)|Hstack];
      [left|by right].
    split; [done|]. exists st2. split_and!; [done..|].
    intros k' [->|Hk']%elem_of_cons; [set_solver|by apply Hall].
Qed.

Lemma initial_dfs_inv : dfs_inv g (mkDfs ∅ ∅) [].
Proof.
  split_and!; cbn [visited rec_stack]; [done|constructor|done|done|].
  intros b [Hb _]. cbn [visited] in Hb. set_solver.
Qed.

(** *** The search of the specification *)

Lemma explore_deterministic stack seen todo o1 o2 :
  Search.explore g stack seen todo o1 →
  Search.explore g stack seen todo o2 →
  o1 = o2.
Proof.
  intros H1. revert o2.
  induction H1 as [stack seen|stack seen node rest Hon
                  |stack seen node rest o Hoff Hseen _ IH
                  |stack seen node rest waits cycle Hoff Hnew Hw _ IH
                  |stack seen node rest waits seen' o Hoff Hnew Hw _ IH1 _ IH2];
    intros o2 H2; inversion H2; subst; try done.
  - by apply IH.
  - assert (waits0 = waits) as ->
      by (by rewrite (neighbours_graph_get _ _ Hw),
               (neighbours_graph_get node waits0)).
    by apply IH.
  - assert (waits0 = waits) as ->
      by (by rewrite (neighbours_graph_get _ _ Hw),
               (neighbours_graph_get node waits0)).
    by specialize (IH _ ltac:(eassumption)).
  - assert (waits0 = waits) as ->
      by (by rewrite (neighbours_graph_get _ _ Hw),
               (neighbours_graph_get node waits0)).
    by specialize (IH1 _ ltac:(eassumption)).
  - assert (waits0 = waits) as ->
      by (by rewrite (neighbours_graph_get _ _ Hw),
               (neighbours_graph_get node waits0)).
    specialize (IH1 _ ltac:(eassumption)). simplify_eq. by apply IH2.
Qed.

(** The stack a search ends with has grown from the stack it started with,
    names no node twice, follows the edges, and its top waits for one of its
    nodes. *)
Lemma explore_found stack seen todo o :
  Search.explore g stack seen todo o →
  ∀ cycle, o = Search.Found cycle →
  NoDup stack → linked g stack →
  (∀ n, n ∈ todo → follows g stack n) →
  ∃ deeper,
    cycle = deeper ++ stack ∧ NoDup cycle ∧ linked g cycle ∧
    back_edge g cycle ∧
    (stack = [] → ∃ root, last cycle = Some root ∧ root ∈ g.*1).
Proof.
  induction 1 as [stack seen|stack seen node rest Hon
                 |stack seen node rest o Hoff Hseen _ IH
                 |stack seen node rest waits cycle' Hoff Hnew Hw _ IH
                 |stack seen node rest waits seen' o Hoff Hnew Hw _ _ _ IH];
    intros cycle Ho Hnodup Hlinked Hfollows; try discriminate.
  - injection Ho as <-. exists []. split_and!; [done..| |].
    + destruct stack as [|top below]; [by apply elem_of_nil in Hon|].
      exists top, node. split_and!; [done| |done].
      apply (Hfollows node). by left.
    + intros ->. by apply elem_of_nil in Hon.
  - apply (IH cycle); [done..|]. intros n Hn. apply Hfollows. by right.
  - injection Ho as <-.
    assert (Hnode : follows g stack node) by (apply Hfollows; by left).
    destruct (IH cycle' eq_refl) as (deeper & -> & Hnd & Hl & Hb & _).
    + by apply NoDup_cons.
    + destruct stack; [done|]. by split.
    + intros n Hn. simpl. destruct Hw as [Hin|[-> _]];
        [by exists waits|by apply elem_of_nil in Hn].
    + exists (deeper ++ [node]). rewrite <- app_assoc.
      split_and!; [done..|]. intros ->. exists node.
      split; [|done]. by rewrite last_snoc.
  - apply (IH cycle); [done..|]. intros n Hn. apply Hfollows. by right.
Qed.

(** *** The detector does what the search does *)

Lemma agrees_off_stack st stack node :
  agrees st stack → node ∉ visited st → node ∉ stack.
Proof.
  intros [Hrec Hsub] Hnot Hin. apply Hnot, Hsub. rewrite Hrec.
  by apply elem_of_list_to_set.
Qed.

Lemma for_neighbors_explore call neighbors :
  explores g call →
  ∀ st stack cyc st',
    for_neighbors call neighbors st = Ret (cyc, st') →
    agrees st stack →
    ∃ o, Search.explore g stack (visited st) neighbors o ∧ ends o cyc st' stack.
Proof.
  intros Hcall.
  induction neighbors as [|nb rest IH]; intros st stack cyc st';
    cbn [for_neighbors].
  { intros [= <- <-] Hag. exists (Search.Clear (visited st)).
    split; [constructor|done]. }
  case_bool_decide as Hvisited.
  - destruct (call nb st) as [[cyc1 st1]|e|] eqn:Hrun; [|done..]. cbn.
    intros Hloop Hag.
    pose proof (agrees_off_stack _ _ _ Hag Hvisited) as Hoff.
    destruct (Hcall nb st stack cyc1 st1 Hrun Hag Hvisited) as (o1 & Hex & Hend).
    destruct o1 as [cycle|seen1]; destruct Hend as [-> Hend].
    + simplify_eq. exists (Search.Found cycle). split; [|done].
      eapply Search.explore_cycle_below;
        [done|done|apply graph_get_neighbours|done].
    + destruct Hend as [<- Hag1].
      destruct (IH _ _ _ _ Hloop Hag1) as (o & Hrest & Hend).
      exists o. split; [|done].
      eapply Search.explore_no_cycle_below;
        [done|done|apply graph_get_neighbours|done..].
  - case_bool_decide as Hstack.
    + intros [= <- <-] Hag. exists (Search.Found stack).
      split; [|by destruct Hag].
      apply Search.explore_back_edge. destruct Hag as [Hrec _].
      rewrite Hrec in Hstack. by apply elem_of_list_to_set in Hstack.
    + intros Hloop Hag. destruct (IH _ _ _ _ Hloop Hag) as (o & Hrest & Hend).
      exists o. split; [|done]. apply Search.explore_visited; [|done..].
      intros Hin. apply Hstack. destruct Hag as [-> _].
      by apply elem_of_list_to_set.
Qed.

Lemma has_cycle_explores limit : explores g (has_cycle limit g).
Proof.
  induction limit as [|limit IH]; intros node st stack cyc st';
    cbn [has_cycle]; [done|].
  set (st1 := mkDfs ({[node]} ∪ visited st) ({[node]} ∪ rec_stack st)).
  destruct (for_neighbors (has_cycle limit g) (graph_get g node) st1)
    as [[cyc2 st2]|e|] eqn:Hloop; [|done..]. cbn.
  intros Hret Hag Hnot.
  pose proof (agrees_off_stack _ _ _ Hag Hnot) as Hoff.
  assert (Hag1 : agrees st1 (node :: stack)).
  { destruct Hag as [Hrec Hsub]. unfold st1. split; cbn [visited rec_stack].
    - by rewrite list_to_set_cons, Hrec.
    - set_solver. }
  destruct (for_neighbors_explore _ _ IH _ _ _ _ Hloop Hag1)
    as (o & Hex & Hend).
  exists o. split; [done|].
  destruct o as [cycle|seen']; destruct Hend as [-> Hend].
  - by simplify_eq.
  - destruct Hend as [<- [Hrec2 Hsub2]].
    rewrite bool_decide_eq_true_2 in Hret
      by (rewrite Hrec2, list_to_set_cons; set_solver).
    simplify_eq. split_and!; [done..|]. split; cbn [visited rec_stack].
    + rewrite Hrec2, list_to_set_cons. apply set_eq. intros x.
      rewrite elem_of_difference, elem_of_union, elem_of_singleton,
        elem_of_list_to_set.
      split; [intros [[->|Hx] Hne]; [by destruct Hne|done]|].
      intros Hx. split; [by right|]. by intros ->.
    + set_solver.
Qed.

Lemma for_processes_explore limit keys :
  ∀ st deadlocked,
    for_processes limit g keys st = Ret deadlocked →
    agrees st [] →
    ∃ o, Search.explore g [] (visited st) keys o ∧
         match o with
         | Search.Found cycle => deadlocked = elements (list_to_set cycle : gset string)
         | Search.Clear _ => deadlocked = []
         end.
Proof.
  induction keys as [|k rest IH]; intros st deadlocked; cbn [for_processes].
  { intros [= <-] Hag. exists (Search.Clear (visited st)).
    split; [constructor|done]. }
  case_bool_decide as Hvisited.
  - destruct (has_cycle limit g k st) as [[cyc1 st1]|e|] eqn:Hrun; [|done..].
    cbn. intros Hloop Hag.
    destruct (has_cycle_explores limit k st [] cyc1 st1 Hrun Hag Hvisited)
      as (o1 & Hex & Hend).
    destruct o1 as [cycle|seen1]; destruct Hend as [-> Hend].
    + simplify_eq. exists (Search.Found cycle). split; [|by rewrite Hend].
      eapply Search.explore_cycle_below;
        [by intros ?%elem_of_nil|done|apply graph_get_neighbours|done].
    + destruct Hend as [<- Hag1].
      destruct (IH _ _ Hloop Hag1) as (o & Hrest & Hend).
      exists o. split; [|done].
      eapply Search.explore_no_cycle_below;
        [by intros ?%elem_of_nil|done|apply graph_get_neighbours|done..].
  - intros Hloop Hag.
    destruct (IH _ _ Hloop Hag) as (o & Hrest & Hend).
    exists o. split; [|done].
    apply Search.explore_visited; [by intros ?%elem_of_nil|done..].
Qed.

(** Whenever the detector returns, its answer is the outcome of the search
    of the specification. *)
Lemma detect_deadlock_wait_for_graph_search limit res :
  detect_deadlock_wait_for_graph limit g = Ret res →
  ∃ o, Search.search g o ∧ reports o res ∧
       ∀ cycle, o = Search.Found cycle → back_edge_stack g cycle.
Proof.
  unfold detect_deadlock_wait_for_graph.
  destruct (for_processes limit g g.*1 (mkDfs ∅ ∅)) as [deadlocked|e|]
    eqn:Hrun; [|done..].
  cbn. intros [= <-].
  destruct (for_processes_explore _ _ _ _ Hrun) as (o & Hex & Hend);
    [by split|].
  exists o. split; [done|].
  assert (Hprops : ∀ cycle, o = Search.Found cycle → back_edge_stack g cycle).
  { intros cycle ->.
    destruct (explore_found _ _ _ _ Hex cycle eq_refl)
      as (deeper & _ & Hnd & Hl & Hb & Hroot);
      [constructor|done|by intros n Hn|].
    by split_and!; [..|apply Hroot]. }
  split; [|done].
  destruct o as [cycle|seen]; cbn [reports deadlock_detected deadlocked_processes].
  - destruct (Hprops cycle eq_refl) as (Hnd & _ & (top & _ & Htop & _) & _).
    subst deadlocked.
    assert (Hperm : elements (list_to_set cycle : gset string) ≡ₚ cycle)
      by (by apply elements_list_to_set).
    split; [|done]. apply bool_decide_eq_true_2. rewrite Hperm.
    destruct cycle; simplify_eq/=; lia.
  - by subst deadlocked.
Qed.

End wait_for_graph.

(** C9, amended.  [limit] is the number of nested calls the interpreter
    still allows, and the keys of the mapping are distinct, as those of a
    dictionary are.  For every wait-for graph with at most [limit] nodes,
    the detector returns.  Its answer is the outcome of the depth-first
    search of the specification, which is unique: keys in the order of the
    mapping, the processes waited for in the order listed, every node
    visited once.  When the search finds a back edge, [deadlock_detected] is
    true and [deadlocked_processes] lists, in the unspecified order of a
    set, the recursion stack at that moment; otherwise the answer is false
    and the empty list.  A deadlock is reported exactly when the graph has a
    directed cycle, the edges being those of the mapping and a node that is
    not a key having none.  The reported stack is a chain of edges without
    repetition that starts at a key and whose deepest node waits for a node
    of the chain. *)
Theorem wait_for_graph_detection limit g :
  NoDup g.*1 →
  (size (nodes g) ≤ limit)%nat →
  ∃ o res,
    (∀ o', Search.search g o' ↔ o' = o) ∧
    D.detect_deadlock_wait_for_graph limit g = Ret res ∧
    reports o res ∧
    (D.deadlock_detected res = true ↔ cyclic g) ∧
    (∀ stack, o = Search.Found stack → back_edge_stack g stack).
Proof.
  intros Hkeys Hsize.
  assert (Hret : ∃ res,
    D.detect_deadlock_wait_for_graph limit g = Ret res ∧
    (D.deadlock_detected res = true ↔ cyclic g)).
  { unfold D.detect_deadlock_wait_for_graph.
    destruct (for_processes_spec g Hkeys limit g.*1 (D.mkDfs ∅ ∅))
      as (deadlocked & -> & Hcases); [by apply initial_dfs_inv|done|..].
    { eapply Nat.le_trans; [|done]. apply subseteq_size. set_solver. }
    eexists. split; [done|]. cbn.
    destruct Hcases as [(-> & st' & Hinv & _ & Hall)|(stack & Hstack & Hperm)].
    - cbn. split; [done|]. intros [a Hcycle]. exfalso.
      assert (Hkey : a ∈ g.*1).
      { inversion Hcycle; subst; by eapply waits_for_key. }
      destruct Hinv as (Hrec & _ & _ & _ & Hfin).
      destruct (Hfin a) as [_ Hacyclic]; [|done].
      split; [by apply Hall|]. rewrite Hrec. set_solver.
    - destruct Hstack as (Hnodup & Hlinked & Hback & Hroot).
      assert (Hlen : (0 < length deadlocked)%nat).
      { rewrite Hperm. destruct Hback as (top & _ & Hhead & _).
        destruct stack; simplify_eq/=; lia. }
      rewrite bool_decide_eq_true_2 by done.
      split; [|done]. intros _. by eapply back_edge_cyclic. }
  destruct Hret as (res & Hrun & Hiff).
  destruct (detect_deadlock_wait_for_graph_search g Hkeys limit res Hrun)
    as (o & Hsearch & Hreports & Hstack).
  exists o, res. split_and!; [|done..].
  intros o'. split; [|by intros ->].
  intros Hsearch'. by eapply explore_deterministic.
Qed.

Lemma tailed_cycle_keys : NoDup tailed_cycle.*1.
Proof. apply (bool_decide_unpack _). by vm_compute. Qed.

Lemma wait_for_graph_detection_tailed_cycle :
  NoDup tailed_cycle.*1 ∧
  (size (nodes tailed_cycle) ≤ 3)%nat ∧
  ∃ o res,
    (∀ o', Search.search tailed_cycle o' ↔ o' = o) ∧
    D.detect_deadlock_wait_for_graph 3 tailed_cycle = Ret res ∧
    reports o res ∧
    (D.deadlock_detected res = true ↔ cyclic tailed_cycle) ∧
    (∀ stack, o = Search.Found stack → back_edge_stack tailed_cycle stack).
Proof.
  assert (Hsize : (size (nodes tailed_cycle) ≤ 3)%nat).
  { apply (bool_decide_unpack _). by vm_compute. }
  split; [apply tailed_cycle_keys|]. split; [done|].
  exact (wait_for_graph_detection 3 tailed_cycle tailed_cycle_keys Hsize).
Defined.

(** *** Beyond the recursion limit *)

Lemma ring_lookup n i :
  (i < n)%nat → ring n !! i = Some (pretty i, [pretty (S i `mod` n)%nat]).
Proof.
  intros Hi. unfold ring. rewrite list_lookup_fmap, lookup_seq_lt by done.
  done.
Qed.

Lemma ring_keys n : NoDup (ring n).*1.
Proof.
  unfold ring. rewrite <- list_fmap_compose.
  apply NoDup_fmap_2; [|apply NoDup_seq].
  intros i j Hij. simpl in Hij. by apply (inj pretty) in Hij.
Qed.

Lemma ring_graph_get n i :
  (i < n)%nat → D.graph_get (ring n) (pretty i) = [pretty (S i `mod` n)%nat].
Proof.
  intros Hi. apply (graph_get_lookup _ (ring_keys n)).
  by eapply list_elem_of_lookup_2, ring_lookup.
Qed.

(** The search follows the ring from a node to the next, one call inside the
    other, and runs out of calls before it comes round. *)
Lemma has_cycle_ring n limit : ∀ i st,
  (i + limit < n)%nat →
  (∀ j, (i ≤ j ≤ i + limit)%nat → pretty j ∉ D.visited st) →
  D.has_cycle limit (ring n) (pretty i) st = Exn RecursionError.
Proof.
  induction limit as [|limit IH]; intros i st Hi Hfresh; [done|].
  cbn [D.has_cycle]. rewrite ring_graph_get by lia.
  rewrite Nat.mod_small by lia. cbn [D.for_neighbors D.visited].
  rewrite bool_decide_eq_true_2.
  2: { rewrite not_elem_of_union, not_elem_of_singleton. split.
       - intros Heq. apply (inj pretty) in Heq. lia.
       - apply Hfresh. lia. }
  rewrite IH; [done|lia|].
  intros j Hj. cbn [D.visited].
  rewrite not_elem_of_union, not_elem_of_singleton. split.
  - intros Heq. apply (inj pretty) in Heq. lia.
  - apply Hfresh. lia.
Qed.

Lemma ring_recursion_error limit :
  D.detect_deadlock_wait_for_graph limit (ring (S limit)) = Exn RecursionError.
Proof.
  unfold D.detect_deadlock_wait_for_graph.
  assert (Hkeys : (ring (S limit)).*1 = pretty 0%nat :: (pretty <$> seq 1 limit)).
  { unfold ring. rewrite <- list_fmap_compose. done. }
  rewrite Hkeys. cbn [D.for_processes D.visited].
  rewrite bool_decide_eq_true_2 by set_solver.
  rewrite (has_cycle_ring (S limit) limit 0); [done|lia|].
  intros j _. cbn [D.visited]. set_solver.
Qed.

(** The claim as it was stated fails: whatever the recursion limit, some
    wait-for graph makes the detector raise [RecursionError] in place of an
    answer, the ring with one process more than the limit. *)
Lemma wait_for_graph_recursion_limit :
  ¬ ∃ limit, ∀ g, NoDup g.*1 →
      ∃ res, D.detect_deadlock_wait_for_graph limit g = Ret res.
Proof.
  intros [limit Hall].
  destruct (Hall (ring (S limit)) (ring_keys _)) as [res Hres].
  by rewrite ring_recursion_error in Hres.
Qed.

(** The reported stack is one cycle with the path that led to it: in the
    graph where A waits for B while B and C wait for each other, A is
    reported although it is on no cycle. *)
Example tailed_cycle_reports_the_tail :
  ∃ res, D.detect_deadlock_wait_for_graph 3 tailed_cycle = Ret res ∧
         D.deadlocked_processes res ≡ₚ ["A"; "B"; "C"] ∧
         ¬ tc (waits_for tailed_cycle) "A" "A".
Proof.
  eexists. split; [by vm_compute|]. split.
  - cbn [D.deadlocked_processes]. apply (Permutation_app_comm ["C"] ["A"; "B"]).
  - assert (Htargets : ∀ x y, tc (waits_for tailed_cycle) x y → y ≠ "A").
    { assert (Hedge : ∀ x y, waits_for tailed_cycle x y → y ≠ "A").
      { intros x y (waits & Hin & Hy).
        unfold tailed_cycle in Hin.
        repeat (apply elem_of_cons in Hin as [Hin|Hin]; [simplify_eq;
          apply list_elem_of_singleton in Hy; by subst|]).
        by apply elem_of_nil in Hin. }
      induction 1; by eauto. }
    intros Htc. by apply (Htargets _ _ Htc).
Qed.

(** Three nested calls are needed for this graph; with two the detector
    raises. *)
Example tailed_cycle_needs_three_calls :
  D.detect_deadlock_wait_for_graph 2 tailed_cycle = Exn RecursionError.
Proof. by vm_compute. Qed.

(** Not every deadlocked process is reported: with two separate cycles the
    search stops at the first, and C, which is on the second, is left out. *)
Example two_cycles_reports_one :
  ∃ res, D.detect_deadlock_wait_for_graph 4 two_cycles = Ret res ∧
         D.deadlocked_processes res ≡ₚ ["A"; "B"] ∧
         tc (waits_for two_cycles) "C" "C".
Proof.
  eexists. split; [by vm_compute|]. split; [done|].
  apply tc_l with "D"; [|apply tc_once].
  - exists ["D"]. split; [|by apply list_elem_of_here].
    unfold two_cycles. do 2 apply list_elem_of_further. apply list_elem_of_here.
  - exists ["C"]. split; [|by apply list_elem_of_here].
    unfold two_cycles. do 3 apply list_elem_of_further. apply list_elem_of_here.
Qed.

(** * Further properties of the code *)

(** ** What an allocation loop leaves behind *)

Lemma alters_lookup {A} (f : Z → A → A) i amounts (l : list A) j :
  alters f i amounts l !! j
  = (λ x, if decide (i ≤ j)%nat
          then from_option (λ q, f q x) x (amounts !! (j - i)%nat) else x)
    <$> l !! j.
Proof.
  revert i l. induction amounts as [|q rest IH]; intros i l; simpl.
  - destruct (l !! j); simpl; [|done]. by case_decide.
  - rewrite IH. destruct (decide (i = j)) as [->|Hne].
    + rewrite list_lookup_alter_eq, Nat.sub_diag. destruct (l !! j); [|done].
      simpl. rewrite decide_False by lia. by rewrite decide_True by lia.
    + rewrite list_lookup_alter_ne by done. destruct (l !! j); [|done].
      simpl. f_equal. destruct (decide (S i ≤ j)%nat).
      * rewrite decide_True by lia.
        by replace (j - i)%nat with (S (j - S i)) by lia.
      * by rewrite decide_False by lia.
Qed.

Lemma length_alters {A} (f : Z → A → A) i amounts (l : list A) :
  length (alters f i amounts l) = length l.
Proof.
  revert i l. induction amounts as [|q rest IH]; intros i l; simpl; [done|].
  by rewrite IH, length_alter.
Qed.

Lemma alters_alter_commute {A} (f : Z → A → A) (g : A → A) i j amounts
    (l : list A) :
  (i < j)%nat →
  alter g i (alters f j amounts l) = alters f j amounts (alter g i l).
Proof.
  revert j l. induction amounts as [|q rest IH]; intros j l Hij; simpl; [done|].
  rewrite IH by lia. f_equal. apply list_alter_alter_ne. lia.
Qed.

Lemma alters_inverse {A} (f f' : Z → A → A) i amounts (l : list A) :
  (∀ q x, f' (- q) (f q x) = x) →
  alters f' i (Z.opp <$> amounts) (alters f i amounts l) = l.
Proof.
  intros Hinv. revert i l.
  induction amounts as [|q rest IH]; intros i l; simpl; [done|].
  rewrite alters_alter_commute by lia. rewrite IH.
  rewrite list_alter_alter_eq. apply list_alter_id. intros x. apply Hinv.
Qed.

Lemma moves_applied k i amount L L' :
  moves k i amount L L' → L' = applied k i [amount] L.
Proof.
  inversion 1 as [ps rs p a n r Hp Ha Hn Hr]; subst.
  unfold applied; cbn [fst snd alters]. f_equal.
  - apply list_eq. intros k'. destruct (decide (k = k')) as [<-|Hne].
    + rewrite list_lookup_insert_eq by (by eapply lookup_lt_Some).
      rewrite list_lookup_alter_eq, Hp. simpl. do 2 f_equal.
      * apply list_eq. intros j. destruct (decide (i = j)) as [<-|Hne].
        -- rewrite list_lookup_insert_eq by (by eapply lookup_lt_Some).
           by rewrite list_lookup_alter_eq, Ha.
        -- by rewrite list_lookup_insert_ne, list_lookup_alter_ne.
      * apply list_eq. intros j. destruct (decide (i = j)) as [<-|Hne].
        -- rewrite list_lookup_insert_eq by (by eapply lookup_lt_Some).
           by rewrite list_lookup_alter_eq, Hn.
        -- by rewrite list_lookup_insert_ne, list_lookup_alter_ne.
    + by rewrite list_lookup_insert_ne, list_lookup_alter_ne.
  - apply list_eq. intros j. destruct (decide (i = j)) as [<-|Hne].
    + rewrite list_lookup_insert_eq by (by eapply lookup_lt_Some).
      by rewrite list_lookup_alter_eq, Hr.
    + by rewrite list_lookup_insert_ne, list_lookup_alter_ne.
Qed.

Lemma applied_cons k i q rest L :
  applied k (S i) rest (applied k i [q] L) = applied k i (q :: rest) L.
Proof.
  unfold applied; cbn [fst snd alters]. f_equal.
  rewrite list_alter_alter_eq. by apply list_alter_ext.
Qed.

Lemma applied_nil k i L : applied k i [] L = L.
Proof.
  destruct L as [ps rs]. unfold applied; cbn [fst snd alters]. f_equal.
  apply list_alter_id. by intros [].
Qed.

Lemma allocate_loop_applied k i amounts L L' :
  R.allocate_loop k i amounts L = (L', Ret ()) → L' = applied k i amounts L.
Proof.
  revert i L. induction amounts as [|q rest IH]; intros i L;
    cbn [R.allocate_loop].
  - intros [= <-]. by rewrite applied_nil.
  - destruct (R.allocate_item k i q L) as [L1 [[]|e|]] eqn:Hitem; [|done..].
    apply allocate_item_Ret, moves_applied in Hitem as ->.
    intros ->%IH. apply applied_cons.
Qed.

Lemma any_gt_all_le request xs : all_le request xs = negb (any_gt request xs).
Proof.
  unfold all_le, any_gt. revert xs.
  induction request as [|q rest IH]; intros [|x xs]; simpl; try done.
  rewrite IH, negb_orb. f_equal. repeat case_bool_decide; done || lia.
Qed.

Lemma any_gt_false_intro request xs :
  (∀ i q x, request !! i = Some q → xs !! i = Some x → q ≤ x) →
  any_gt request xs = false.
Proof.
  unfold any_gt. revert xs.
  induction request as [|q rest IH]; intros [|x xs] Hle; simpl; try done.
  rewrite IH by (intros i; apply (Hle (S i))).
  rewrite bool_decide_eq_false_2; [done|].
  specialize (Hle 0%nat q x eq_refl eq_refl). lia.
Qed.

Lemma all_le_true request xs i q x :
  all_le request xs = true →
  request !! i = Some q → xs !! i = Some x → q ≤ x.
Proof.
  rewrite any_gt_all_le. intros Hany%negb_true_iff. by apply any_gt_false.
Qed.

(** The entries of the ledger after [applied], one by one. *)
Lemma applied_receives k amounts L p :
  L.1 !! k = Some p → receives k amounts L (applied k 0 amounts L).
Proof.
  intros Hp. unfold applied. exists p. eexists. cbn [fst snd].
  rewrite list_lookup_alter_eq, Hp. split; [done|]. split; [done|]. cbn.
  split_and!; try done.
  - intros i. rewrite alters_lookup, Nat.sub_0_r.
    destruct (R.allocated_resources p !! i); [|done]. simpl.
    destruct (amounts !! i); simpl; f_equal; lia.
  - intros i. rewrite alters_lookup, Nat.sub_0_r.
    destruct (R.need_resources p !! i); [|done]. simpl.
    destruct (amounts !! i); simpl; f_equal; lia.
  - intros k' Hne. by rewrite list_lookup_alter_ne.
  - intros i. rewrite !list_lookup_fmap, alters_lookup, Nat.sub_0_r.
    destruct (L.2 !! i); [|done]. simpl.
    destruct (amounts !! i); simpl; f_equal; lia.
  - apply list_eq. intros i.
    rewrite !list_lookup_fmap, alters_lookup. destruct (L.2 !! i); [|done].
    simpl. by destruct (amounts !! _).
  - apply list_eq. intros i.
    rewrite !list_lookup_fmap, alters_lookup. destruct (L.2 !! i); [|done].
    simpl. by destruct (amounts !! _).
Qed.

(** A granted request moves exactly the request vector.  When
    [simulate_request_bankers] grants, the requesting process (the first
    with the pid) has [allocated[i]] raised and [need[i]] lowered by
    [request[i]], every resource has [available_instances] lowered by
    [request[i]], and nothing else is written: pid, maximum and totals stay,
    and so does every other process. *)
Theorem granted_request_is_applied L process_id request :
  was_granted (R.simulate_request_bankers L process_id request).2 →
  ∃ k p,
    list_find (λ p, R.pid p = process_id) L.1 = Some (k, p) ∧
    receives k request L (R.simulate_request_bankers L process_id request).1.
Proof.
  intros (a & Hrun & Hgranted).
  pose proof (simulate_request_bankers_cases L process_id request) as Hc.
  cbn zeta in Hc. rewrite Hrun, Hgranted in Hc.
  destruct Hc as (k & p & Hfind & Hloop).
  apply allocate_loop_applied in Hloop as ->.
  exists k, p. split; [done|].
  apply list_find_Some in Hfind as (Hp & _). by eapply applied_receives.
Qed.

Lemma modest_claim_granted :
  was_granted (R.simulate_request_bankers modest_claim "A" [1]).2.
Proof. by eexists. Qed.

Lemma granted_request_is_applied_modest_claim :
  was_granted (R.simulate_request_bankers modest_claim "A" [1]).2 ∧
  ∃ k p,
    list_find (λ p, R.pid p = "A") modest_claim.1 = Some (k, p) ∧
    receives k [1] modest_claim (R.simulate_request_bankers modest_claim "A" [1]).1.
Proof.
  pose proof modest_claim_granted as Hgranted.
  split; [done|].
  exact (granted_request_is_applied modest_claim "A" [1] Hgranted).
Defined.

(** ** Release after grant *)

Lemma moves_fits k i amount L L' n :
  moves k i amount L L' → fits k n L ↔ fits k n L'.
Proof.
  inversion 1 as [ps rs p a m r Hp Ha Hn Hr]; subst. unfold fits.
  cbn [fst snd]. rewrite length_insert.
  rewrite list_lookup_insert_eq by (by eapply lookup_lt_Some). split.
  - intros (p0 & Hp0 & Hl). simplify_eq. eexists. split; [done|].
    cbn. by rewrite !length_insert.
  - intros (p0 & Hp0 & Hl). simplify_eq. exists p. split; [done|].
    cbn in Hl. by rewrite !length_insert in Hl.
Qed.

Lemma allocate_loop_fits k i amounts L :
  fits k (i + length amounts) L →
  ∃ L', R.allocate_loop k i amounts L = (L', Ret ()).
Proof.
  revert i L. induction amounts as [|q rest IH]; intros i L Hfits;
    cbn [R.allocate_loop]; [by eexists|].
  simpl in Hfits. destruct L as [ps rs].
  destruct Hfits as (p & Hp & Hla & Hln & Hlr). cbn [fst snd] in *.
  destruct (lookup_lt_is_Some_2 (R.allocated_resources p) i) as [a Ha]; [lia|].
  destruct (lookup_lt_is_Some_2 (R.need_resources p) i) as [n Hn]; [lia|].
  destruct (lookup_lt_is_Some_2 rs i) as [r Hr]; [lia|].
  pose proof (moves_intro k i q ps rs p a n r Hp Ha Hn Hr) as Hm.
  rewrite (proj2 (allocate_item_Ret _ _ _ _ _) Hm).
  apply IH. apply (moves_fits _ _ _ _ _ _ Hm).
  exists p. split; [done|]. cbn [snd]. lia.
Qed.

Lemma allocate_loop_Ret_fits k i amounts L L' :
  R.allocate_loop k i amounts L = (L', Ret ()) →
  amounts = [] ∨ fits k (i + length amounts) L.
Proof.
  revert i L. induction amounts as [|q rest IH]; intros i L;
    cbn [R.allocate_loop]; [by left|].
  destruct (R.allocate_item k i q L) as [L1 [[]|e|]] eqn:Hitem; [|done..].
  apply allocate_item_Ret in Hitem. intros Hloop. right.
  destruct (IH _ _ Hloop) as [->|Hfits].
  - inversion Hitem as [ps rs p a n r Hp Ha Hn Hr]; subst.
    exists p. cbn [fst snd length]. split; [done|].
    apply lookup_lt_Some in Ha, Hn, Hr. lia.
  - apply (moves_fits _ _ _ _ _ _ Hitem).
    by replace (i + length (q :: rest))%nat with (S i + length rest)%nat
      by (simpl; lia).
Qed.

Lemma release_loop_allocate_loop k i release L :
  R.release_loop k i release L = R.allocate_loop k i (Z.opp <$> release) L.
Proof.
  revert i L. induction release as [|rel rest IH]; intros i L;
    cbn [R.release_loop R.allocate_loop fmap list_fmap]; [done|].
  rewrite release_item_allocate_item.
  destruct (R.allocate_item k i (- rel) L) as [L1 [[]|e|]]; [|done..].
  apply IH.
Qed.

Lemma applied_fits k i amounts L n :
  fits k n L → fits k n (applied k i amounts L).
Proof.
  intros (p & Hp & Hl). unfold fits, applied. cbn [fst snd].
  rewrite list_lookup_alter_eq, Hp. eexists. split; [done|].
  cbn. by rewrite !length_alters.
Qed.

Lemma applied_inverse k i amounts L :
  applied k i (Z.opp <$> amounts) (applied k i amounts L) = L.
Proof.
  destruct L as [ps rs]. unfold applied. cbn [fst snd]. f_equal.
  - rewrite list_alter_alter_eq. apply list_alter_id. intros [].
    cbn. f_equal; apply alters_inverse; intros; lia.
  - apply alters_inverse. intros q []. cbn. f_equal. lia.
Qed.

Lemma list_find_applied k i amounts L process_id p :
  list_find (λ p, R.pid p = process_id) L.1 = Some (k, p) →
  ∃ p', list_find (λ p, R.pid p = process_id) (applied k i amounts L).1
        = Some (k, p') ∧
        (applied k i amounts L).1 !! k = Some p'.
Proof.
  intros (Hp & Hpid & Hfirst)%list_find_Some. unfold applied. cbn [fst].
  eexists. split; [|by rewrite list_lookup_alter_eq, Hp].
  apply list_find_Some. split_and!.
  - by rewrite list_lookup_alter_eq, Hp.
  - done.
  - intros j y Hy Hj. rewrite list_lookup_alter_ne in Hy by lia.
    by eapply Hfirst.
Qed.

(** Grant, then release.  When [simulate_request_bankers] has granted a
    request of a process that held no negative amount, releasing the same
    vector with [deallocate_resources] succeeds and gives back the ledger as
    it was before the request, entry for entry. *)
Theorem grant_then_release_restores L process_id request :
  was_granted (R.simulate_request_bankers L process_id request).2 →
  (∀ k p, list_find (λ p, R.pid p = process_id) L.1 = Some (k, p) →
          Forall (Z.le 0) (R.allocated_resources p)) →
  R.deallocate_resources (R.simulate_request_bankers L process_id request).1
    process_id request
  = (L, Ret (R.mkRelease true ("Resources released from " +:+ process_id))).
Proof.
  intros (a & Hrun & Hgranted) Hheld.
  pose proof (simulate_request_bankers_cases L process_id request) as Hc.
  cbn zeta in Hc. rewrite Hrun, Hgranted in Hc.
  destruct Hc as (k & p & Hfind & Hloop).
  specialize (Hheld k p Hfind).
  pose proof (allocate_loop_applied _ _ _ _ _ Hloop) as HL'.
  destruct (R.simulate_request_bankers L process_id request) as [L' r].
  cbn [fst snd] in *. subst L'.
  destruct (list_find_applied k 0 request L process_id p Hfind)
    as (p' & Hfind' & Hp').
  unfold R.deallocate_resources. rewrite Hfind'.
  pose proof Hfind as (Hp & _)%list_find_Some.
  destruct (applied_receives k request L p Hp)
    as (p0 & p0' & Hp0 & Hp0' & _ & _ & _ & Halloc & _).
  assert (p0 = p) as -> by congruence.
  assert (p0' = p') as -> by congruence.
  rewrite any_gt_false_intro.
  2: { intros i q x Hq Hx. rewrite Halloc, Hq in Hx.
       destruct (R.allocated_resources p !! i) as [held|] eqn:Hi; [|done].
       apply (Forall_lookup_1 _ _ _ _ Hheld) in Hi. simplify_eq/=. lia. }
  rewrite release_loop_allocate_loop.
  assert (∃ L'', R.allocate_loop k 0 (Z.opp <$> request)
                   (applied k 0 request L) = (L'', Ret ())) as [L'' Hback].
  { destruct (allocate_loop_Ret_fits _ _ _ _ _ Hloop) as [->|Hfits];
      [by eexists|].
    apply allocate_loop_fits. rewrite length_fmap. by apply applied_fits. }
  rewrite Hback. apply allocate_loop_applied in Hback as ->.
  by rewrite applied_inverse.
Qed.

Lemma modest_claim_holds_nothing_negative k p :
  list_find (λ p, R.pid p = "A") modest_claim.1 = Some (k, p) →
  Forall (Z.le 0) (R.allocated_resources p).
Proof. intros [= <- <-]. by repeat constructor. Qed.

Lemma grant_then_release_restores_modest_claim :
  was_granted (R.simulate_request_bankers modest_claim "A" [1]).2 ∧
  R.deallocate_resources (R.simulate_request_bankers modest_claim "A" [1]).1
    "A" [1]
  = (modest_claim, Ret (R.mkRelease true ("Resources released from " +:+ "A"))).
Proof.
  pose proof modest_claim_granted as Hgranted.
  split; [done|].
  exact (grant_then_release_restores modest_claim "A" [1] Hgranted
           modest_claim_holds_nothing_negative).
Defined.

(** ** Nothing is handed out that is not there *)

Lemma available_nonneg_guarded : guarded available_nonneg.
Proof.
  intros k request amounts L L' Hloop Hle Hdom Hnn.
  apply allocate_loop_applied in Hloop as ->.
  intros j r'. unfold applied. cbn [snd]. rewrite alters_lookup, Nat.sub_0_r.
  destruct (L.2 !! j) as [r|] eqn:Hr; [|done]. intros [= <-].
  destruct (amounts !! j) as [q|] eqn:Hq; simpl; [|by eapply Hnn].
  destruct (Forall2_lookup_l _ _ _ _ _ Hdom Hq) as (q' & Hq' & Hqq').
  assert (q' ≤ R.available_instances r); [|lia].
  eapply all_le_true; [done..|]. by rewrite list_lookup_fmap, Hr.
Qed.

Lemma Forall2_le_refl (v : list Z) : Forall2 Z.le v v.
Proof. induction v; constructor; done || lia. Qed.

Lemma fcfs_loop_guarded P sorted requests L results L' results' :
  guarded P →
  R.fcfs_loop sorted requests L results = (L', Ret results') →
  P L → P L'.
Proof.
  intros HP. revert L results.
  induction requests as [|[pid_ request] rest IH]; intros L results;
    cbn [R.fcfs_loop].
  - by intros [= <- <-].
  - destruct (R.find_sorted sorted pid_) as [k|]; [|by apply IH].
    destruct (all_le request _) eqn:Hle; [|by apply IH].
    destruct (R.allocate_loop k 0 request L) as [L1 [[]|e|]] eqn:Halloc;
      [|done..].
    intros Hloop HL. apply (IH _ _ Hloop).
    eapply HP; [done..|apply Forall2_le_refl|done].
Qed.

Lemma priority_loop_guarded P queue L results L' results' :
  guarded P →
  R.priority_loop queue L results = (L', Ret results') →
  P L → P L'.
Proof.
  intros HP. revert L results.
  induction queue as [|[[prio pid_] request] rest IH]; intros L results;
    cbn [R.priority_loop].
  - by intros [= <- <-].
  - destruct (list_find _ L.1) as [[k p]|]; [|done].
    destruct (all_le request _) eqn:Hle; [|by apply IH].
    destruct (R.allocate_loop k 0 request L) as [L1 [[]|e|]] eqn:Halloc;
      [|done..].
    intros Hloop HL. apply (IH _ _ Hloop).
    eapply HP; [done..|apply Forall2_le_refl|done].
Qed.

Lemma round_robin_while_guarded P fuel time_quantum queue L results L' results' :
  guarded P →
  R.round_robin_while fuel time_quantum queue L results = (L', Ret results') →
  P L → P L'.
Proof.
  intros HP. revert queue L results.
  induction fuel as [|fuel IH]; intros [|[pid_ request] queue] L results;
    cbn [R.round_robin_while]; try done.
  - by intros [= <- <-].
  - by intros [= <- <-].
  - destruct (list_find _ L.1) as [[k p]|]; [|by apply IH].
    destruct (all_le request _) eqn:Hle; [|by apply IH].
    destruct (R.list_max request) as [largest|e|]; [|done..].
    destruct (R.allocate_loop k 0 _ L) as [L1 [[]|e|]] eqn:Halloc; [|done..].
    destruct (L1.1 !! k) as [q|]; [|done].
    assert (HL1 : P L → P L1).
    { eapply HP; [done..|]. apply Forall2_fmap_l, Forall_Forall2_diag.
      apply Forall_forall. intros x _. unfold compose. lia. }
    destruct (forallb _ _); intros Hloop HL; by apply (IH _ _ _ Hloop), HL1.
Qed.

(** No policy hands out what is not available.  On a ledger with no
    negative [available_instances], every returning run of
    [fcfs_allocation], [priority_allocation] and [round_robin_allocation],
    and every call of [simulate_request_bankers], leaves none negative,
    whatever the sign and size of the requests. *)
Theorem no_policy_overdraws L :
  available_nonneg L →
  (∀ requests L' results,
     R.fcfs_allocation L requests = (L', Ret results) → available_nonneg L') ∧
  (∀ requests L' results,
     R.priority_allocation L requests = (L', Ret results) →
     available_nonneg L') ∧
  (∀ fuel requests time_quantum L' results,
     R.round_robin_allocation fuel L requests time_quantum = (L', Ret results) →
     available_nonneg L') ∧
  (∀ process_id request,
     available_nonneg (R.simulate_request_bankers L process_id request).1).
Proof.
  intros HL. pose proof available_nonneg_guarded as HP. split_and!.
  - intros requests L' results Hrun. by eapply fcfs_loop_guarded.
  - intros requests L' results Hrun. by eapply priority_loop_guarded.
  - intros fuel requests time_quantum L' results Hrun.
    by eapply round_robin_while_guarded.
  - intros process_id request. destruct L as [ps rs].
    unfold R.simulate_request_bankers.
    destruct (list_find _ ps) as [[k p]|]; [|done].
    destruct (any_gt request (R.need_resources p)); [done|].
    destruct (any_gt request (R.available_instances <$> rs)) eqn:Hany; [done|].
    destruct (R.allocate_loop k 0 request (ps, rs)) as [[tps trs] [[]|e|]]
      eqn:Hloop; [|done..].
    destruct (R.bankers_algorithm tps trs) as [res|e|]; [|done..].
    destruct (safe res); [|done]. cbn [fst].
    eapply HP; [done| | |done].
    + rewrite any_gt_all_le. cbn [snd]. by rewrite Hany.
    + apply Forall2_le_refl.
Qed.

Lemma modest_claim_available_nonneg : available_nonneg modest_claim.
Proof. intros [|i] r Hr; cbv in Hr; by simplify_eq. Qed.

Lemma no_policy_overdraws_modest_claim :
  available_nonneg modest_claim ∧
  available_nonneg (R.simulate_request_bankers modest_claim "A" [1]).1.
Proof.
  pose proof modest_claim_available_nonneg as Hnn.
  split; [done|].
  exact (proj2 (proj2 (proj2 (no_policy_overdraws modest_claim Hnn))) "A" [1]).
Defined.

(** ** Release *)

Lemma holding_two_allocated_nonneg : allocated_nonneg holding_two.
Proof.
  intros [|k] p [|i] a Hp Ha; cbv in Hp; simplify_eq; cbv in Ha; by simplify_eq.
Qed.

(** [deallocate_resources] never takes back more than is held.  A call that
    returns either refuses (unknown process, or some [release[i]] above
    [allocated[i]]) and leaves the ledger as it was, or succeeds, and then
    the process has given back exactly the release vector and, if no
    [allocated] entry was negative before, none is negative after. *)
Theorem deallocate_resources_bounds L process_id release L' res :
  allocated_nonneg L →
  R.deallocate_resources L process_id release = (L', Ret res) →
  if R.success res then
    (∃ k p, list_find (λ p, R.pid p = process_id) L.1 = Some (k, p) ∧
            receives k (Z.opp <$> release) L L') ∧
    allocated_nonneg L'
  else L' = L.
Proof.
  intros Hnn. unfold R.deallocate_resources.
  destruct (list_find _ L.1) as [[k p]|] eqn:Hfind; [|by intros [= <- <-]].
  destruct (any_gt release _) eqn:Hany; [by intros [= <- <-]|].
  rewrite release_loop_allocate_loop.
  destruct (R.allocate_loop k 0 _ L) as [L1 [[]|e|]] eqn:Hloop; [|done..].
  intros [= <- <-]. cbn [R.success].
  apply allocate_loop_applied in Hloop as ->.
  pose proof Hfind as (Hp & _)%list_find_Some.
  pose proof (applied_receives k (Z.opp <$> release) L p Hp) as Hrec.
  split; [by exists k, p|].
  destruct Hrec as (p0 & p' & Hp0 & Hp' & _ & _ & _ & Halloc & _ & Hframe & _).
  assert (p0 = p) as -> by congruence.
  intros k' q i a Hq Ha. destruct (decide (k' = k)) as [->|Hne].
  - assert (q = p') as -> by congruence.
    rewrite Halloc, list_lookup_fmap in Ha.
    destruct (R.allocated_resources p !! i) as [held|] eqn:Hheld; [|done].
    pose proof (Hnn k p i held Hp Hheld).
    destruct (release !! i) as [rel|] eqn:Hrel; simplify_eq/=; [|lia].
    pose proof (any_gt_false _ _ _ _ _ Hany Hrel Hheld). lia.
  - rewrite Hframe in Hq by done. by eapply Hnn.
Qed.

Lemma deallocate_resources_bounds_holding_two :
  allocated_nonneg holding_two ∧
  R.deallocate_resources holding_two "A" [1]
  = (applied 0 0 [-1] holding_two,
     Ret (R.mkRelease true ("Resources released from " +:+ "A"))) ∧
  allocated_nonneg (applied 0 0 [-1] holding_two).
Proof.
  pose proof holding_two_allocated_nonneg as Hnn.
  assert (Hrun : R.deallocate_resources holding_two "A" [1]
                 = (applied 0 0 [-1] holding_two,
                    Ret (R.mkRelease true ("Resources released from " +:+ "A"))))
    by reflexivity.
  split_and!; [done..|].
  exact (proj2 (deallocate_resources_bounds holding_two "A" [1] _ _ Hnn Hrun)).
Defined.

(** ** Conservation by the allocation loops *)

Lemma allocation_loops_conserve_holding_two :
  conserved holding_two ∧
  conserved (R.simulate_request_bankers holding_two "A" [1]).1.
Proof.
  pose proof holding_two_conserved as Hc.
  split; [done|].
  exact (proj1 (proj2 (proj2 (proj2 (allocation_loops_conserve holding_two Hc))))
           "A" [1]).
Defined.

(** ** Banker's algorithm decides safety *)

Lemma filter_all {A} (P : A → Prop) `{∀ x, Decision (P x)} (l : list A) :
  Forall P l → filter P l = l.
Proof.
  induction 1 as [|x l Hx Hl IH]; [done|].
  by rewrite filter_cons_True, IH.
Qed.

Lemma unfinished_positions_grant flags i :
  flags !! i = Some false →
  unfinished_positions flags ≡ₚ i :: unfinished_positions (<[i := true]> flags).
Proof.
  intros Hi. unfold unfinished_positions. rewrite length_insert.
  apply NoDup_Permutation.
  - apply NoDup_filter, NoDup_seq.
  - apply NoDup_cons. split; [|apply NoDup_filter, NoDup_seq].
    intros (Hfalse & _)%list_elem_of_filter.
    rewrite list_lookup_insert_eq in Hfalse by (by eapply lookup_lt_Some). done.
  - intros j. rewrite elem_of_cons, !list_elem_of_filter, !elem_of_seq.
    destruct (decide (j = i)) as [->|Hne].
    + split; [by left|]. intros _. split; [done|].
      apply lookup_lt_Some in Hi. lia.
    + rewrite list_lookup_insert_ne by done. naive_solver.
Qed.

Lemma unfinished_positions_all_finished flags :
  Forall (λ f, f = true) flags → unfinished_positions flags = [].
Proof.
  intros Hall. unfold unfinished_positions.
  apply elem_of_nil_inv. intros j (Hj & _)%list_elem_of_filter.
  by apply (Forall_lookup_1 _ _ _ _ Hall) in Hj.
Qed.

Lemma unfinished_positions_initial n :
  unfinished_positions (replicate n false) = seq 0 n.
Proof.
  unfold unfinished_positions. rewrite length_replicate.
  apply filter_all, Forall_forall. intros j Hj%elem_of_seq.
  apply lookup_replicate_2. lia.
Qed.

(** A [Safe] run is a replay of the unfinished processes. *)
Lemma runs_replays processes st v :
  Contract.runs processes st v →
  ∀ s, v = Contract.Safe s →
  ∃ order,
    order ≡ₚ unfinished_positions (finish st) ∧
    replays processes (work st) order ∧
    s = sequence st ++ pids_at processes order.
Proof.
  induction 1 as [st Hall|st Hsome Hno|st i p v Hsel Hv IH]; intros s Hs.
  - simplify_eq. exists []. rewrite unfinished_positions_all_finished by done.
    by rewrite app_nil_r.
  - done.
  - destruct (IH s Hs) as (order & Hperm & Hreplay & ->).
    destruct Hsel as (Hp & Hu & He & _).
    exists (i :: order). split_and!.
    + rewrite (unfinished_positions_grant _ i Hu). by constructor.
    + simpl. by exists p.
    + unfold pids_at. simpl. rewrite Hp. simpl. by rewrite <- app_assoc.
Qed.

Lemma bankers_algorithm_runs processes resources :
  Contract.well_shaped processes resources →
  ∃ v, Contract.runs processes (D.initial processes resources) v ∧
       D.bankers_algorithm processes resources
       = Ret (Contract.verdict_result v).
Proof.
  intros Hshape.
  apply (bankers_while_spec processes resources Hshape);
    [apply initial_inv|simpl; lia].
Qed.

(** The sequence of a safe verdict can be replayed.  When
    [bankers_algorithm] answers safe, its sequence names every process
    exactly once (the positions form a permutation of all positions), and in
    that order every process finds its need covered by the available vector
    increased by the allocations of the processes before it. *)
Theorem safe_sequence_replays processes resources sequence_ :
  Contract.well_shaped processes resources →
  D.bankers_algorithm processes resources = Ret (safe_result sequence_) →
  ∃ order,
    order ≡ₚ seq 0 (length processes) ∧
    replays processes (D.available_instances <$> resources) order ∧
    sequence_ = pids_at processes order.
Proof.
  intros Hshape Hrun.
  destruct (bankers_algorithm_runs processes resources Hshape)
    as (v & Hv & Heq).
  rewrite Heq in Hrun. destruct v as [s|]; [|done].
  cbn in Hrun. simplify_eq.
  destruct (runs_replays _ _ _ Hv sequence_ eq_refl)
    as (order & Hperm & Hreplay & ->).
  exists order. split_and!; [|done..].
  rewrite Hperm. unfold D.initial. cbn [finish].
  by rewrite unfinished_positions_initial.
Qed.

Lemma scenario_A_well_shaped :
  Contract.well_shaped scenario_A_processes scenario_A_resources.
Proof. repeat (constructor; [by split|]). constructor. Qed.

Lemma safe_sequence_replays_scenario_A :
  Contract.well_shaped scenario_A_processes scenario_A_resources ∧
  D.bankers_algorithm scenario_A_processes scenario_A_resources
  = Ret (safe_result ["P1"; "P3"; "P0"; "P2"; "P4"]) ∧
  ∃ order,
    order ≡ₚ seq 0 (length scenario_A_processes) ∧
    replays scenario_A_processes
      (D.available_instances <$> scenario_A_resources) order ∧
    ["P1"; "P3"; "P0"; "P2"; "P4"] = pids_at scenario_A_processes order.
Proof.
  pose proof scenario_A_well_shaped as Hshape.
  split_and!; [done|reflexivity|].
  exact (safe_sequence_replays scenario_A_processes scenario_A_resources
           ["P1"; "P3"; "P0"; "P2"; "P4"] Hshape eq_refl).
Defined.

Lemma first_such (P : nat → Prop) `{∀ i, Decision (P i)} n :
  P n → ∃ j, P j ∧ ∀ k, (k < j)%nat → ¬ P k.
Proof.
  induction (lt_wf n) as [n _ IH]. intros Hn.
  destruct (decide (Exists P (seq 0 n))) as [Hex|Hnone].
  - apply Exists_exists in Hex as (k & Hk%elem_of_seq & HPk).
    apply (IH k); [lia|done].
  - exists n. split; [done|]. intros k Hk HPk. apply Hnone.
    apply Exists_exists. exists k. split; [|done]. apply elem_of_seq. lia.
Qed.

Global Instance grantable_dec processes st i : Decision (grantable processes st i).
Proof.
  unfold grantable, Contract.unfinished, Contract.eligible.
  destruct (processes !! i); apply _.
Defined.

Lemma grantable_selects processes st i :
  grantable processes st i → ∃ j p, Contract.selects processes st j p.
Proof.
  intros Hi. destruct (first_such (grantable processes st) i Hi)
    as (j & Hj & Hfirst).
  unfold grantable in Hj. destruct (processes !! j) as [p|] eqn:Hp; [|done].
  exists j, p. destruct Hj as [Hu He]. split_and!; [done..|].
  intros k q Hk Hq Hgr. apply (Hfirst k Hk). unfold grantable. by rewrite Hq.
Qed.

Lemma released_nonneg processes flags r order :
  holds_nonneg processes → 0 ≤ released processes flags r order.
Proof.
  intros Hnn. induction order as [|i rest IH]; simpl; [done|].
  case_decide; [|lia].
  destruct (processes !! i) as [p|] eqn:Hp; simpl; [|lia].
  destruct (D.allocated_resources p !! r) as [a|] eqn:Ha; simpl; [|lia].
  apply (Forall_lookup_1 _ _ _ _ Hnn) in Hp.
  apply (Forall_lookup_1 _ _ _ _ Hp) in Ha. lia.
Qed.

Lemma released_none_finished processes n r order :
  released processes (replicate n false) r order = 0.
Proof.
  induction order as [|i rest IH]; simpl; [done|].
  rewrite decide_False; [lia|].
  intros Hi%lookup_replicate. by destruct Hi.
Qed.

Lemma released_insert_other processes flags r order i :
  i ∉ order →
  released processes (<[i := true]> flags) r order
  = released processes flags r order.
Proof.
  induction order as [|j rest IH]; simpl; [done|].
  intros [Hne Hrest]%not_elem_of_cons.
  by rewrite list_lookup_insert_ne, IH.
Qed.

Lemma released_insert processes flags r order i :
  NoDup order → i ∈ order → flags !! i = Some false →
  released processes (<[i := true]> flags) r order
  = released processes flags r order
    + default 0 (processes !! i ≫= λ p, D.allocated_resources p !! r).
Proof.
  intros Hnodup Hin Hi. induction order as [|j rest IH]; simpl.
  { by apply elem_of_nil in Hin. }
  apply NoDup_cons in Hnodup as [Hj Hnodup].
  destruct (decide (j = i)) as [->|Hne].
  - rewrite list_lookup_insert_eq by (by eapply lookup_lt_Some).
    rewrite released_insert_other by done.
    rewrite decide_True by done. rewrite decide_False by congruence. lia.
  - rewrite list_lookup_insert_ne by done.
    apply elem_of_cons in Hin as [->|Hin]; [done|].
    rewrite IH by done. lia.
Qed.

(** If some order replays from [available], a process of the order that is
    not finished can be granted from any working vector that accounts for
    the finished ones. *)
Lemma replays_progress processes m flags working available order :
  Forall (λ p, length (D.need_resources p) = m ∧
               length (D.allocated_resources p) = m) processes →
  holds_nonneg processes →
  length working = m → length available = m →
  replays processes available order →
  (∀ r x y, available !! r = Some x → working !! r = Some y →
            x + released processes flags r order ≤ y) →
  (∃ i, i ∈ order ∧ flags !! i = Some false) →
  (∀ i, i ∈ order → is_Some (flags !! i)) →
  ∃ i p, processes !! i = Some p ∧ flags !! i = Some false ∧
         Forall2 Z.le (D.need_resources p) working.
Proof.
  intros Hshape Hnn Hlw. revert available.
  induction order as [|i rest IH];
    intros available Hla Hreplay Hdom (j & Hj & Hjf) Hflags.
  { by apply elem_of_nil in Hj. }
  destruct Hreplay as (p & Hp & Hneed & Hrest).
  pose proof (Forall_lookup_1 _ _ _ _ Hshape Hp) as [Hln Hlal].
  destruct (Hflags i) as [b Hb]; [by left|]. destruct b.
  - apply (IH (zip_with Z.add available (D.allocated_resources p))).
    + rewrite length_zip_with. lia.
    + done.
    + intros r x y Hx Hy.
      apply lookup_zip_with_Some in Hx as (xa & a & -> & Hxa & Ha).
      specialize (Hdom r xa y Hxa Hy). simpl in Hdom.
      rewrite decide_True in Hdom by done. rewrite Hp in Hdom. simpl in Hdom.
      rewrite Ha in Hdom. simpl in Hdom. lia.
    + exists j. split; [|done].
      apply elem_of_cons in Hj as [->|Hj]; [congruence|done].
    + intros k Hk. apply Hflags. by right.
  - exists i, p. split_and!; [done..|].
    apply Forall2_same_length_lookup_2; [lia|].
    intros r n y Hn Hy.
    destruct (lookup_lt_is_Some_2 available r) as [x Hx].
    { apply lookup_lt_Some in Hn. lia. }
    pose proof (Forall2_lookup_lr _ _ _ _ _ _ Hneed Hn Hx).
    specialize (Hdom r x y Hx Hy).
    pose proof (released_nonneg processes flags r (i :: rest) Hnn). lia.
Qed.

Lemma work_accounts_grant processes resources order st i p :
  Contract.well_shaped processes resources →
  banker_inv (length processes) (length resources) st →
  order ≡ₚ seq 0 (length processes) →
  Contract.selects processes st i p →
  work_accounts processes (D.available_instances <$> resources) order st →
  work_accounts processes (D.available_instances <$> resources) order
    (Contract.grant st i p).
Proof.
  intros Hshape (Hf & Hw & _) Hperm (Hp & Hu & _) Hacc r x a Hx Ha.
  cbn [Contract.grant work finish] in *.
  apply lookup_zip_with_Some in Hx as (x0 & al & -> & Hx0 & Hal).
  rewrite released_insert; [| |..|done].
  - rewrite Hp. simpl. rewrite Hal. simpl.
    specialize (Hacc r x0 a Hx0 Ha). lia.
  - rewrite Hperm. apply NoDup_seq.
  - rewrite Hperm. apply elem_of_seq. apply lookup_lt_Some in Hp. lia.
Qed.

Lemma runs_finds_safe_order processes resources order st v :
  Contract.well_shaped processes resources →
  holds_nonneg processes →
  order ≡ₚ seq 0 (length processes) →
  replays processes (D.available_instances <$> resources) order →
  Contract.runs processes st v →
  banker_inv (length processes) (length resources) st →
  work_accounts processes (D.available_instances <$> resources) order st →
  v ≠ Contract.Unsafe.
Proof.
  intros Hshape Hnn Hperm Hreplay Hruns.
  induction Hruns as [st Hall|st [i Hi] Hno|st i p v Hsel Hv IH];
    intros Hinv Hacc; [done| |].
  - exfalso. destruct Hinv as (Hf & Hw & _).
    destruct (replays_progress processes (length resources) (finish st)
                (work st) (D.available_instances <$> resources) order)
      as (j & q & Hq & Hjf & Hel); try done.
    + by rewrite length_fmap.
    + intros r x y Hx Hy. specialize (Hacc r y x Hy Hx). lia.
    + exists i. split; [|done]. rewrite Hperm. apply elem_of_seq.
      apply lookup_lt_Some in Hi. lia.
    + intros k Hk. rewrite Hperm in Hk. apply elem_of_seq in Hk.
      apply lookup_lt_is_Some_2. lia.
    + destruct (grantable_selects processes st j) as (j' & q' & Hsel).
      { unfold grantable. by rewrite Hq. }
      by apply (Hno j' q').
  - apply IH.
    + by apply (grant_inv processes resources Hshape).
    + by eapply work_accounts_grant.
Qed.

(** Every safe state is found.  When no process holds a negative amount and
    some order of all the processes can be replayed from the available
    vector, [bankers_algorithm] answers safe: an [Unsafe] verdict means that
    no order whatever lets every process finish. *)
Theorem safe_state_is_found processes resources :
  Contract.well_shaped processes resources →
  holds_nonneg processes →
  safe_state processes resources →
  ∃ sequence_,
    D.bankers_algorithm processes resources = Ret (safe_result sequence_).
Proof.
  intros Hshape Hnn (order & Hperm & Hreplay).
  destruct (bankers_algorithm_runs processes resources Hshape)
    as (v & Hv & ->).
  destruct v as [s|]; [by exists s|]. exfalso.
  eapply (runs_finds_safe_order processes resources order); try done.
  - apply initial_inv.
  - intros r x a Hx Ha. unfold D.initial in *. cbn [work finish] in *.
    rewrite released_none_finished. simplify_eq. lia.
Qed.

Lemma scenario_A_holds_nonneg : holds_nonneg scenario_A_processes.
Proof. repeat (constructor; [by repeat constructor|]). constructor. Qed.

Lemma scenario_A_safe_state :
  safe_state scenario_A_processes scenario_A_resources.
Proof.
  exists [1; 3; 0; 2; 4]%nat. split.
  - apply NoDup_Permutation.
    + repeat (apply NoDup_cons; split; [set_solver|]). constructor.
    + apply NoDup_seq.
    + intros x. cbn. set_solver.
  - cbn.
    repeat (eexists; split; [reflexivity|];
            split; [by repeat (constructor; [lia|])|]; cbn).
    done.
Qed.

Lemma safe_state_is_found_scenario_A :
  Contract.well_shaped scenario_A_processes scenario_A_resources ∧
  holds_nonneg scenario_A_processes ∧
  safe_state scenario_A_processes scenario_A_resources ∧
  ∃ sequence_,
    D.bankers_algorithm scenario_A_processes scenario_A_resources
    = Ret (safe_result sequence_).
Proof.
  pose proof scenario_A_well_shaped as Hshape.
  pose proof scenario_A_holds_nonneg as Hnn.
  pose proof scenario_A_safe_state as Hsafe.
  split_and!; [done..|].
  exact (safe_state_is_found scenario_A_processes scenario_A_resources
           Hshape Hnn Hsafe).
Defined.

(** A negative holding defeats the greedy scan: P1 then P0 replays, but the
    scan grants P0 first, loses an instance to its negative allocation, and
    answers unsafe. *)
Example negative_holding_misjudged :
  safe_state negative_holding.1 negative_holding.2 ∧
  D.bankers_algorithm negative_holding.1 negative_holding.2 = Ret unsafe_result.
Proof.
  split; [|reflexivity]. exists [1; 0]%nat. split.
  - apply perm_swap.
  - cbn.
    repeat (eexists; split; [reflexivity|];
            split; [by repeat (constructor; [lia|])|]; cbn).
    done.
Qed.

Lemma replays_mono processes available available' order :
  Forall2 Z.le available available' →
  replays processes available order → replays processes available' order.
Proof.
  revert available available'.
  induction order as [|i rest IH]; intros w w' Hle; [done|].
  intros (p & Hp & Hneed & Hrest). exists p. split_and!; [done|..].
  - eapply Forall2_trans; [|done..]. intros x y z. lia.
  - eapply IH; [|done]. clear -Hle.
    generalize (D.allocated_resources p) as al.
    induction Hle as [|x y w w' Hxy Hle IH]; intros [|a al]; simpl;
      constructor; [lia|apply IH].
Qed.

(** More available instances never turn a safe state unsafe.  When no
    process holds a negative amount and [bankers_algorithm] answers safe,
    it still answers safe after any number of instances has been made
    available in addition. *)
Theorem more_available_stays_safe processes resources resources' sequence_ :
  Contract.well_shaped processes resources →
  holds_nonneg processes →
  Forall2 (λ r r', D.available_instances r ≤ D.available_instances r')
    resources resources' →
  D.bankers_algorithm processes resources = Ret (safe_result sequence_) →
  ∃ sequence',
    D.bankers_algorithm processes resources' = Ret (safe_result sequence').
Proof.
  intros Hshape Hnn Hmore Hrun.
  destruct (bankers_algorithm_runs processes resources Hshape)
    as (v & Hv & Heq).
  rewrite Heq in Hrun. destruct v as [s|]; [|done].
  destruct (runs_replays _ _ _ Hv s eq_refl) as (order & Hperm & Hreplay & _).
  unfold D.initial in Hperm, Hreplay. cbn [finish work] in Hperm, Hreplay.
  rewrite unfinished_positions_initial in Hperm.
  assert (Hshape' : Contract.well_shaped processes resources').
  { unfold Contract.well_shaped in *.
    by rewrite <- (Forall2_length _ _ _ Hmore). }
  destruct (bankers_algorithm_runs processes resources' Hshape')
    as (v' & Hv' & ->).
  destruct v' as [s'|]; [by exists s'|]. exfalso.
  eapply (runs_finds_safe_order processes resources' order); try done.
  - eapply replays_mono; [|done]. by apply Forall2_fmap.
  - apply initial_inv.
  - intros r x a Hx Ha. unfold D.initial in *. cbn [work finish] in *.
    rewrite released_none_finished. simplify_eq. lia.
Qed.

Lemma more_available_stays_safe_scenario_A :
  Contract.well_shaped scenario_A_processes scenario_A_resources ∧
  holds_nonneg scenario_A_processes ∧
  Forall2 (λ r r', D.available_instances r ≤ D.available_instances r')
    scenario_A_resources scenario_A_untouched_resources ∧
  D.bankers_algorithm scenario_A_processes scenario_A_resources
  = Ret (safe_result ["P1"; "P3"; "P0"; "P2"; "P4"]) ∧
  ∃ sequence',
    D.bankers_algorithm scenario_A_processes scenario_A_untouched_resources
    = Ret (safe_result sequence').
Proof.
  pose proof scenario_A_well_shaped as Hshape.
  pose proof scenario_A_holds_nonneg as Hnn.
  assert (Hmore : Forall2 (λ r r', D.available_instances r
                                   ≤ D.available_instances r')
                    scenario_A_resources scenario_A_untouched_resources).
  { by repeat (constructor; [cbn; lia|]). }
  split_and!; [done..|reflexivity|].
  exact (more_available_stays_safe scenario_A_processes scenario_A_resources
           scenario_A_untouched_resources _ Hshape Hnn Hmore eq_refl).
Defined.

(** ** A granted request leaves a safe state *)

Lemma bankers_while_verdict fuel processes st res :
  R.bankers_while fuel processes st = Ret res →
  res = unsafe_result ∨ ∃ s, res = safe_result s.
Proof.
  revert st. induction fuel as [|fuel IH]; intros st; simpl; [done|].
  case_bool_decide; [|intros [= <-]; by eauto].
  destruct (R.scan 0 processes st) as [[[] st']| |]; simpl; try done.
  - apply IH.
  - intros [= <-]. by left.
Qed.

Lemma shaped_well_shaped L :
  shaped L →
  Contract.well_shaped (erase_process <$> L.1) (erase_resource <$> L.2).
Proof.
  intros Hshape. apply Forall_fmap, Forall_lookup. intros k p Hp.
  destruct (Hshape k p Hp) as (_ & Ha & Hn). cbn. by rewrite length_fmap.
Qed.

Lemma simulate_request_bankers_checked L process_id request :
  was_granted (R.simulate_request_bankers L process_id request).2 →
  ∃ s, R.bankers_algorithm
         (R.simulate_request_bankers L process_id request).1.1
         (R.simulate_request_bankers L process_id request).1.2
       = Ret (safe_result s).
Proof.
  destruct L as [ps rs]. unfold R.simulate_request_bankers.
  intros (a & Hrun & Hgranted). revert Hrun.
  destruct (list_find _ ps) as [[k p]|]; [|intros; by simplify_eq/=].
  destruct (any_gt request (R.need_resources p)); [intros; by simplify_eq/=|].
  destruct (any_gt request _); [intros; by simplify_eq/=|].
  destruct (R.allocate_loop k 0 request (ps, rs)) as [[tps trs] [[]|e|]];
    [|done..].
  destruct (R.bankers_algorithm tps trs) as [res|e|] eqn:Hbank; [|done..].
  destruct (safe res) eqn:Hsafe; [|intros; by simplify_eq/=].
  intros _. cbn [fst snd]. rewrite Hbank.
  destruct (bankers_while_verdict _ _ _ _ Hbank) as [->|[s ->]]; [done|].
  by exists s.
Qed.

(** A granted request leaves a safe state.  On a ledger whose vectors have
    one entry per resource, whenever [simulate_request_bankers] grants, the
    ledger it leaves behind passes the safety check, and some order of all
    the processes lets each of them finish. *)
Theorem granted_leaves_safe_state L process_id request :
  shaped L →
  was_granted (R.simulate_request_bankers L process_id request).2 →
  let L' := (R.simulate_request_bankers L process_id request).1 in
  (∃ s, R.bankers_algorithm L'.1 L'.2 = Ret (safe_result s)) ∧
  safe_state (erase_process <$> L'.1) (erase_resource <$> L'.2).
Proof.
  intros Hshape Hgranted L'.
  destruct (simulate_request_bankers_checked L process_id request Hgranted)
    as [s Hs].
  split; [by exists s|].
  assert (Hshape' : shaped L').
  { destruct (operations_keep_stable shaped L shaped_stable Hshape)
      as (_ & _ & _ & Hsim & _). apply Hsim. }
  apply shaped_well_shaped in Hshape'.
  fold L' in Hs. rewrite bankers_algorithm_erase in Hs.
  destruct (bankers_algorithm_runs _ _ Hshape') as (v & Hv & Heq).
  rewrite Heq in Hs. destruct v as [s'|]; [|done].
  destruct (runs_replays _ _ _ Hv s' eq_refl) as (order & Hperm & Hreplay & _).
  exists order. split; [|done].
  rewrite Hperm. unfold D.initial. cbn [finish].
  by rewrite unfinished_positions_initial.
Qed.

Lemma granted_leaves_safe_state_modest_claim :
  shaped modest_claim ∧
  was_granted (R.simulate_request_bankers modest_claim "A" [1]).2 ∧
  let L' := (R.simulate_request_bankers modest_claim "A" [1]).1 in
  (∃ s, R.bankers_algorithm L'.1 L'.2 = Ret (safe_result s)) ∧
  safe_state (erase_process <$> L'.1) (erase_resource <$> L'.2).
Proof.
  pose proof modest_claim_shaped as Hshape.
  pose proof modest_claim_granted as Hgranted.
  split_and!; [done..|].
  exact (granted_leaves_safe_state modest_claim "A" [1] Hshape Hgranted).
Defined.

(** ** The need-versus-availability scan *)

Lemma scan_needs_nil available processes :
  D.scan_needs available processes = [] →
  Forall (λ p, any_gt (D.need_resources p) available = false) processes.
Proof.
  induction processes as [|p rest IH]; simpl; [constructor|].
  destruct (any_gt (D.need_resources p) available) eqn:Hany; [done|].
  intros Hrest. constructor; [done|by apply IH].
Qed.

Lemma replays_in_order processes m available working j :
  Forall (λ p, length (D.need_resources p) = m ∧
               length (D.allocated_resources p) = m) processes →
  holds_nonneg processes →
  length available = m →
  Forall (λ p, any_gt (D.need_resources p) available = false) processes →
  Forall2 Z.le available working →
  replays processes working (seq j (length processes - j)).
Proof.
  intros Hshape Hnn Hla Hfit. revert j working.
  assert (Hgen : ∀ n j working, (j + n = length processes)%nat →
            Forall2 Z.le available working →
            replays processes working (seq j n)).
  { induction n as [|n IH]; intros j working Hn Hle; [done|].
    destruct (lookup_lt_is_Some_2 processes j) as [p Hp]; [lia|].
    pose proof (Forall_lookup_1 _ _ _ _ Hshape Hp) as [Hln Hlal].
    pose proof (Forall_lookup_1 _ _ _ _ Hfit Hp) as Hany.
    pose proof (Forall_lookup_1 _ _ _ _ Hnn Hp) as Hheld.
    cbn beta in Hany, Hheld.
    simpl. exists p. split; [done|split].
    - eapply Forall2_trans; [|
        apply (Forall2_same_length_lookup_2 Z.le (D.need_resources p) available)
        |done].
      + intros x y z. lia.
      + lia.
      + intros i x y Hx Hy. by eapply any_gt_false.
    - apply IH; [lia|].
      apply Forall2_same_length_lookup_2.
      + rewrite length_zip_with.
        pose proof (Forall2_length _ _ _ Hle). lia.
      + intros i x y Hx Hy.
        apply lookup_zip_with_Some in Hy as (w & a & -> & Hw & Ha).
        pose proof (Forall2_lookup_lr _ _ _ _ _ _ Hle Hx Hw).
        apply (Forall_lookup_1 _ _ _ _ Hheld) in Ha. lia. }
  intros j working Hle.
  destruct (decide (j ≤ length processes)%nat).
  - apply Hgen; [lia|done].
  - by replace (length processes - j)%nat with 0%nat by lia.
Qed.

(** The scan errs on the side of alarm only.  When no process holds a
    negative amount and [detect_deadlock_resource_allocation] flags no
    process, [bankers_algorithm] answers safe; so every state that the
    safety check calls unsafe is reported by the scan. *)
Theorem quiet_scan_means_safe processes resources :
  Contract.well_shaped processes resources →
  holds_nonneg processes →
  D.deadlock_detected
    (D.detect_deadlock_resource_allocation processes resources) = false →
  ∃ sequence_,
    D.bankers_algorithm processes resources = Ret (safe_result sequence_).
Proof.
  intros Hshape Hnn Hquiet.
  unfold D.detect_deadlock_resource_allocation in Hquiet. cbn in Hquiet.
  apply bool_decide_eq_false in Hquiet.
  assert (Hnil : D.scan_needs (D.available_instances <$> resources) processes
                 = []).
  { destruct (D.scan_needs _ _); [done|]. simpl in Hquiet. lia. }
  apply scan_needs_nil in Hnil.
  destruct (bankers_algorithm_runs processes resources Hshape)
    as (v & Hv & ->).
  destruct v as [s|]; [by exists s|]. exfalso.
  eapply (runs_finds_safe_order processes resources
            (seq 0 (length processes))); try done.
  - pose proof (replays_in_order processes (length resources)
                  (D.available_instances <$> resources)
                  (D.available_instances <$> resources) 0) as Hreplay.
    rewrite Nat.sub_0_r in Hreplay.
    apply Hreplay; [done|done|by rewrite length_fmap|done|apply Forall2_le_refl].
  - apply initial_inv.
  - intros r x a Hx Ha. unfold D.initial in *. cbn [work finish] in *.
    rewrite released_none_finished. simplify_eq. lia.
Qed.

Lemma modest_claim_erased_holds_nonneg :
  holds_nonneg (erase_ledger modest_claim).1.
Proof. by repeat constructor. Qed.

Lemma quiet_scan_means_safe_modest_claim :
  Contract.well_shaped (erase_ledger modest_claim).1 (erase_ledger modest_claim).2 ∧
  holds_nonneg (erase_ledger modest_claim).1 ∧
  D.deadlock_detected
    (D.detect_deadlock_resource_allocation
       (erase_ledger modest_claim).1 (erase_ledger modest_claim).2) = false ∧
  ∃ sequence_,
    D.bankers_algorithm (erase_ledger modest_claim).1 (erase_ledger modest_claim).2
    = Ret (safe_result sequence_).
Proof.
  pose proof (shaped_well_shaped modest_claim modest_claim_shaped) as Hshape.
  pose proof modest_claim_erased_holds_nonneg as Hnn.
  split_and!; [done|done|reflexivity|].
  exact (quiet_scan_means_safe _ _ Hshape Hnn eq_refl).
Defined.

(** The scan does raise false alarms: scenario A is safe, yet P0, P2 and P4
    are flagged. *)
Example scenario_A_false_alarm :
  D.detect_deadlock_resource_allocation
    scenario_A_processes scenario_A_resources
  = D.mkDeadlock true ["P0"; "P2"; "P4"].
Proof. reflexivity. Qed.

(** ** The processes reported by the wait-for-graph search *)

(** No process is reported without cause.  The keys of the mapping being
    distinct, whenever [detect_deadlock_wait_for_graph] returns, every
    process it lists is a key of the mapping (it waits for some process) and
    waits, directly or through others, for a process that is on a cycle. *)
Theorem reported_processes_wait_into_a_cycle limit g res :
  NoDup g.*1 →
  D.detect_deadlock_wait_for_graph limit g = Ret res →
  ∀ x, x ∈ D.deadlocked_processes res →
       x ∈ g.*1 ∧ waits_into_cycle g x.
Proof.
  intros Hkeys Hrun.
  destruct (detect_deadlock_wait_for_graph_search g Hkeys limit res Hrun)
    as (o & _ & Hreports & Hstack).
  destruct o as [stack|seen]; destruct Hreports as [_ Hlist].
  2: { rewrite Hlist. by intros x ?%elem_of_nil. }
  destruct (Hstack stack eq_refl)
    as (Hnodup & Hlinked & (top & back & Htop & Hedge & Hback) & _).
  intros x Hx. rewrite Hlist in Hx.
  pose proof (linked_reaches g stack top x Hlinked Htop Hx) as Hreach.
  pose proof (linked_reaches g stack top back Hlinked Htop Hback) as Hclose.
  split.
  - apply rtc_inv in Hreach as [->|(y & Hxy & _)]; by eapply waits_for_key.
  - exists top. split; [done|].
    eapply tc_rtc_r; [by apply tc_once|done].
Qed.

Lemma reported_processes_wait_into_a_cycle_tailed_cycle :
  NoDup tailed_cycle.*1 ∧
  ∃ res,
    D.detect_deadlock_wait_for_graph 3 tailed_cycle = Ret res ∧
    ∀ x, x ∈ D.deadlocked_processes res →
         x ∈ tailed_cycle.*1 ∧ waits_into_cycle tailed_cycle x.
Proof.
  assert (Hrun : ∃ res, D.detect_deadlock_wait_for_graph 3 tailed_cycle = Ret res)
    by (eexists; by vm_compute).
  destruct Hrun as [res Hrun].
  split; [apply tailed_cycle_keys|]. exists res. split; [done|].
  exact (reported_processes_wait_into_a_cycle 3 tailed_cycle res
           tailed_cycle_keys Hrun).
Defined.

(** ** Starvation is never seen *)

Lemma check_starvation_none processes time_threshold :
  Forall (λ p, R.wait_time p ≤ time_threshold) processes →
  R.check_starvation processes time_threshold = [].
Proof.
  induction 1 as [|p rest Hp Hrest IH]; simpl; [done|].
  rewrite bool_decide_eq_false_2 by lia. done.
Qed.

Lemma waits_stable time_threshold :
  stable (λ L, Forall (λ p, R.wait_time p ≤ time_threshold) L.1).
Proof.
  intros k i amount L L' Hm HL.
  inversion Hm as [ps rs p a n r Hp Ha Hn Hr]; subst. cbn [fst] in *.
  apply Forall_insert; [done|]. cbn.
  by apply (Forall_lookup_1 _ _ _ _ HL Hp).
Qed.

(** No policy lets a process wait.  [wait_time] is written by the
    constructor only, so when no process has waited longer than the
    threshold before, [check_starvation] reports nobody after any returning
    run of first come first served, priority, round robin, the single
    request or a release, whatever was refused on the way. *)
Theorem starvation_is_never_reported L time_threshold :
  Forall (λ p, R.wait_time p ≤ time_threshold) L.1 →
  (∀ requests L' results,
     R.fcfs_allocation L requests = (L', Ret results) →
     R.check_starvation L'.1 time_threshold = []) ∧
  (∀ requests L' results,
     R.priority_allocation L requests = (L', Ret results) →
     R.check_starvation L'.1 time_threshold = []) ∧
  (∀ fuel requests time_quantum L' results,
     R.round_robin_allocation fuel L requests time_quantum = (L', Ret results) →
     R.check_starvation L'.1 time_threshold = []) ∧
  (∀ process_id request,
     R.check_starvation (R.simulate_request_bankers L process_id request).1.1
       time_threshold = []) ∧
  (∀ process_id release L' res,
     R.deallocate_resources L process_id release = (L', Ret res) →
     R.check_starvation L'.1 time_threshold = []).
Proof.
  intros HL.
  destruct (operations_keep_stable _ L (waits_stable time_threshold) HL)
    as (Hfcfs & Hprio & Hrr & Hsim & Hrel).
  split_and!; intros; apply check_starvation_none; eauto.
Qed.

Lemma starvation_is_never_reported_exhausted :
  Forall (λ p, R.wait_time p ≤ 0) exhausted.1 ∧
  R.check_starvation (R.simulate_request_bankers exhausted "A" [1]).1.1 0 = [].
Proof.
  assert (Hw : Forall (λ p, R.wait_time p ≤ 0) exhausted.1)
    by (by repeat constructor).
  split; [done|].
  exact (proj1 (proj2 (proj2 (proj2 (starvation_is_never_reported exhausted 0 Hw))))
           "A" [1]).
Defined.

(** ** Unknown processes and empty requests *)

Lemma find_sorted_unknown processes pid_ :
  pid_ ∉ R.pid <$> processes →
  R.find_sorted (R.sorted_by_arrival processes) pid_ = None.
Proof.
  intros Hnot. destruct (R.find_sorted _ _) as [k|] eqn:Hfind; [|done].
  apply find_sorted_lookup in Hfind as (p & Hp & <-). destruct Hnot.
  apply list_elem_of_fmap. exists p. split; [done|].
  by eapply list_elem_of_lookup_2.
Qed.

Lemma fcfs_loop_unknown sorted requests L results :
  Forall (λ rq : R.Request, R.find_sorted sorted rq.1 = None) requests →
  R.fcfs_loop sorted requests L results
  = (L, Ret (results ++ ((λ rq : R.Request,
                 mkAdmission false ("Process " +:+ rq.1 +:+ " not found"))
               <$> requests))).
Proof.
  revert results.
  induction requests as [|[pid_ request] rest IH]; intros results Hall;
    cbn [R.fcfs_loop fmap list_fmap].
  - by rewrite app_nil_r.
  - apply Forall_cons in Hall as [Hhead Hrest]. cbn [fst] in Hhead.
    rewrite Hhead, IH by done. by rewrite <- app_assoc.
Qed.

Lemma round_robin_while_unknown fuel time_quantum queue L results :
  Forall (λ rq : R.Request, rq.1 ∉ R.pid <$> L.1) queue →
  (length queue ≤ fuel)%nat →
  R.round_robin_while fuel time_quantum queue L results
  = (L, Ret (results ++ ((λ rq : R.Request,
                 mkAdmission false ("Process " +:+ rq.1 +:+ " not found"))
               <$> queue))).
Proof.
  revert fuel results.
  induction queue as [|[pid_ request] rest IH]; intros fuel results Hall Hfuel.
  - destruct fuel; cbn; by rewrite app_nil_r.
  - destruct fuel as [|fuel]; [simpl in Hfuel; lia|].
    apply Forall_cons in Hall as [Hhead Hrest]. cbn [fst] in Hhead.
    cbn [R.round_robin_while fmap list_fmap].
    rewrite (proj2 (list_find_pid_None _ _) Hhead).
    rewrite IH by (done || simpl in Hfuel; lia). by rewrite <- app_assoc.
Qed.

Lemma priority_requests_unknown processes requests :
  Forall (λ rq : R.Request, rq.1 ∉ R.pid <$> processes) requests →
  R.priority_requests processes requests = [].
Proof.
  induction 1 as [|[pid_ request] rest Hhead Hrest IH]; simpl; [done|].
  cbn [fst] in Hhead. by rewrite (proj2 (list_find_pid_None _ _) Hhead).
Qed.

(** Requests of unknown processes.  When no request of the batch names a
    process of the ledger, the ledger is left as it was: first come first
    served and round robin answer every request with "not found", in batch
    order, and the priority policy answers with an empty list. *)
Theorem unknown_processes_change_nothing L requests :
  Forall (λ rq : R.Request, rq.1 ∉ R.pid <$> L.1) requests →
  let not_found := (λ rq : R.Request,
    mkAdmission false ("Process " +:+ rq.1 +:+ " not found")) <$> requests in
  R.fcfs_allocation L requests = (L, Ret not_found) ∧
  R.priority_allocation L requests = (L, Ret []) ∧
  ∀ fuel time_quantum,
    (length requests ≤ fuel)%nat →
    R.round_robin_allocation fuel L requests time_quantum = (L, Ret not_found).
Proof.
  intros Hall not_found. split_and!.
  - unfold R.fcfs_allocation. rewrite fcfs_loop_unknown; [done|].
    eapply Forall_impl; [done|]. intros rq Hrq. by apply find_sorted_unknown.
  - unfold R.priority_allocation. by rewrite priority_requests_unknown.
  - intros fuel time_quantum Hfuel. unfold R.round_robin_allocation.
    by rewrite round_robin_while_unknown.
Qed.

Lemma unknown_processes_change_nothing_modest_claim :
  Forall (λ rq : R.Request, rq.1 ∉ R.pid <$> modest_claim.1) [("ghost", [1])] ∧
  R.fcfs_allocation modest_claim [("ghost", [1])]
  = (modest_claim, Ret [mkAdmission false "Process ghost not found"]).
Proof.
  assert (Hall : Forall (λ rq : R.Request, rq.1 ∉ R.pid <$> modest_claim.1)
                   [("ghost", [1])]).
  { constructor; [|constructor]. cbn. set_solver. }
  split; [done|].
  exact (proj1 (unknown_processes_change_nothing modest_claim _ Hall)).
Defined.

(** An empty request vector.  For a process of the ledger, first come first
    served grants an empty request and writes nothing, whereas round robin
    raises [ValueError] on it (the maximum of an empty list), with the ledger
    as it was and the rest of the queue unserved. *)
Theorem empty_request_vector L pid_ rest fuel time_quantum :
  pid_ ∈ R.pid <$> L.1 →
  R.fcfs_allocation L [(pid_, [])]
  = (L, Ret [mkAdmission true ("Request by " +:+ pid_ +:+ " granted")]) ∧
  R.round_robin_allocation (S fuel) L ((pid_, []) :: rest) time_quantum
  = (L, Exn ValueError).
Proof.
  intros Hknown. split.
  - unfold R.fcfs_allocation. cbn [R.fcfs_loop].
    destruct (R.find_sorted _ pid_) as [k|] eqn:Hfind; [done|].
    exfalso. unfold R.find_sorted in Hfind.
    destruct (list_find _ _) as [[j [k p]]|] eqn:Hnone; [done|].
    apply list_find_None in Hnone.
    apply list_elem_of_fmap in Hknown as (p & -> & Hp).
    apply list_elem_of_lookup in Hp as [k Hk].
    assert (Hin : (k, p) ∈ R.sorted_by_arrival L.1).
    { unfold R.sorted_by_arrival.
      assert (Hfold : ∀ l, (k, p) ∈ l → (k, p) ∈ foldr R.insert_by_arrival [] l).
      { induction l as [|x l IH]; simpl; [done|].
        rewrite elem_of_insert_by_arrival, elem_of_cons. tauto. }
      apply Hfold. by apply (elem_of_lookup_imap_2 (λ i p, (i, p))). }
    by apply (proj1 (Forall_forall _ _) Hnone _ Hin).
  - unfold R.round_robin_allocation. cbn [R.round_robin_while].
    by destruct (list_find_pid_elem_of _ _ Hknown) as (k & p & ->).
Qed.

Lemma empty_request_vector_modest_claim :
  "A" ∈ R.pid <$> modest_claim.1 ∧
  R.round_robin_allocation 1 modest_claim [("A", [])] 1
  = (modest_claim, Exn ValueError).
Proof.
  assert (Hknown : "A" ∈ R.pid <$> modest_claim.1) by (by apply list_elem_of_here).
  split; [done|].
  exact (proj2 (empty_request_vector modest_claim "A" [] 0 1 Hknown)).
Defined.

(** ** Fair share in closed form *)

Lemma holding_two_shaped : shaped holding_two.
Proof. intros [|k] p Hp; cbv in Hp; by simplify_eq. Qed.

Lemma two_arrivals_shaped : shaped two_arrivals.
Proof. intros [|[|k]] p Hp; cbv in Hp; by simplify_eq. Qed.

Lemma total_allocated_app i ps qs :
  total_allocated i (ps ++ qs) = total_allocated i ps + total_allocated i qs.
Proof.
  unfold total_allocated. rewrite fmap_app.
  generalize ((λ p, default 0 (R.allocated_resources p !! i)) <$> ps) as l.
  induction l as [|x l IH]; simpl; [done|]. rewrite IH. lia.
Qed.

Lemma total_allocated_take_insert i j p' ps :
  (j < length ps)%nat →
  total_allocated i (take (S j) (<[j := p']> ps))
  = total_allocated i (take j ps)
    + default 0 (R.allocated_resources p' !! i).
Proof.
  intros Hj.
  rewrite (take_S_r _ j p') by (by apply list_lookup_insert_eq).
  rewrite take_insert_ge by lia.
  rewrite total_allocated_app. unfold total_allocated at 2. simpl. lia.
Qed.

Lemma fair_progress_initial L : shaped L → fair_progress L 0 0 (L, ∅).
Proof.
  intros Hs. unfold fair_progress. cbn [fst snd]. split_and!; try done.
  - intros k p0 Hp0. exists p0. split_and!; try done.
    intros i r0 cap [Hlt|[_ Hlt]]; lia.
  - intros i r0 Hr0. exists r0. split_and!; try done.
    unfold served_processes. destruct (decide (i < 0)%nat); [lia|].
    destruct (decide (i = 0%nat)); [rewrite take_0|]; unfold total_allocated; simpl; lia.
Qed.

Lemma fair_item_progress L0 i0 j0 st r0 :
  fair_progress L0 i0 j0 st →
  L0.2 !! i0 = Some r0 →
  (j0 < length L0.1)%nat →
  ∃ st',
    R.fair_item i0 j0
      (R.total_instances r0 `div` Z.of_nat (length L0.1))
      (R.total_instances r0 `mod` Z.of_nat (length L0.1))
      (length L0.2) st = (st', Ret ()) ∧
    fair_progress L0 i0 (S j0) st'.
Proof.
  destruct st as [[ps rs] allocs].
  intros (Hshape & Hlp & Hlr & Hproc & Hres & Hrows) Hr0 Hj0. cbn [fst snd] in *.
  destruct (lookup_lt_is_Some_2 L0.1 j0 Hj0) as [p0 Hp0].
  destruct (Hproc j0 p0 Hp0) as (p & Hp & Hpid & Hmax & Hsched & Hserved).
  destruct (Hres i0 r0 Hr0) as (r & Hr & Hrid & Htot & Havail).
  destruct (Hshape j0 p Hp) as (Hlm & Hla & Hln). cbn [fst snd] in *.
  assert (Hi0 : (i0 < length rs)%nat) by (by eapply lookup_lt_Some).
  destruct (lookup_lt_is_Some_2 (R.max_resources p) i0 ltac:(lia)) as [cap Hcap].
  eexists. split.
  { unfold R.fair_item. rewrite Hp, Hr, Hcap.
    rewrite bool_decide_eq_true_2 by lia.
    rewrite bool_decide_eq_true_2 by (cbn; lia).
    reflexivity. }
  fold (fair_amount (R.total_instances r0) (length L0.1) j0 cap).
  set (share := fair_amount (R.total_instances r0) (length L0.1) j0 cap).
  set (p2 := R.set_need _ _).
  assert (Hp2_pid : R.pid p2 = R.pid p) by done.
  assert (Hp2_max : R.max_resources p2 = R.max_resources p) by done.
  assert (Hp2_sched : scheduling_fields p2 = scheduling_fields p) by done.
  assert (Hp2_alloc : R.allocated_resources p2
                      = <[i0:=share]> (R.allocated_resources p)) by done.
  assert (Hp2_need : R.need_resources p2
                     = <[i0:=cap - share]> (R.need_resources p)) by done.
  clearbody p2.
  assert (Hrow_len : length (default (replicate (length L0.2) 0)
                               (allocs !! R.pid p)) = length L0.2).
  { destruct (allocs !! R.pid p) eqn:E; simpl;
      [by eapply Hrows | by rewrite length_replicate]. }
  unfold fair_progress. cbn [fst snd]. split_and!.
  - intros k q Hq. cbn [fst snd] in *. rewrite length_insert.
    apply list_lookup_insert_Some in Hq as [(-> & <- & _)|[Hne Hq]].
    + rewrite Hp2_max, Hp2_alloc, Hp2_need, !length_insert. done.
    + exact (Hshape k q Hq).
  - by rewrite length_insert.
  - by rewrite length_insert.
  - intros k q0 Hq0. destruct (decide (k = j0)) as [->|Hne].
    + assert (q0 = p0) as -> by congruence.
      exists p2. rewrite list_lookup_insert_eq by (by eapply lookup_lt_Some).
      split_and!; [done|congruence..|].
      intros i r0' cap' Hsv Hr0' Hcap'.
      destruct (decide (i = i0)) as [->|Hi].
      * assert (r0' = r0) as -> by congruence.
        assert (cap' = cap) as -> by congruence.
        rewrite Hp2_alloc, Hp2_need, !list_lookup_insert_eq by lia.
        split_and!; [done..|]. intros _. eexists.
        rewrite Hpid, lookup_insert_eq. split; [done|].
        apply list_lookup_insert_eq. rewrite <- Hpid. lia.
      * assert (Hsv' : served i0 j0 i j0) by (unfold served in *; lia).
        destruct (Hserved i r0' cap' Hsv' Hr0' Hcap') as (Ha & Hn & Hrow).
        rewrite Hp2_alloc, Hp2_need, !list_lookup_insert_ne by done.
        split_and!; [done..|].
        intros Hnd. destruct (Hrow Hnd) as (row & Hrow1 & Hrow2).
        rewrite Hpid, lookup_insert_eq. eexists. split; [done|].
        rewrite Hrow1. simpl. by rewrite list_lookup_insert_ne.
    + destruct (Hproc k q0 Hq0) as (q & Hq & Hqpid & Hqmax & Hqs & Hqserved).
      exists q. rewrite list_lookup_insert_ne by done. split_and!; try done.
      intros i r0' cap' Hsv Hr0' Hcap'.
      assert (Hsv' : served i0 j0 i k) by (unfold served in *; lia).
      destruct (Hqserved i r0' cap' Hsv' Hr0' Hcap') as (Ha & Hn & Hrow).
      split_and!; [done..|].
      intros Hnd. destruct (Hrow Hnd) as (row & Hrow1 & Hrow2).
      exists row. split; [|done]. rewrite lookup_insert_ne; [done|].
      rewrite Hpid. intros Heq. apply Hne.
      apply (NoDup_lookup _ k j0 (R.pid q0) Hnd);
        rewrite list_lookup_fmap, ?Hq0, ?Hp0; simpl; congruence.
  - intros i r0' Hr0'. destruct (decide (i = i0)) as [->|Hi].
    + assert (r0' = r0) as -> by congruence. eexists.
      rewrite list_lookup_insert_eq by done. split_and!; [done..|].
      cbn. unfold served_processes in *.
      rewrite decide_False by lia. rewrite decide_True by done.
      rewrite decide_False in Havail by lia.
      rewrite decide_True in Havail by done.
      rewrite total_allocated_take_insert by lia.
      rewrite Hp2_alloc, list_lookup_insert_eq by lia. simpl. lia.
    + destruct (Hres i r0' Hr0') as (r' & Hr' & ? & ? & Hav). exists r'.
      rewrite list_lookup_insert_ne by done. split_and!; try done.
      unfold served_processes in *. destruct (decide (i < i0)%nat).
      * rewrite (total_allocated_insert i j0 p) by done.
        rewrite Hp2_alloc, list_lookup_insert_ne by done. lia.
      * rewrite decide_False by done. rewrite decide_False in Hav by done.
        done.
  - intros pid_ row Hrow. apply lookup_insert_Some in Hrow as [[_ <-]|[_ Hrow]].
    + by rewrite length_insert.
    + by eapply Hrows.
Qed.

Lemma fair_processes_progress L0 i0 r0 todo : ∀ j0 st,
  (j0 + todo = length L0.1)%nat →
  fair_progress L0 i0 j0 st →
  L0.2 !! i0 = Some r0 →
  ∃ st',
    R.fair_processes todo i0 j0
      (R.total_instances r0 `div` Z.of_nat (length L0.1))
      (R.total_instances r0 `mod` Z.of_nat (length L0.1))
      (length L0.2) st = (st', Ret ()) ∧
    fair_progress L0 i0 (length L0.1) st'.
Proof.
  induction todo as [|todo IH]; intros j0 st Hlen Hinv Hr0.
  - exists st. split; [done|]. by replace (length L0.1) with j0 by lia.
  - destruct (fair_item_progress L0 i0 j0 st r0 Hinv Hr0 ltac:(lia))
      as (st1 & Hstep & Hinv1).
    cbn [R.fair_processes]. rewrite Hstep. apply IH; [lia|done..].
Qed.

Lemma fair_progress_next L0 i0 st :
  fair_progress L0 i0 (length L0.1) st → fair_progress L0 (S i0) 0 st.
Proof.
  intros (Hshape & Hlp & Hlr & Hproc & Hres & Hrows).
  unfold fair_progress; split_and!; try done.
  - intros k p0 Hp0.
    destruct (Hproc k p0 Hp0) as (p & Hp & ? & ? & ? & Hserved).
    exists p. split_and!; try done.
    intros i r0 cap Hsv. apply Hserved.
    apply lookup_lt_Some in Hp0. unfold served in *. lia.
  - intros i r0 Hr0. destruct (Hres i r0 Hr0) as (r & Hr & ? & ? & Hav).
    exists r. split_and!; try done.
    rewrite <- Hav. f_equal. f_equal. unfold served_processes.
    cbn [fst snd] in *.
    destruct (decide (i < i0)%nat), (decide (i < S i0)%nat),
      (decide (i = i0)), (decide (i = S i0)); try lia; try done.
    by rewrite take_ge by lia.
Qed.

Lemma fair_resources_progress L0 todo : ∀ i0 st,
  (i0 + todo = length L0.2)%nat →
  fair_progress L0 i0 0 st →
  ∃ st',
    R.fair_resources todo i0 (length L0.1) st = (st', Ret ()) ∧
    fair_progress L0 (length L0.2) 0 st'.
Proof.
  induction todo as [|todo IH]; intros i0 st Hlen Hinv.
  - exists st. split; [done|]. by replace (length L0.2) with i0 by lia.
  - cbn [R.fair_resources].
    destruct (lookup_lt_is_Some_2 L0.2 i0 ltac:(lia)) as [r0 Hr0].
    pose proof Hinv as (_ & _ & Hlr & _ & Hres & _).
    destruct (Hres i0 r0 Hr0) as (r & Hr & _ & Htot & _).
    rewrite Hr, Htot, Hlr.
    destruct (fair_processes_progress L0 i0 r0 (length L0.1) 0 st
                ltac:(lia) Hinv Hr0) as (st1 & Hrun & Hinv1).
    rewrite Hrun. apply IH; [lia|]. by apply fair_progress_next.
Qed.

Lemma fair_share_allocation_progress L :
  shaped L → L.1 ≠ [] →
  ∃ L' res,
    R.fair_share_allocation L = (L', Ret res) ∧
    fair_progress L (length L.2) 0 (L', R.allocations res).
Proof.
  intros Hs Hne.
  destruct (fair_resources_progress L (length L.2) 0 (L, ∅) ltac:(lia)
              (fair_progress_initial L Hs)) as ([L' allocs] & Hrun & Hinv).
  destruct L as [[|p ps] rs]; [done|].
  unfold R.fair_share_allocation. cbn [fst snd] in *.
  rewrite Hrun. by eexists _, _.
Qed.

Lemma fair_progress_final L st k p i :
  fair_progress L (length L.2) 0 st →
  st.1.1 !! k = Some p →
  (i < length L.2)%nat →
  ∃ p0 r0 cap,
    L.1 !! k = Some p0 ∧ L.2 !! i = Some r0 ∧
    R.max_resources p0 !! i = Some cap ∧
    R.pid p = R.pid p0 ∧ R.max_resources p = R.max_resources p0 ∧
    scheduling_fields p = scheduling_fields p0 ∧
    R.allocated_resources p !! i
    = Some (fair_amount (R.total_instances r0) (length L.1) k cap) ∧
    R.need_resources p !! i
    = Some (cap - fair_amount (R.total_instances r0) (length L.1) k cap) ∧
    (NoDup (R.pid <$> L.1) →
     ∃ row, st.2 !! R.pid p0 = Some row ∧
            row !! i
            = Some (fair_amount (R.total_instances r0) (length L.1) k cap)).
Proof.
  intros (Hshape & Hlp & Hlr & Hproc & Hres & Hrows) Hp Hi.
  assert (Hk : (k < length L.1)%nat) by (apply lookup_lt_Some in Hp; lia).
  destruct (lookup_lt_is_Some_2 _ _ Hk) as [p0 Hp0].
  destruct (lookup_lt_is_Some_2 _ _ Hi) as [r0 Hr0].
  destruct (Hproc k p0 Hp0) as (p' & Hp' & Hpid & Hmax & Hsched & Hserved).
  assert (p' = p) as -> by congruence.
  destruct (Hshape k p Hp) as (Hlm & _).
  destruct (lookup_lt_is_Some_2 (R.max_resources p0) i) as [cap Hcap];
    [rewrite <- Hmax; lia|].
  exists p0, r0, cap.
  assert (Hsv : served (length L.2) 0 i k) by (by left).
  destruct (Hserved i r0 cap Hsv Hr0 Hcap) as (Ha & Hn & Hrow).
  by split_and!.
Qed.

Lemma fair_amount_le total n k cap : fair_amount total n k cap ≤ cap.
Proof. unfold fair_amount. lia. Qed.

Lemma fair_share_allocation_empty L :
  L.1 = [] → ∃ res, R.fair_share_allocation L = (L, Ret res).
Proof.
  intros E. unfold R.fair_share_allocation. rewrite E. by eexists.
Qed.

(** [fair_share_allocation] always returns on a ledger whose vectors
    have one entry per resource, and the ledger it leaves satisfies the need
    invariant, [need[i] = max_resources[i] - allocated[i] ≥ 0], whatever the
    allocations and needs were before: every entry is overwritten with a
    share capped at the maximum claim. *)
Theorem fair_share_restores_need_invariant L :
  shaped L →
  ∃ L' res, R.fair_share_allocation L = (L', Ret res) ∧ need_invariant L'.
Proof.
  intros Hs. destruct (decide (L.1 = [])) as [E|Hne].
  - destruct (fair_share_allocation_empty L E) as [res Hrun].
    exists L, res. split; [done|]. split_and!; [done|..].
    + intros k p i m a n Hp. by rewrite E in Hp.
    + intros k p i n Hp. by rewrite E in Hp.
  - destruct (fair_share_allocation_progress L Hs Hne) as (L' & res & Hrun & Hinv).
    exists L', res. split; [done|].
    pose proof Hinv as (Hshape & _ & Hlr & _). cbn [fst snd] in *.
    split_and!; [done|..].
    + intros k p i m a n Hp Hm Ha Hn.
      assert (Hi : (i < length L.2)%nat).
      { destruct (Hshape k p Hp) as (Hlm & _).
        apply lookup_lt_Some in Hm. lia. }
      destruct (fair_progress_final L _ k p i Hinv Hp Hi)
        as (p0 & r0 & cap & _ & _ & Hcap & _ & Hmax & _ & Ha' & Hn' & _).
      rewrite Hmax in Hm. congruence.
    + intros k p i n Hp Hn.
      assert (Hi : (i < length L.2)%nat).
      { destruct (Hshape k p Hp) as (_ & _ & Hln).
        apply lookup_lt_Some in Hn. lia. }
      destruct (fair_progress_final L _ k p i Hinv Hp Hi)
        as (p0 & r0 & cap & _ & _ & Hcap & _ & Hmax & _ & Ha' & Hn' & _).
      pose proof (fair_amount_le (R.total_instances r0) (length L.1) k cap).
      assert (n = cap - fair_amount (R.total_instances r0) (length L.1) k cap)
        by congruence.
      lia.
Qed.

Lemma fair_share_restores_need_invariant_holding_two :
  shaped holding_two ∧
  ∃ L' res,
    R.fair_share_allocation holding_two = (L', Ret res) ∧ need_invariant L'.
Proof.
  split; [apply holding_two_shaped|].
  exact (fair_share_restores_need_invariant holding_two holding_two_shaped).
Defined.

Lemma fair_share_allocation_accounts L i r r' :
  shaped L →
  L.2 !! i = Some r →
  (R.fair_share_allocation L).1.2 !! i = Some r' →
  R.total_instances r' = R.total_instances r ∧
  R.available_instances r'
  + total_allocated i (R.fair_share_allocation L).1.1
  = R.available_instances r.
Proof.
  intros Hs Hr Hr'. destruct (decide (L.1 = [])) as [E|Hne].
  - destruct (fair_share_allocation_empty L E) as [res Hrun].
    rewrite Hrun in *. cbn [fst snd] in *. rewrite E.
    assert (r' = r) as -> by congruence. unfold total_allocated. simpl.
    split; [done|lia].
  - destruct (fair_share_allocation_progress L Hs Hne) as (L' & res & Hrun & Hinv).
    rewrite Hrun in *. cbn [fst snd] in *.
    destruct Hinv as (_ & _ & _ & _ & Hres & _).
    destruct (Hres i r Hr) as (r'' & Hr'' & _ & Htot & Hav).
    cbn [fst snd] in *. assert (r'' = r') as -> by congruence.
    split; [done|]. unfold served_processes in Hav.
    rewrite decide_True in Hav by (by eapply lookup_lt_Some). done.
Qed.

Lemma fair_share_allocation_lengths L :
  shaped L →
  length (R.fair_share_allocation L).1.1 = length L.1 ∧
  length (R.fair_share_allocation L).1.2 = length L.2.
Proof.
  intros Hs. destruct (decide (L.1 = [])) as [E|Hne].
  - destruct (fair_share_allocation_empty L E) as [res ->]. done.
  - destruct (fair_share_allocation_progress L Hs Hne)
      as (L' & res & -> & _ & Hlp & Hlr & _). done.
Qed.

(** What [fair_share_allocation] does to availability: totals are
    kept, and for every resource the new [available_instances] plus the sum
    of the new allocations equals the [available_instances] it started
    from.  Hence the ledger it leaves is conserved exactly when every
    resource had all of its instances available before the call. *)
Theorem fair_share_conserves_iff_all_available L :
  shaped L →
  (∀ i r r', L.2 !! i = Some r →
     (R.fair_share_allocation L).1.2 !! i = Some r' →
     R.total_instances r' = R.total_instances r ∧
     R.available_instances r'
     + total_allocated i (R.fair_share_allocation L).1.1
     = R.available_instances r) ∧
  (conserved (R.fair_share_allocation L).1 ↔
   ∀ i r, L.2 !! i = Some r →
     R.available_instances r = R.total_instances r).
Proof.
  intros Hs. split.
  { intros i r r'. by apply fair_share_allocation_accounts. }
  destruct (fair_share_allocation_lengths L Hs) as [_ Hlr].
  split.
  - intros Hcons i r Hr.
    destruct (lookup_lt_is_Some_2 (R.fair_share_allocation L).1.2 i) as [r' Hr'].
    { rewrite Hlr. by eapply lookup_lt_Some. }
    destruct (fair_share_allocation_accounts L i r r' Hs Hr Hr') as [Htot Hav].
    pose proof (Hcons i r' Hr'). lia.
  - intros Hall i r' Hr'.
    destruct (lookup_lt_is_Some_2 L.2 i) as [r Hr].
    { rewrite <- Hlr. by eapply lookup_lt_Some. }
    destruct (fair_share_allocation_accounts L i r r' Hs Hr Hr') as [Htot Hav].
    pose proof (Hall i r Hr). lia.
Qed.

Lemma fair_share_conserves_iff_all_available_two_arrivals :
  shaped two_arrivals ∧
  conserved (R.fair_share_allocation two_arrivals).1.
Proof.
  split; [apply two_arrivals_shaped|].
  apply (proj2 (fair_share_conserves_iff_all_available two_arrivals
                  two_arrivals_shaped)).
  intros [|i] r Hr; cbv in Hr; by simplify_eq.
Defined.

(** The share of each process: after [fair_share_allocation] the
    process at position [k] holds, of resource [i],
    [min (total // n + (1 if k < total % n else 0)) max_resources[i]], its
    need is the rest of its claim, and its pid, maximum claim, priority and
    times are unchanged. *)
Theorem fair_share_amounts L k p i r cap :
  shaped L →
  L.1 !! k = Some p →
  L.2 !! i = Some r →
  R.max_resources p !! i = Some cap →
  ∃ p',
    (R.fair_share_allocation L).1.1 !! k = Some p' ∧
    R.allocated_resources p' !! i
    = Some (fair_amount (R.total_instances r) (length L.1) k cap) ∧
    R.need_resources p' !! i
    = Some (cap - fair_amount (R.total_instances r) (length L.1) k cap) ∧
    R.pid p' = R.pid p ∧
    R.max_resources p' = R.max_resources p ∧
    scheduling_fields p' = scheduling_fields p.
Proof.
  intros Hs Hp Hr Hcap.
  assert (Hne : L.1 ≠ []) by (intros E; by rewrite E in Hp).
  destruct (fair_share_allocation_progress L Hs Hne) as (L' & res & -> & Hinv).
  cbn [fst snd].
  destruct (lookup_lt_is_Some_2 L' .1 k) as [p' Hp'].
  { destruct Hinv as (_ & Hlp & _). cbn [fst snd] in Hlp. rewrite Hlp.
    by eapply lookup_lt_Some. }
  destruct (fair_progress_final L _ k p' i Hinv Hp')
    as (p0 & r0 & cap0 & Hp0 & Hr0 & Hcap0 & ? & ? & ? & ? & ? & _).
  { by eapply lookup_lt_Some. }
  assert (p0 = p) as -> by congruence.
  assert (r0 = r) as -> by congruence.
  assert (cap0 = cap) as -> by congruence.
  exists p'. by split_and!.
Qed.

Lemma fair_share_amounts_two_arrivals :
  shaped two_arrivals ∧
  ∃ p',
    (R.fair_share_allocation two_arrivals).1.1 !! 1%nat = Some p' ∧
    R.allocated_resources p' !! 0%nat = Some (fair_amount 1 2 1 1) ∧
    R.need_resources p' !! 0%nat = Some (1 - fair_amount 1 2 1 1) ∧
    R.pid p' = "early" ∧
    R.max_resources p' = [1] ∧
    scheduling_fields p' = (0, 0, 0, None).
Proof.
  split; [apply two_arrivals_shaped|].
  exact (fair_share_amounts two_arrivals 1 _ 0 _ 1 two_arrivals_shaped
           eq_refl eq_refl eq_refl).
Defined.

Lemma sum_shares (rel : Z → Z → Prop) q rem :
  (∀ x, rel x x) →
  (∀ a b c d, rel a b → rel c d → rel (a + c) (b + d)) →
  ∀ vals off,
    (∀ k v, vals !! k = Some v →
       rel v (q + (if bool_decide (Z.of_nat (off + k) < rem) then 1 else 0))) →
    rel (foldr Z.add 0 vals)
        (Z.of_nat (length vals) * q
         + Z.max 0 (Z.min (rem - Z.of_nat off) (Z.of_nat (length vals)))).
Proof.
  intros Hrefl Hadd. induction vals as [|v vals IH]; intros off Hvals.
  - simpl. replace (0 * q + _) with 0 by lia. apply Hrefl.
  - pose proof (Hvals 0%nat v eq_refl) as Hv.
    pose proof (IH (S off) (λ k w Hw,
      eq_ind _ (λ n, rel w (q + (if bool_decide (Z.of_nat n < rem) then 1 else 0)))
        (Hvals (S k) w Hw) _ (Nat.add_succ_r off k))) as Hrest.
    pose proof (Hadd _ _ _ _ Hv Hrest) as Hsum.
    cbn [foldr length].
    replace (off + 0)%nat with off in Hsum by lia.
    destruct (bool_decide (Z.of_nat off < rem)) eqn:E;
      [apply bool_decide_eq_true in E | apply bool_decide_eq_false in E].
    all: clear Hv Hrest.
    all: match goal with
         | H : ?R _ ?b |- ?R _ ?b' => replace b' with b by lia; exact H
         end.
Qed.

(** [fair_share_allocation] never hands out more than there is: the
    allocations of a resource add up to at most [total_instances], and to
    exactly [total_instances] when no maximum claim caps a share. *)
Theorem fair_share_within_total L i r :
  shaped L → L.1 ≠ [] → L.2 !! i = Some r →
  total_allocated i (R.fair_share_allocation L).1.1 ≤ R.total_instances r ∧
  ((∀ k p cap, L.1 !! k = Some p → R.max_resources p !! i = Some cap →
      R.total_instances r `div` Z.of_nat (length L.1) < cap) →
   total_allocated i (R.fair_share_allocation L).1.1 = R.total_instances r).
Proof.
  intros Hs Hne Hr.
  destruct (fair_share_allocation_progress L Hs Hne) as (L' & res & -> & Hinv).
  cbn [fst snd].
  assert (Hi : (i < length L.2)%nat) by (by eapply lookup_lt_Some).
  assert (Hn : 0 < Z.of_nat (length L.1)).
  { destruct L.1; [done|]. simpl. lia. }
  pose proof (Z.mod_pos_bound (R.total_instances r) _ Hn) as Hrem.
  pose proof (Z.div_mod (R.total_instances r) (Z.of_nat (length L.1))
                ltac:(lia)) as Hdiv.
  assert (Hlen : length L'.1 = length L.1) by (by destruct Hinv as (_ & ? & _)).
  assert (Hclosed : ∀ rel : Z → Z → Prop,
    (∀ x, rel x x) →
    (∀ a b c d, rel a b → rel c d → rel (a + c) (b + d)) →
    (∀ k p cap, L.1 !! k = Some p → R.max_resources p !! i = Some cap →
       rel (fair_amount (R.total_instances r) (length L.1) k cap)
           (R.total_instances r `div` Z.of_nat (length L.1)
            + (if bool_decide
                    (Z.of_nat k < R.total_instances r `mod` Z.of_nat (length L.1))
               then 1 else 0))) →
    rel (total_allocated i L'.1) (R.total_instances r)).
  { intros rel Hrefl Hadd Hrel.
    pose proof (sum_shares rel
                  (R.total_instances r `div` Z.of_nat (length L.1))
                  (R.total_instances r `mod` Z.of_nat (length L.1))
                  Hrefl Hadd
                  ((λ p, default 0 (R.allocated_resources p !! i)) <$> L'.1)
                  0%nat) as Hsum.
    rewrite length_fmap, Hlen in Hsum.
    replace (_ * _ + _) with (R.total_instances r) in Hsum by lia.
    apply Hsum. intros k v Hv.
    rewrite list_lookup_fmap in Hv.
    destruct (L'.1 !! k) as [p'|] eqn:Hp'; [|done]. simplify_eq/=.
    destruct (fair_progress_final L _ k p' i Hinv Hp' Hi)
      as (p0 & r0 & cap & Hp0 & Hr0 & Hcap & _ & _ & _ & -> & _).
    assert (r0 = r) as -> by congruence. simpl. by eapply Hrel. }
  split.
  - apply (Hclosed Z.le); [lia|lia|].
    intros k p cap _ _. unfold fair_amount. lia.
  - intros Hcap. apply (Hclosed eq); [done|congruence|].
    intros k p cap Hp Hc. pose proof (Hcap k p cap Hp Hc).
    unfold fair_amount. case_bool_decide; lia.
Qed.

Lemma fair_share_within_total_two_arrivals :
  shaped two_arrivals ∧ two_arrivals.1 ≠ [] ∧
  total_allocated 0 (R.fair_share_allocation two_arrivals).1.1 ≤ 1.
Proof.
  split; [apply two_arrivals_shaped|]. split; [done|].
  exact (proj1 (fair_share_within_total two_arrivals 0 _ two_arrivals_shaped
                  ltac:(done) eq_refl)).
Defined.

(** The mapping returned by [fair_share_allocation] agrees with the
    ledger: when the pids are distinct and there is at least one resource,
    [allocations[pid]] is the [allocated_resources] vector the process is
    left with. *)
Theorem fair_share_returns_the_allocations L k p' :
  shaped L → NoDup (R.pid <$> L.1) → L.2 ≠ [] →
  (R.fair_share_allocation L).1.1 !! k = Some p' →
  ∃ res,
    (R.fair_share_allocation L).2 = Ret res ∧
    R.allocations res !! R.pid p' = Some (R.allocated_resources p').
Proof.
  intros Hs Hnd Hrs Hp'.
  destruct (decide (L.1 = [])) as [E|Hne].
  { destruct (fair_share_allocation_empty L E) as [res' Hrun'].
    rewrite Hrun' in Hp'. cbn [fst snd] in Hp'. by rewrite E in Hp'. }
  destruct (fair_share_allocation_progress L Hs Hne) as (L' & res & Hrun & Hinv).
  rewrite Hrun in *. cbn [fst snd] in *. exists res. split; [done|].
  assert (H0 : (0 < length L.2)%nat) by (destruct L.2; [done|simpl; lia]).
  destruct (fair_progress_final L _ k p' 0 Hinv Hp' H0)
    as (p0 & r0 & cap0 & Hp0 & _ & _ & Hpid & _ & _ & _ & _ & Hrow).
  destruct (Hrow Hnd) as (row & Hrow1 & _). cbn [fst snd] in *.
  rewrite Hpid, Hrow1. f_equal. apply list_eq. intros i.
  destruct (decide (i < length L.2)%nat) as [Hi|Hi].
  - destruct (fair_progress_final L _ k p' i Hinv Hp' Hi)
      as (p1 & r1 & cap1 & Hp1 & _ & _ & _ & _ & _ & Ha & _ & Hrow').
    assert (p1 = p0) as -> by congruence.
    destruct (Hrow' Hnd) as (row' & Hrow1' & Hrow2'). cbn [fst snd] in *.
    congruence.
  - destruct Hinv as (Hshape & _ & Hlr & _ & _ & Hrows). cbn [fst snd] in *.
    destruct (Hshape k p' Hp') as (_ & Hla & _). cbn [fst snd] in *.
    rewrite !lookup_ge_None_2; [done|lia|].
    rewrite (Hrows _ _ Hrow1). lia.
Qed.

Lemma fair_share_returns_the_allocations_two_arrivals :
  shaped two_arrivals ∧ NoDup (R.pid <$> two_arrivals.1) ∧
  two_arrivals.2 ≠ [] ∧
  ∃ res,
    (R.fair_share_allocation two_arrivals).2 = Ret res ∧
    R.allocations res !! "late" = Some [1].
Proof.
  assert (Hnd : NoDup (R.pid <$> two_arrivals.1)).
  { apply (bool_decide_unpack _). by vm_compute. }
  split; [apply two_arrivals_shaped|]. split; [done|]. split; [done|].
  exact (fair_share_returns_the_allocations two_arrivals 0 _
           two_arrivals_shaped Hnd ltac:(done) eq_refl).
Defined.

(** ** Round robin runs to the full claim *)

Lemma list_find_applied_other k i amounts L x k' p' :
  list_find (λ p, R.pid p = x) (applied k i amounts L).1 = Some (k', p') →
  k' ≠ k →
  list_find (λ p, R.pid p = x) L.1 = Some (k', p').
Proof.
  intros (Hp & Hpid & Hfirst)%list_find_Some Hne. unfold applied in *.
  cbn [fst] in *. rewrite list_lookup_alter_ne in Hp by done.
  apply list_find_Some. split_and!; [done..|].
  intros j y Hy Hj. destruct (decide (j = k)) as [->|Hjk].
  - pose proof (Hfirst k) as Hk. rewrite list_lookup_alter_eq, Hy in Hk.
    exact (Hk _ eq_refl Hj).
  - apply (Hfirst j y); [|done]. by rewrite list_lookup_alter_ne.
Qed.

Lemma claim_met_applied k i amounts L x pid_ p :
  list_find (λ p, R.pid p = pid_) L.1 = Some (k, p) →
  x ≠ pid_ →
  claim_met L x → claim_met (applied k i amounts L) x.
Proof.
  intros Hfind Hne Hmet k' p' Hfind'.
  destruct (list_find_applied k i amounts L pid_ p Hfind) as (q & Hq & _).
  apply (Hmet k'). apply (list_find_applied_other k i amounts); [done|].
  intros ->. apply list_find_Some in Hq as (Hq & Hqpid & _).
  apply list_find_Some in Hfind' as (Hp' & Hp'pid & _). congruence.
Qed.

Lemma round_robin_while_claims fuel time_quantum pid_ :
  ∀ queue L results L' results',
    R.round_robin_while fuel time_quantum queue L results = (L', Ret results') →
    pid_ ∈ queue.*1 ∨ claim_met L pid_ →
    claim_met L' pid_.
Proof.
  induction fuel as [|fuel IH]; intros [|[pid_h request] queue] L results L' results';
    cbn [R.round_robin_while]; try done.
  - intros [= <- <-] [Hin|Hmet]; [by apply elem_of_nil in Hin|done].
  - intros [= <- <-] [Hin|Hmet]; [by apply elem_of_nil in Hin|done].
  - destruct (list_find _ L.1) as [[k p]|] eqn:Hfind.
    2: { intros Hloop Hpre. apply (IH _ _ _ _ _ Hloop).
         destruct Hpre as [Hin|Hmet]; [|by right].
         cbn in Hin. apply elem_of_cons in Hin as [->|Hin]; [|by left].
         right. intros k p Hkp. congruence. }
    destruct (all_le request _).
    2: { intros Hloop Hpre. apply (IH _ _ _ _ _ Hloop).
         destruct Hpre as [Hin|Hmet]; [left|by right].
         rewrite fmap_app, elem_of_app. cbn in *.
         apply elem_of_cons in Hin as [->|Hin]; [right|by left].
         apply list_elem_of_here. }
    destruct (R.list_max request) as [largest|e|]; [|done..].
    destruct (R.allocate_loop k 0 _ L) as [L1 [[]|e|]] eqn:Halloc; [|done..].
    apply allocate_loop_applied in Halloc as ->.
    destruct (list_find_applied k 0
                ((λ req, Z.min req (Z.min time_quantum largest)) <$> request)
                L pid_h p Hfind) as (q & Hq & Hqk).
    rewrite Hqk.
    destruct (forallb _ _) eqn:Hall; intros Hloop Hpre;
      apply (IH _ _ _ _ _ Hloop).
    + destruct (decide (pid_ = pid_h)) as [->|Hne].
      * right. intros k' p' Hfind'. assert (p' = q) as -> by congruence.
        apply Forall_forall. intros n Hn. apply list_elem_of_In in Hn.
        by apply (proj1 (forallb_forall _ _) Hall), bool_decide_eq_true in Hn.
      * destruct Hpre as [Hin|Hmet].
        -- cbn in Hin. apply elem_of_cons in Hin as [->|Hin]; [done|by left].
        -- right. by eapply claim_met_applied.
    + destruct (decide (pid_ = pid_h)) as [->|Hne].
      * left. rewrite fmap_app, elem_of_app. right. apply list_elem_of_here.
      * destruct Hpre as [Hin|Hmet].
        -- cbn in Hin. apply elem_of_cons in Hin as [->|Hin]; [done|].
           left. rewrite fmap_app, elem_of_app. by left.
        -- right. by eapply claim_met_applied.
Qed.

(** Round robin serves whole claims.  Whenever
    [round_robin_allocation] returns, every process named in the batch has
    [need_resources] zero in every entry, whatever amounts the batch asked
    for: a request is re-queued with the remaining need until the process
    has nothing left to claim.  On a ledger that kept
    [need = max_resources - allocated], the process then holds exactly its
    maximum claim. *)
Theorem round_robin_serves_full_claims
    fuel L requests time_quantum L' results process_id request k p :
  R.round_robin_allocation fuel L requests time_quantum = (L', Ret results) →
  (process_id, request) ∈ requests →
  list_find (λ p, R.pid p = process_id) L'.1 = Some (k, p) →
  Forall (λ need, need = 0) (R.need_resources p) ∧
  (shaped L → need_consistent L →
   R.allocated_resources p = R.max_resources p).
Proof.
  intros Hrun Hin Hfind.
  assert (Hzero : Forall (λ need, need = 0) (R.need_resources p)).
  { refine (round_robin_while_claims _ _ process_id _ _ _ _ _ Hrun _ k p Hfind).
    left. apply list_elem_of_fmap. by exists (process_id, request). }
  split; [done|]. intros Hs Hc.
  destruct (round_robin_while_Ret (λ L, shaped L ∧ need_consistent L)
              _ _ _ _ _ _ _
              (stable_and _ _ shaped_stable need_consistent_stable)
              Hrun (conj Hs Hc)) as [[Hs' Hc'] _].
  apply list_find_Some in Hfind as (Hp & _ & _).
  destruct (Hs' k p Hp) as (Hlm & Hla & Hln).
  apply list_eq_same_length with (length L'.2); [done..|].
  intros i a m Hi Ha Hm.
  destruct (lookup_lt_is_Some_2 (R.need_resources p) i ltac:(lia)) as [n Hn].
  pose proof (Hc' k p i m a n Hp Hm Ha Hn).
  pose proof (Forall_lookup_1 _ _ _ _ Hzero Hn) as Hz. cbn beta in Hz. lia.
Qed.


Lemma round_robin_serves_full_claims_two_passes :
  ∃ L' results k p,
    R.round_robin_allocation 2 two_passes [("A", [1])] 1 = (L', Ret results) ∧
    ("A", [1]) ∈ [("A", [1])] ∧
    list_find (λ p, R.pid p = "A") L'.1 = Some (k, p) ∧
    Forall (λ need, need = 0) (R.need_resources p).
Proof.
  eexists _, _, _, _.
  assert (Hin : ("A", [1]) ∈ [("A", [1])]) by apply list_elem_of_here.
  split_and!; [by vm_compute|done|by vm_compute|].
  refine (proj1 (round_robin_serves_full_claims 2 two_passes [("A", [1])] 1
                   _ _ "A" [1] _ _ _ Hin _)); by vm_compute.
Defined.

(** ** The priority order is a total order *)

Lemma ascii_compare_lt_trans a b c :
  Ascii.compare a b = Lt → Ascii.compare b c = Lt → Ascii.compare a c = Lt.
Proof.
  unfold Ascii.compare. rewrite !N.compare_lt_iff. lia.
Qed.

Lemma string_compare_refl s : String.compare s s = Eq.
Proof.
  pose proof (String.compare_antisym s s) as H.
  destruct (String.compare s s); done.
Qed.

Lemma string_compare_lt_trans a : ∀ b c,
  String.compare a b = Lt → String.compare b c = Lt → String.compare a c = Lt.
Proof.
  induction a as [|x a IH]; intros [|y b] [|z c]; simpl; try done.
  destruct (Ascii.compare x y) eqn:Hxy; try done;
    destruct (Ascii.compare y z) eqn:Hyz; try done.
  - apply Ascii.compare_eq_iff in Hxy as ->, Hyz as ->.
    replace (Ascii.compare z z) with Eq
      by (unfold Ascii.compare; by rewrite N.compare_refl).
    apply IH.
  - apply Ascii.compare_eq_iff in Hxy as ->. by rewrite Hyz.
  - apply Ascii.compare_eq_iff in Hyz as ->. by rewrite Hxy.
  - by rewrite (ascii_compare_lt_trans _ _ _ Hxy Hyz).
Qed.

Lemma string_ltb_irrefl s : String.ltb s s = false.
Proof. unfold String.ltb. by rewrite string_compare_refl. Qed.

Lemma string_ltb_trans a b c :
  String.ltb a b = true → String.ltb b c = true → String.ltb a c = true.
Proof.
  unfold String.ltb. intros Hab Hbc.
  destruct (String.compare a b) eqn:E1; try done.
  destruct (String.compare b c) eqn:E2; try done.
  by rewrite (string_compare_lt_trans _ _ _ E1 E2).
Qed.

Lemma string_ltb_total a b :
  String.ltb a b = false → String.ltb b a = false → a = b.
Proof.
  unfold String.ltb. intros Hab Hba.
  pose proof (String.compare_antisym a b) as Hanti.
  destruct (String.compare a b) eqn:E1; try done.
  - by apply String.compare_eq_iff.
  - destruct (String.compare b a); done.
Qed.

Lemma list_lt_irrefl a : R.list_lt a a = false.
Proof.
  induction a as [|x a IH]; simpl; [done|].
  rewrite !bool_decide_eq_false_2 by lia. done.
Qed.

Lemma list_lt_trans a : ∀ b c,
  R.list_lt a b = true → R.list_lt b c = true → R.list_lt a c = true.
Proof.
  induction a as [|x a IH]; intros [|y b] [|z c]; simpl; try done.
  repeat case_bool_decide; try done; try lia. apply IH.
Qed.

Lemma list_lt_total a : ∀ b,
  R.list_lt a b = false → R.list_lt b a = false → a = b.
Proof.
  induction a as [|x a IH]; intros [|y b]; simpl; try done.
  repeat case_bool_decide; try done; try lia.
  intros Hab Hba. f_equal; [lia|by apply IH].
Qed.

Lemma tuple_lt_irrefl a : R.tuple_lt a a = false.
Proof.
  destruct a as [[p s] r]. unfold R.tuple_lt.
  rewrite !bool_decide_eq_false_2 by lia.
  by rewrite string_ltb_irrefl, list_lt_irrefl.
Qed.

Lemma tuple_lt_trans a b c :
  R.tuple_lt a b = true → R.tuple_lt b c = true → R.tuple_lt a c = true.
Proof.
  destruct a as [[pa sa] ra], b as [[pb sb] rb], c as [[pc sc] rc].
  unfold R.tuple_lt.
  repeat case_bool_decide; try done; try lia.
  destruct (String.ltb sa sb) eqn:Hab, (String.ltb sb sa) eqn:Hba,
    (String.ltb sb sc) eqn:Hbc, (String.ltb sc sb) eqn:Hcb; try done.
  all: try (rewrite (string_ltb_trans _ _ _ Hab Hbc); done).
  all: try (pose proof (string_ltb_total _ _ Hab Hba) as ->).
  all: try (pose proof (string_ltb_total _ _ Hbc Hcb) as ->).
  all: rewrite ?Hab, ?Hba, ?Hbc, ?Hcb; try done.
  apply list_lt_trans.
Qed.

Lemma tuple_lt_total a b :
  R.tuple_lt a b = false → R.tuple_lt b a = false → a = b.
Proof.
  destruct a as [[pa sa] ra], b as [[pb sb] rb]. unfold R.tuple_lt.
  repeat case_bool_decide; try done; try lia.
  destruct (String.ltb sa sb) eqn:Hab, (String.ltb sb sa) eqn:Hba; try done.
  intros Hr1 Hr2. pose proof (string_ltb_total _ _ Hab Hba) as ->.
  pose proof (list_lt_total _ _ Hr1 Hr2) as ->.
  by replace pa with pb by lia.
Qed.

Lemma tuple_lt_asym a b : R.tuple_lt a b = true → R.tuple_lt b a = false.
Proof.
  intros Hab. destruct (R.tuple_lt b a) eqn:Hba; [|done].
  by rewrite <- (tuple_lt_irrefl a), (tuple_lt_trans _ _ _ Hab Hba).
Qed.

Lemma tuple_lt_le_trans a b c :
  R.tuple_lt a b = true → R.tuple_lt c b = false → R.tuple_lt a c = true.
Proof.
  intros Hab Hcb. destruct (R.tuple_lt b c) eqn:Hbc.
  - by eapply tuple_lt_trans.
  - by rewrite (tuple_lt_total _ _ Hcb Hbc).
Qed.

Lemma insert_desc_comm x y l :
  R.insert_desc x (R.insert_desc y l) = R.insert_desc y (R.insert_desc x l).
Proof.
  induction l as [|z l IH]; simpl.
  - destruct (R.tuple_lt x y) eqn:Hxy, (R.tuple_lt y x) eqn:Hyx; try done.
    + by rewrite (tuple_lt_asym _ _ Hxy) in Hyx.
    + by rewrite (tuple_lt_total _ _ Hxy Hyx).
  - destruct (R.tuple_lt y z) eqn:Hyz, (R.tuple_lt x z) eqn:Hxz; simpl;
      rewrite ?Hyz, ?Hxz.
    + by rewrite IH.
    + by rewrite (tuple_lt_le_trans _ _ _ Hyz Hxz).
    + by rewrite (tuple_lt_le_trans _ _ _ Hxz Hyz).
    + destruct (R.tuple_lt x y) eqn:Hxy, (R.tuple_lt y x) eqn:Hyx;
        rewrite ?Hyz, ?Hxz; try done.
      * by rewrite (tuple_lt_asym _ _ Hxy) in Hyx.
      * by rewrite (tuple_lt_total _ _ Hxy Hyx).
Qed.

Lemma sort_desc_permutation l l' : l ≡ₚ l' → R.sort_desc l = R.sort_desc l'.
Proof.
  intros Hperm. unfold R.sort_desc.
  induction Hperm as [|x l l' _ IH|x y l|l l' l'' _ IH1 _ IH2]; simpl.
  - done.
  - by rewrite IH.
  - apply insert_desc_comm.
  - by rewrite IH1.
Qed.

Lemma priority_requests_permutation processes requests requests' :
  requests ≡ₚ requests' →
  R.priority_requests processes requests
  ≡ₚ R.priority_requests processes requests'.
Proof.
  intros Hperm.
  induction Hperm as [|[pid_ rq] l l' _ IH|[p1 r1] [p2 r2] l|l l' l'' _ IH1 _ IH2];
    simpl.
  - done.
  - destruct (list_find _ _) as [[k p]|]; [by f_equiv|done].
  - destruct (list_find (λ p, R.pid p = p1) _) as [[k p]|],
      (list_find (λ p, R.pid p = p2) _) as [[k' p']|]; try done.
    apply perm_swap.
  - by etrans.
Qed.

(** [priority_allocation] does not depend on the order of the
    batch: the tuples [(priority, pid, request)] are totally ordered and
    tuples that compare equal are equal, so sorting fixes the order of
    service, and two batches with the same requests give the same ledger
    and the same result list. *)
Theorem priority_ignores_batch_order L requests requests' :
  requests ≡ₚ requests' →
  R.priority_allocation L requests = R.priority_allocation L requests'.
Proof.
  intros Hperm. unfold R.priority_allocation.
  by rewrite (sort_desc_permutation _ _
                (priority_requests_permutation L.1 _ _ Hperm)).
Qed.

Lemma priority_ignores_batch_order_modest_claim :
  [("A", [1]); ("ghost", [1])] ≡ₚ [("ghost", [1]); ("A", [1])] ∧
  R.priority_allocation modest_claim [("A", [1]); ("ghost", [1])]
  = R.priority_allocation modest_claim [("ghost", [1]); ("A", [1])].
Proof.
  assert (Hperm : [("A", [1]); ("ghost", [1])]
                  ≡ₚ@{R.Request} [("ghost", [1]); ("A", [1])])
    by apply perm_swap.
  split; [done|].
  exact (priority_ignores_batch_order modest_claim _ _ Hperm).
Defined.

(** ** Fair share, called again *)

Lemma fair_share_allocation_processes L k p :
  shaped L →
  L.1 !! k = Some p →
  ∃ p',
    (R.fair_share_allocation L).1.1 !! k = Some p' ∧
    R.pid p' = R.pid p ∧
    R.max_resources p' = R.max_resources p ∧
    scheduling_fields p' = scheduling_fields p ∧
    length (R.allocated_resources p') = length L.2 ∧
    length (R.need_resources p') = length L.2 ∧
    ∀ i r cap,
      L.2 !! i = Some r →
      R.max_resources p !! i = Some cap →
      R.allocated_resources p' !! i
      = Some (fair_amount (R.total_instances r) (length L.1) k cap) ∧
      R.need_resources p' !! i
      = Some (cap - fair_amount (R.total_instances r) (length L.1) k cap).
Proof.
  intros Hs Hp.
  assert (Hne : L.1 ≠ []) by (intros E; by rewrite E in Hp).
  destruct (fair_share_allocation_progress L Hs Hne) as (L' & res & -> & Hinv).
  cbn [fst snd].
  pose proof Hinv as (Hshape & Hlp & Hlr & Hproc & _). cbn [fst snd] in *.
  destruct (Hproc k p Hp) as (p' & Hp' & Hpid & Hmax & Hsched & Hserved).
  destruct (Hshape k p' Hp') as (_ & Hla & Hln). cbn [fst snd] in *.
  exists p'. split_and!; [done..|lia|lia|].
  intros i r cap Hr Hcap.
  assert (Hsv : served (length L.2) 0 i k).
  { left. by eapply lookup_lt_Some. }
  destruct (Hserved i r cap Hsv Hr Hcap) as (Ha & Hn & _). done.
Qed.

(** Fair share is idempotent on the processes only: a second call of
    [fair_share_allocation] leaves every process exactly as the first call
    did, but takes the same shares out of [available_instances] once
    more. *)
Theorem fair_share_twice L :
  shaped L →
  (R.fair_share_allocation (R.fair_share_allocation L).1).1.1
  = (R.fair_share_allocation L).1.1 ∧
  ∀ i r' r'',
    (R.fair_share_allocation L).1.2 !! i = Some r' →
    (R.fair_share_allocation (R.fair_share_allocation L).1).1.2 !! i = Some r'' →
    R.available_instances r''
    = R.available_instances r'
      - total_allocated i (R.fair_share_allocation L).1.1.
Proof.
  intros Hs.
  destruct (fair_share_restores_need_invariant L Hs)
    as (L1 & res1 & Hrun1 & Hs1 & _).
  rewrite Hrun1. cbn [fst snd].
  assert (Hprocs : (R.fair_share_allocation L1).1.1 = L1.1).
  { destruct (fair_share_allocation_lengths L Hs) as [Hlp Hlr].
    rewrite Hrun1 in Hlp, Hlr. cbn [fst snd] in *.
    destruct (fair_share_allocation_lengths L1 Hs1) as [Hlp1 Hlr1].
    apply list_eq_same_length with (length L1.1); [done..|].
    intros k p2 p1 Hk Hp2 Hp1.
    destruct (lookup_lt_is_Some_2 L.1 k ltac:(lia)) as [p Hp].
    destruct (fair_share_allocation_processes L k p Hs Hp)
      as (q1 & Hq1 & Hpid1 & Hmax1 & Hsched1 & Hla1 & Hln1 & Hvals1).
    rewrite Hrun1 in Hq1. cbn [fst snd] in Hq1.
    assert (q1 = p1) as -> by congruence.
    destruct (fair_share_allocation_processes L1 k p1 Hs1 Hp1)
      as (q2 & Hq2 & Hpid2 & Hmax2 & Hsched2 & Hla2 & Hln2 & Hvals2).
    assert (q2 = p2) as -> by congruence.
    assert (Hentries : ∀ i, (i < length L.2)%nat →
      R.allocated_resources p2 !! i = R.allocated_resources p1 !! i ∧
      R.need_resources p2 !! i = R.need_resources p1 !! i).
    { intros i Hi.
      destruct (lookup_lt_is_Some_2 L.2 i Hi) as [r Hr].
      destruct (lookup_lt_is_Some_2 L1.2 i ltac:(lia)) as [r1 Hr1].
      destruct (Hs k p Hp) as (Hlm & _).
      destruct (lookup_lt_is_Some_2 (R.max_resources p) i ltac:(lia))
        as [cap Hcap].
      pose proof (fair_share_allocation_accounts L i r r1 Hs Hr) as Hacc.
      rewrite Hrun1 in Hacc. destruct (Hacc Hr1) as [Htot _].
      destruct (Hvals1 i r cap Hr Hcap) as [Ha1 Hn1].
      rewrite <- Hmax1 in Hcap.
      destruct (Hvals2 i r1 cap Hr1 Hcap) as [Ha2 Hn2].
      rewrite Htot, Hlp in Ha2, Hn2. by rewrite Ha1, Hn1, Ha2, Hn2. }
    assert (Ha : R.allocated_resources p2 = R.allocated_resources p1).
    { apply list_eq_same_length with (length L.2); [lia..|].
      intros i x y Hi Hx Hy. destruct (Hentries i Hi) as [E _]. congruence. }
    assert (Hn : R.need_resources p2 = R.need_resources p1).
    { apply list_eq_same_length with (length L.2); [lia..|].
      intros i x y Hi Hx Hy. destruct (Hentries i Hi) as [_ E]. congruence. }
    destruct p1, p2. unfold scheduling_fields in *. simpl in *.
    by simplify_eq. }
  split; [done|].
  intros i r' r'' Hr' Hr''.
  destruct (fair_share_allocation_accounts L1 i r' r'' Hs1 Hr' Hr'') as [_ Hav].
  rewrite Hprocs in Hav. lia.
Qed.

Lemma fair_share_twice_two_arrivals :
  shaped two_arrivals ∧
  (R.fair_share_allocation (R.fair_share_allocation two_arrivals).1).1.1
  = (R.fair_share_allocation two_arrivals).1.1.
Proof.
  split; [apply two_arrivals_shaped|].
  exact (proj1 (fair_share_twice two_arrivals two_arrivals_shaped)).
Defined.

(** ** Sessions under the Banker's policy *)

Lemma length_pointwise {A} (f : nat → A → A) (l l' : list A) :
  (∀ i, l' !! i = f i <$> l !! i) → length l' = length l.
Proof.
  revert f l'. induction l as [|x l IH]; intros f [|y l'] H.
  - done.
  - by specialize (H 0%nat).
  - by specialize (H 0%nat).
  - simpl. f_equal. apply (IH (λ i, f (S i)) l'). intros i. apply (H (S i)).
Qed.

Lemma replays_after_release (r : nat → Z) ps ps' k p p' :
  ps !! k = Some p → ps' !! k = Some p' →
  (∀ k', k' ≠ k → ps' !! k' = ps !! k') →
  (∀ i, D.allocated_resources p' !! i
        = (λ x, x - r i) <$> D.allocated_resources p !! i) →
  (∀ i, D.need_resources p' !! i
        = (λ x, x + r i) <$> D.need_resources p !! i) →
  (∀ i, 0 ≤ r i) →
  ∀ order w w',
    NoDup order →
    length w' = length w →
    (∀ i x y, w !! i = Some x → w' !! i = Some y →
       x + (if decide (k ∈ order) then r i else 0) ≤ y) →
    replays ps w order → replays ps' w' order.
Proof.
  intros Hp Hp' Hframe Halloc Hneed Hr.
  pose proof (length_pointwise (λ i x, x - r i) _ _ Halloc) as Hla.
  pose proof (length_pointwise (λ i x, x + r i) _ _ Hneed) as Hln.
  induction order as [|j rest IH]; intros w w' Hnd Hlen Hw; [done|].
  apply NoDup_cons in Hnd as [Hj Hnd].
  intros (q & Hq & Hcov & Hrest).
  destruct (decide (j = k)) as [->|Hjk].
  - assert (q = p) as -> by congruence. exists p'. split_and!; [done|..].
    + apply Forall2_same_length_lookup. split.
      { rewrite Hln, Hlen. by eapply Forall2_length. }
      intros i x' y Hx' Hy. rewrite Hneed in Hx'.
      destruct (D.need_resources p !! i) as [x|] eqn:Hx; [|done].
      simplify_eq/=.
      destruct (lookup_lt_is_Some_2 w i) as [z Hz].
      { rewrite <- Hlen. by eapply lookup_lt_Some. }
      pose proof (Forall2_lookup_lr _ _ _ _ _ _ Hcov Hx Hz) as Hle.
      pose proof (Hw i z y Hz Hy) as Hwi.
      rewrite decide_True in Hwi by apply list_elem_of_here. lia.
    + refine (IH _ _ Hnd _ _ Hrest); [rewrite !length_zip_with; lia|].
      intros i x y Hx Hy. rewrite decide_False by done.
      rewrite lookup_zip_with in Hx, Hy. rewrite Halloc in Hy.
      destruct (w !! i) as [wi|] eqn:Hwi; [|done].
      destruct (w' !! i) as [wi'|] eqn:Hwi'; [|done].
      destruct (D.allocated_resources p !! i) as [a|]; [|done].
      simplify_eq/=. pose proof (Hw i wi wi' Hwi Hwi') as Hle.
      rewrite decide_True in Hle by apply list_elem_of_here. lia.
  - exists q. split_and!; [by rewrite Hframe|..].
    + apply Forall2_same_length_lookup. split.
      { rewrite Hlen. by eapply Forall2_length. }
      intros i x y Hx Hy.
      destruct (lookup_lt_is_Some_2 w i) as [z Hz].
      { rewrite <- Hlen. by eapply lookup_lt_Some. }
      pose proof (Forall2_lookup_lr _ _ _ _ _ _ Hcov Hx Hz) as Hle.
      pose proof (Hw i z y Hz Hy) as Hwi. pose proof (Hr i).
      destruct (decide (k ∈ j :: rest)); lia.
    + refine (IH _ _ Hnd _ _ Hrest); [rewrite !length_zip_with; lia|].
      intros i x y Hx Hy.
      rewrite lookup_zip_with in Hx, Hy.
      destruct (w !! i) as [wi|] eqn:Hwi; [|done].
      destruct (w' !! i) as [wi'|] eqn:Hwi'; [|done].
      destruct (D.allocated_resources q !! i) as [a|]; [|done].
      simplify_eq/=. pose proof (Hw i wi wi' Hwi Hwi') as Hle.
      destruct (decide (k ∈ j :: rest)) as [Hin|Hnin],
        (decide (k ∈ rest)) as [Hin'|Hnin']; try lia.
      * apply elem_of_cons in Hin as [->|]; done.
      * exfalso. apply Hnin. by apply list_elem_of_further.
Qed.

Lemma deallocate_resources_cases L process_id release L' res :
  R.deallocate_resources L process_id release = (L', Ret res) →
  L' = L ∨
  ∃ k p, L.1 !! k = Some p ∧ L' = applied k 0 (Z.opp <$> release) L.
Proof.
  unfold R.deallocate_resources.
  destruct (list_find _ L.1) as [[k p]|] eqn:Hfind; [|intros [= <- <-]; by left].
  destruct (any_gt release _) eqn:Hany; [intros [= <- <-]; by left|].
  rewrite release_loop_allocate_loop.
  destruct (R.allocate_loop k 0 _ L) as [L1 [[]|e|]] eqn:Hloop; [|done..].
  intros [= <- <-]. right.
  apply allocate_loop_applied in Hloop as ->.
  apply list_find_Some in Hfind as (Hp & _). by exists k, p.
Qed.

Lemma release_safe_state L process_id release L' res :
  Forall (Z.le 0) release →
  R.deallocate_resources L process_id release = (L', Ret res) →
  safe_state (erase_process <$> L.1) (erase_resource <$> L.2) →
  safe_state (erase_process <$> L'.1) (erase_resource <$> L'.2).
Proof.
  intros Hrel Hrun Hsafe.
  destruct (deallocate_resources_cases _ _ _ _ _ Hrun)
    as [->|(k & p & Hp & ->)]; [done|].
  destruct (applied_receives k (Z.opp <$> release) L p Hp)
    as (p0 & p' & Hp0 & Hp' & _ & _ & _ & Halloc & Hneed & Hframe & Havail & _).
  assert (p0 = p) as -> by congruence.
  set (L' := applied k 0 (Z.opp <$> release) L) in *.
  assert (Hamount : ∀ i, default 0 ((Z.opp <$> release) !! i)
                         = - default 0 (release !! i)).
  { intros i. rewrite list_lookup_fmap. by destruct (release !! i). }
  assert (Hr : ∀ i, 0 ≤ default 0 (release !! i)).
  { intros i. destruct (release !! i) as [x|] eqn:Hx; [|done].
    exact (Forall_lookup_1 _ _ _ _ Hrel Hx). }
  assert (Hlen : length L'.1 = length L.1).
  { unfold L', applied. cbn [fst]. by rewrite length_alter. }
  destruct Hsafe as (order & Hperm & Hreplay).
  exists order. split; [by rewrite length_fmap, Hlen, <- (length_fmap erase_process)|].
  refine (replays_after_release (λ i, default 0 (release !! i))
            (erase_process <$> L.1) (erase_process <$> L'.1) k
            (erase_process p) (erase_process p') _ _ _ _ _ Hr order _ _ _ _ _
            Hreplay).
  - by rewrite list_lookup_fmap, Hp.
  - by rewrite list_lookup_fmap, Hp'.
  - intros k' Hk'. by rewrite !list_lookup_fmap, Hframe.
  - intros i. cbn. rewrite Halloc, Hamount.
    destruct (R.allocated_resources p !! i); simpl; [f_equal; lia|done].
  - intros i. cbn. rewrite Hneed, Hamount.
    destruct (R.need_resources p !! i); simpl; [f_equal; lia|done].
  - rewrite Hperm. apply NoDup_seq.
  - rewrite <- !list_fmap_compose, !length_fmap.
    pose proof (length_pointwise
                  (λ i x, x - default 0 ((Z.opp <$> release) !! i)) _ _ Havail)
      as Hl.
    by rewrite !length_fmap in Hl.
  - intros i x y Hx Hy.
    rewrite <- list_fmap_compose in Hx, Hy.
    change (D.available_instances ∘ erase_resource) with R.available_instances
      in Hx, Hy.
    rewrite Havail, Hx, Hamount in Hy. simplify_eq/=.
    pose proof (Hr i). destruct (decide (k ∈ order)); lia.
Qed.

Lemma request_safe_state L process_id request :
  shaped L →
  safe_state (erase_process <$> L.1) (erase_resource <$> L.2) →
  let L' := (R.simulate_request_bankers L process_id request).1 in
  safe_state (erase_process <$> L'.1) (erase_resource <$> L'.2).
Proof.
  intros Hshape Hsafe L'.
  pose proof (simulate_request_bankers_cases L process_id request) as Hc.
  cbn zeta in Hc. fold L' in Hc.
  destruct (R.simulate_request_bankers L process_id request).2 as [a|e|] eqn:Hres;
    [|by rewrite Hc..].
  destruct (granted a) eqn:Hg; [|destruct Hc as [-> _]; done].
  assert (Hgranted : was_granted (R.simulate_request_bankers L process_id request).2)
    by (by exists a).
  destruct (simulate_request_bankers_checked L process_id request Hgranted)
    as [s Hs].
  assert (Hshape' : shaped L').
  { destruct (operations_keep_stable shaped L shaped_stable Hshape)
      as (_ & _ & _ & Hsim & _). apply Hsim. }
  apply shaped_well_shaped in Hshape'.
  fold L' in Hs. rewrite bankers_algorithm_erase in Hs.
  destruct (bankers_algorithm_runs _ _ Hshape') as (v & Hv & Heq).
  rewrite Heq in Hs. destruct v as [s'|]; [|done].
  destruct (runs_replays _ _ _ Hv s' eq_refl) as (order & Hperm & Hreplay & _).
  exists order. split; [|done].
  rewrite Hperm. unfold D.initial. cbn [finish].
  by rewrite unfinished_positions_initial.
Qed.

(** Safe states are closed under the Banker's operations.  From a safe
    ledger whose vectors have one entry per resource, any sequence of calls
    of [simulate_request_bankers] (granted or refused, with any arguments)
    and of returning calls of [deallocate_resources] with non-negative
    release vectors leads to a ledger that is again safe: some order of all
    the processes lets each of them finish. *)
Theorem banker_sessions_stay_safe L L' :
  shaped L →
  safe_state (erase_process <$> L.1) (erase_resource <$> L.2) →
  rtc banker_step L L' →
  shaped L' ∧
  safe_state (erase_process <$> L'.1) (erase_resource <$> L'.2).
Proof.
  intros Hshape Hsafe Hsteps.
  induction Hsteps as [L|L L1 L2 Hstep _ IH]; [done|].
  apply IH.
  - destruct (operations_keep_stable shaped L shaped_stable Hshape)
      as (_ & _ & _ & Hsim & Hrel).
    destruct Hstep as [L pid_ rq|L pid_ rl L' res _ Hrun];
      [apply Hsim|by eapply Hrel].
  - destruct Hstep as [L pid_ rq|L pid_ rl L' res Hnn Hrun].
    + by apply request_safe_state.
    + by eapply release_safe_state.
Qed.

Lemma banker_sessions_stay_safe_modest_claim :
  let L1 := (R.simulate_request_bankers modest_claim "A" [1]).1 in
  let L2 := (R.deallocate_resources L1 "A" [1]).1 in
  shaped modest_claim ∧
  safe_state (erase_process <$> modest_claim.1)
    (erase_resource <$> modest_claim.2) ∧
  rtc banker_step modest_claim L2 ∧
  shaped L2 ∧
  safe_state (erase_process <$> L2.1) (erase_resource <$> L2.2).
Proof.
  intros L1 L2.
  assert (Hsafe : safe_state (erase_process <$> modest_claim.1)
                    (erase_resource <$> modest_claim.2)).
  { exists [0%nat]. split; [done|]. eexists. split; [reflexivity|].
    split; [|done]. cbn. repeat constructor. lia. }
  assert (Hrun : ∃ res, R.deallocate_resources L1 "A" [1] = (L2, Ret res))
    by (eexists; by vm_compute).
  destruct Hrun as [res Hrun].
  assert (Hsteps : rtc banker_step modest_claim L2).
  { apply rtc_l with L1; [apply step_request|].
    apply rtc_once.
    apply (step_release L1 "A" [1] L2 res); [|exact Hrun].
    repeat constructor. lia. }
  refine (conj modest_claim_shaped (conj Hsafe (conj Hsteps _))).
  exact (banker_sessions_stay_safe modest_claim L2 modest_claim_shaped
           Hsafe Hsteps).
Defined.
